(** * mi-parser: the MediaInfo text parser of [src/mediainfo.ts]

    A shallow embedding of [parseMediaInfo] and of its helper functions
    ([parseSize], [parseDuration], [parseBitRate], [parseFrequency],
    [parseDate]), followed by the properties of the specification.

    Modelling choices.
    - A JavaScript string is a sequence of UTF-16 code units; here it is a
      [list ascii], i.e. the code units are restricted to U+0000..U+00FF.
    - A JavaScript number is an IEEE 754 binary64 value: a [spec_float] of
      the standard library with precision 53 and maximal exponent 1024.
      [parseInt] and [parseFloat] give the number nearest to the decimal
      they read, and the powers of 1000 and 1024 are exact.
    - Regular expressions are values of the type [regex], run by a
      backtracking matcher with the priorities of the ECMAScript matcher.
    - A [TypeError] raised by a property access on [undefined] is the second
      constructor of [Exc]. *)

From Stdlib Require Import String Ascii List ZArith Bool Lia Arith.
From Stdlib Require Import Floats.SpecFloat.
Import ListNotations.

(** ** Strings *)

Definition str := list ascii.

(** A string literal of the source. *)
Definition lit (x : string) : str := list_ascii_of_string x.

Definition code (c : ascii) : nat := nat_of_ascii c.

Definition chr_nl : ascii := ascii_of_nat 10.
Definition chr_cr : ascii := ascii_of_nat 13.
Definition chr_space : ascii := ascii_of_nat 32.

Definition str_eqb (a b : str) : bool :=
  if list_eq_dec ascii_dec a b then true else false.

(** [\d] *)
Definition isDigit (c : ascii) : bool := (48 <=? code c) && (code c <=? 57).

(** [\s], and the characters removed by [trim]: TAB, LF, VT, FF, CR, SP and
    NBSP are the white space and line terminators below U+0100. *)
Definition isSpace (c : ascii) : bool :=
  let n := code c in
  ((9 <=? n) && (n <=? 13)) || (n =? 32) || (n =? 160).

(** The line terminators, which [.] does not match. *)
Definition isLineTerminator (c : ascii) : bool :=
  (code c =? 10) || (code c =? 13).

(** [.] *)
Definition isDot (c : ascii) : bool := negb (isLineTerminator c).

(** [[A-Za-z]] *)
Definition isAlpha (c : ascii) : bool :=
  let n := code c in
  ((65 <=? n) && (n <=? 90)) || ((97 <=? n) && (n <=? 122)).

Definition isChar (x : ascii) (c : ascii) : bool := Ascii.eqb c x.

Definition notChar (x : ascii) (c : ascii) : bool := negb (Ascii.eqb c x).

(** [String.prototype.toLowerCase] on one code unit below U+0100. *)
Definition lowerChar (c : ascii) : ascii :=
  let n := code c in
  if ((65 <=? n) && (n <=? 90))
     || ((192 <=? n) && (n <=? 222) && negb (n =? 215))
  then ascii_of_nat (n + 32) else c.

Definition toLowerCase (x : str) : str := map lowerChar x.

Fixpoint dropWhile (p : ascii -> bool) (x : str) : str :=
  match x with
  | [] => []
  | c :: r => if p c then dropWhile p r else x
  end.

Definition trimStart (x : str) : str := dropWhile isSpace x.

Definition trimEnd (x : str) : str := rev (dropWhile isSpace (rev x)).

(** [String.prototype.trim] *)
Definition trim (x : str) : str := trimEnd (trimStart x).

(** [x.split(sep)] for a separator that is one character, or a regular
    expression that is one character class, such as [/[:.]/]. *)
Fixpoint splitBy (p : ascii -> bool) (x : str) : list str :=
  match x with
  | [] => [[]]
  | c :: r =>
      if p c then [] :: splitBy p r
      else match splitBy p r with
           | h :: t => (c :: h) :: t
           | [] => [[c]]
           end
  end.

Definition split (sep : ascii) (x : str) : list str := splitBy (isChar sep) x.

(** [x.replace(/c/g, '')] for a character class [c]. *)
Definition removeAll (p : ascii -> bool) (x : str) : str :=
  filter (fun c => negb (p c)) x.

Fixpoint startsWith (pre x : str) : bool :=
  match pre, x with
  | [], _ => true
  | a :: pre', b :: x' => Ascii.eqb a b && startsWith pre' x'
  | _ :: _, [] => false
  end.

(** [x.includes(sub)] *)
Fixpoint includes (sub x : str) : bool :=
  startsWith sub x ||
  match x with
  | [] => false
  | _ :: r => includes sub r
  end.

(** Optional chaining on a possibly undefined string: [u?.f(...)] is
    [undefined], thus falsy, when [u] is [undefined]. *)
Definition optTest (f : str -> bool) (u : option str) : bool :=
  match u with
  | Some x => f x
  | None => false
  end.

(** ** Numbers *)

Module Num.

Local Open Scope Z_scope.

Definition number := spec_float.

Definition prec : Z := 53.
Definition emax : Z := 1024.

Definition NaN : number := S754_nan.
Definition zero : number := S754_zero false.

(** The number nearest to an integer (ties to even). *)
Definition of_Z (z : Z) : number := binary_normalize prec emax z 0 false.

Definition mul (x y : number) : number := SFmul prec emax x y.
Definition add (x y : number) : number := SFadd prec emax x y.

(** The number nearest to [(-1)^neg * m * 10^e], for the decimal literals
    read by [parseFloat]. *)
Definition of_decimal (neg : bool) (m : Z) (e : Z) : number :=
  match m with
  | Zpos p =>
      match e with
      | Zneg k => SFdiv prec emax (S754_finite neg p 0)
                    (S754_finite false (Pos.pow 10 k) 0)
      | _ => binary_normalize prec emax
               (if neg then - (m * 10 ^ e) else m * 10 ^ e) 0 false
      end
  | _ => S754_zero neg
  end.

(** [Math.round]: the nearest integer, ties towards plus infinity; the sign
    of the argument is kept when the result is zero. *)
Definition round (x : number) : number :=
  match x with
  | S754_finite sg m (Zneg k) =>
      let d := Z.pow_pos 2 k in
      let twice := if sg then - (2 * Zpos m) + d else 2 * Zpos m + d in
      binary_normalize prec emax (Z.div twice (2 * d)) 0 sg
  | _ => x
  end.

(** [base ** power] for a base and a power that are small natural numbers,
    where the result is exact. *)
Definition pow_Z (base power : Z) : number := of_Z (base ^ power).

(** The integer a number denotes, if it is one. *)
Definition to_Z (x : number) : option Z :=
  match x with
  | S754_zero _ => Some 0
  | S754_finite sg m e =>
      match e with
      | Zneg k =>
          if Z.eqb (Z.modulo (Zpos m) (Z.pow_pos 2 k)) 0
          then Some ((if sg then -1 else 1) * (Zpos m / Z.pow_pos 2 k))
          else None
      | _ => Some ((if sg then -1 else 1) * (Zpos m * 2 ^ e))
      end
  | _ => None
  end.

End Num.

(** ** Reading numbers: [parseInt] and [parseFloat] *)

Local Open Scope Z_scope.

Fixpoint takeWhile (p : ascii -> bool) (x : str) : str :=
  match x with
  | [] => []
  | c :: r => if p c then c :: takeWhile p r else []
  end.

(** The value of a digit in a radix up to 36, or 36 for another character. *)
Definition digitVal (c : ascii) : Z :=
  let n := Z.of_nat (code c) in
  if (48 <=? n) && (n <=? 57) then n - 48
  else if (97 <=? n) && (n <=? 122) then n - 87
  else if (65 <=? n) && (n <=? 90) then n - 55
  else 36.

Definition isRadixDigit (radix : Z) (c : ascii) : bool := digitVal c <? radix.

Definition radixValue (radix : Z) (ds : str) : Z :=
  fold_left (fun acc c => radix * acc + digitVal c) ds 0.

Definition decValue (ds : str) : Z := radixValue 10 ds.

Definition readSign (x : str) : bool * str :=
  match x with
  | c :: r =>
      if Ascii.eqb c "-" then (true, r)
      else if Ascii.eqb c "+" then (false, r)
      else (false, x)
  | [] => (false, [])
  end.

(** [ToString] of a possibly undefined string argument. *)
Definition toString (x : option str) : str :=
  match x with
  | Some v => v
  | None => lit "undefined"
  end.

(** [parseInt(x, radix)]; [radix] is [None] when the argument is omitted.
    The result is the number nearest to the integer that was read. *)
Definition parseInt (x : option str) (radix : option Z) : Num.number :=
  let (neg, r) := readSign (trimStart (toString x)) in
  let R := match radix with Some n => n | None => 0 end in
  if negb (R =? 0) && ((R <? 2) || (36 <? R)) then Num.NaN
  else
    let stripPrefix := (R =? 0) || (R =? 16) in
    let R := if R =? 0 then 10 else R in
    let hex := stripPrefix &&
               (startsWith (lit "0x") r || startsWith (lit "0X") r) in
    let R := if hex then 16 else R in
    let r := if hex then skipn 2 r else r in
    match takeWhile (isRadixDigit R) r with
    | [] => Num.NaN
    | ds =>
        let v := radixValue R ds in
        binary_normalize Num.prec Num.emax (if neg then - v else v) 0 neg
    end.

(** The exponent part [e[+-]digits] of a decimal literal, zero if absent. *)
Definition readExponent (x : str) : Z :=
  match x with
  | c :: r =>
      if Ascii.eqb c "e" || Ascii.eqb c "E" then
        let (neg, r') := readSign r in
        match takeWhile isDigit r' with
        | [] => 0
        | ds => if neg then - decValue ds else decValue ds
        end
      else 0
  | [] => 0
  end.

(** [parseFloat(x)]: the longest prefix that is a decimal literal. *)
Definition parseFloat (x : str) : Num.number :=
  let (neg, r) := readSign (trimStart x) in
  if startsWith (lit "Infinity") r then S754_infinity neg
  else
    let ip := takeWhile isDigit r in
    let r1 := dropWhile isDigit r in
    let '(fp, r2) :=
      match r1 with
      | c :: r' =>
          if Ascii.eqb c "." then (takeWhile isDigit r', dropWhile isDigit r')
          else ([], r1)
      | [] => ([], r1)
      end in
    match ip ++ fp with
    | [] => Num.NaN
    | ds => Num.of_decimal neg (decValue ds)
              (readExponent r2 - Z.of_nat (length fp))
    end.

Local Close Scope Z_scope.

(** ** Regular expressions *)

(** The fragment of the ECMAScript regular expressions the parser uses.
    A quantifier is applied to character classes only: [RStar g p] is [p*]
    when [g] is [true] and [p*?] when it is [false]. *)
Inductive regex : Type :=
| RChar (p : ascii -> bool)
| REmpty
| RSeq (a b : regex)
| RAlt (a b : regex)
| RStar (greedy : bool) (p : ascii -> bool)
| RGroup (i : nat) (a : regex)
| RBol
| REol.

(** A matcher state: the position in the input, the input from that
    position on, and the captures so far, the latest first. *)
Record mstate : Type :=
  { m_pos : nat; m_rest : str; m_caps : list (nat * str) }.

Definition orElse {A} (x y : option A) : option A :=
  match x with
  | Some v => Some v
  | None => y
  end.

Fixpoint starGreedy (p : ascii -> bool) (k : mstate -> option mstate)
    (pos : nat) (x : str) (caps : list (nat * str)) : option mstate :=
  match x with
  | c :: r =>
      if p c
      then orElse (starGreedy p k (S pos) r caps)
                  (k (Build_mstate pos x caps))
      else k (Build_mstate pos x caps)
  | [] => k (Build_mstate pos x caps)
  end.

Fixpoint starLazy (p : ascii -> bool) (k : mstate -> option mstate)
    (pos : nat) (x : str) (caps : list (nat * str)) : option mstate :=
  orElse (k (Build_mstate pos x caps))
    match x with
    | c :: r => if p c then starLazy p k (S pos) r caps else None
    | [] => None
    end.

Definition setCap (i : nat) (from : mstate) (st : mstate) : mstate :=
  Build_mstate (m_pos st) (m_rest st)
    ((i, firstn (m_pos st - m_pos from) (m_rest from)) :: m_caps st).

(** The backtracking matcher, in continuation-passing style: [rmatch r k st]
    is the first success, in the order of priority, of [r] from [st] followed
    by the rest of the pattern [k]. *)
Fixpoint rmatch (r : regex) (k : mstate -> option mstate) (st : mstate)
    : option mstate :=
  match r with
  | RChar p =>
      match m_rest st with
      | c :: rest =>
          if p c then k (Build_mstate (S (m_pos st)) rest (m_caps st))
          else None
      | [] => None
      end
  | REmpty => k st
  | RSeq a b => rmatch a (rmatch b k) st
  | RAlt a b => orElse (rmatch a k st) (rmatch b k st)
  | RStar true p => starGreedy p k (m_pos st) (m_rest st) (m_caps st)
  | RStar false p => starLazy p k (m_pos st) (m_rest st) (m_caps st)
  | RGroup i a => rmatch a (fun st' => k (setCap i st st')) st
  | RBol => if Nat.eqb (m_pos st) 0 then k st else None
  | REol => match m_rest st with [] => k st | _ :: _ => None end
  end.

(** The first position of the input at which the pattern matches. *)
Fixpoint searchFrom (r : regex) (pos : nat) (x : str) : option mstate :=
  orElse (rmatch r Some (Build_mstate pos x []))
    match x with
    | [] => None
    | _ :: x' => searchFrom r (S pos) x'
    end.

(** [x.match(r)] for a pattern without the [g] flag: the captures of the
    leftmost match, or [None] for [null]. *)
Definition re_match (r : regex) (x : str) : option (list (nat * str)) :=
  option_map m_caps (searchFrom r 0 x).

(** [m[i]], the text of capture group [i]. *)
Fixpoint group (i : nat) (caps : list (nat * str)) : option str :=
  match caps with
  | [] => None
  | (j, w) :: rest => if Nat.eqb i j then Some w else group i rest
  end.

Definition RConcat (rs : list regex) : regex := fold_right RSeq REmpty rs.

Definition RLit (w : string) : regex :=
  RConcat (map (fun c => RChar (isChar c)) (lit w)).

Definition RPlus (greedy : bool) (p : ascii -> bool) : regex :=
  RSeq (RChar p) (RStar greedy p).

Definition ROpt (a : regex) : regex := RAlt a REmpty.

Definition RRepeat (n : nat) (p : ascii -> bool) : regex :=
  RConcat (repeat (RChar p) n).

(** [/^(General|Video|Audio|Text|Menu)(?: #\d+)?$/] *)
Definition sectionRe : regex :=
  RConcat
    [ RBol;
      RGroup 1 (RAlt (RLit "General") (RAlt (RLit "Video")
               (RAlt (RLit "Audio") (RAlt (RLit "Text") (RLit "Menu")))));
      ROpt (RSeq (RLit " #") (RPlus true isDigit));
      REol ].

(** [/(\d{2}:\d{2}:\d{2}.\d{3})\s+:\s+.*?:(.* )/], written here with a space before the last parenthesis *)
Definition chapterRe : regex :=
  RConcat
    [ RGroup 1 (RConcat [ RRepeat 2 isDigit; RLit ":"; RRepeat 2 isDigit;
                          RLit ":"; RRepeat 2 isDigit; RChar isDot;
                          RRepeat 3 isDigit ]);
      RPlus true isSpace; RLit ":"; RPlus true isSpace;
      RStar false isDot; RLit ":";
      RGroup 2 (RStar true isDot) ].

(** [/^\s*([^:]+?)\s+:\s+(.* )$/], written here with a space before the last parenthesis *)
Definition keyValueRe : regex :=
  RConcat
    [ RBol; RStar true isSpace;
      RGroup 1 (RPlus false (notChar ":"));
      RPlus true isSpace; RLit ":"; RPlus true isSpace;
      RGroup 2 (RStar true isDot);
      REol ].

(** [/(\d+\.?\d*\s+[A-Za-z]+)/] *)
Definition sizeRe : regex :=
  RGroup 1 (RConcat [ RPlus true isDigit; ROpt (RLit "."); RStar true isDigit;
                      RPlus true isSpace; RPlus true isAlpha ]).

(** ** The data model (lines 3 to 96 of the source)

    An optional property of an interface is an [option]: [None] is a
    property that was never assigned. *)

(** A [Date] object, kept as the string it was constructed from. *)
Inductive JSDate : Type := NewDate (dateStr : str).

Module GeneralTrack.

Record t : Type := mk
  { uniqueId : option str;
    completeName : option str;
    format : option str;
    formatVersion : option str;
    fileSize : option Num.number;
    duration : option Num.number;
    overallBitRateMode : option str;
    overallBitRate : option Num.number;
    frameRate : option Num.number;
    frameCount : option Num.number;
    streamSize : option Num.number;
    encodedDate : option JSDate;
    writingApplication : option str;
    writingLibrary : option str;
    attachments : option str }.

(** The object literal [{}]. *)
Definition empty : t :=
  mk None None None None None None None None None None None None None None
  None.

(** The assignments [target.field = v]. *)
Definition set_uniqueId (v : str) (r : t) : t :=
  mk (Some v) (completeName r) (format r) (formatVersion r) (fileSize r)
  (duration r) (overallBitRateMode r) (overallBitRate r) (frameRate r)
  (frameCount r) (streamSize r) (encodedDate r) (writingApplication r)
  (writingLibrary r) (attachments r).
Definition set_completeName (v : str) (r : t) : t :=
  mk (uniqueId r) (Some v) (format r) (formatVersion r) (fileSize r)
  (duration r) (overallBitRateMode r) (overallBitRate r) (frameRate r)
  (frameCount r) (streamSize r) (encodedDate r) (writingApplication r)
  (writingLibrary r) (attachments r).
Definition set_format (v : str) (r : t) : t :=
  mk (uniqueId r) (completeName r) (Some v) (formatVersion r) (fileSize r)
  (duration r) (overallBitRateMode r) (overallBitRate r) (frameRate r)
  (frameCount r) (streamSize r) (encodedDate r) (writingApplication r)
  (writingLibrary r) (attachments r).
Definition set_formatVersion (v : str) (r : t) : t :=
  mk (uniqueId r) (completeName r) (format r) (Some v) (fileSize r)
  (duration r) (overallBitRateMode r) (overallBitRate r) (frameRate r)
  (frameCount r) (streamSize r) (encodedDate r) (writingApplication r)
  (writingLibrary r) (attachments r).
Definition set_fileSize (v : Num.number) (r : t) : t :=
  mk (uniqueId r) (completeName r) (format r) (formatVersion r) (Some v)
  (duration r) (overallBitRateMode r) (overallBitRate r) (frameRate r)
  (frameCount r) (streamSize r) (encodedDate r) (writingApplication r)
  (writingLibrary r) (attachments r).
Definition set_duration (v : Num.number) (r : t) : t :=
  mk (uniqueId r) (completeName r) (format r) (formatVersion r) (fileSize r)
  (Some v) (overallBitRateMode r) (overallBitRate r) (frameRate r)
  (frameCount r) (streamSize r) (encodedDate r) (writingApplication r)
  (writingLibrary r) (attachments r).
Definition set_overallBitRateMode (v : str) (r : t) : t :=
  mk (uniqueId r) (completeName r) (format r) (formatVersion r) (fileSize r)
  (duration r) (Some v) (overallBitRate r) (frameRate r) (frameCount r)
  (streamSize r) (encodedDate r) (writingApplication r) (writingLibrary r)
  (attachments r).
Definition set_overallBitRate (v : Num.number) (r : t) : t :=
  mk (uniqueId r) (completeName r) (format r) (formatVersion r) (fileSize r)
  (duration r) (overallBitRateMode r) (Some v) (frameRate r) (frameCount r)
  (streamSize r) (encodedDate r) (writingApplication r) (writingLibrary r)
  (attachments r).
Definition set_frameRate (v : Num.number) (r : t) : t :=
  mk (uniqueId r) (completeName r) (format r) (formatVersion r) (fileSize r)
  (duration r) (overallBitRateMode r) (overallBitRate r) (Some v)
  (frameCount r) (streamSize r) (encodedDate r) (writingApplication r)
  (writingLibrary r) (attachments r).
Definition set_frameCount (v : Num.number) (r : t) : t :=
  mk (uniqueId r) (completeName r) (format r) (formatVersion r) (fileSize r)
  (duration r) (overallBitRateMode r) (overallBitRate r) (frameRate r)
  (Some v) (streamSize r) (encodedDate r) (writingApplication r)
  (writingLibrary r) (attachments r).
Definition set_streamSize (v : Num.number) (r : t) : t :=
  mk (uniqueId r) (completeName r) (format r) (formatVersion r) (fileSize r)
  (duration r) (overallBitRateMode r) (overallBitRate r) (frameRate r)
  (frameCount r) (Some v) (encodedDate r) (writingApplication r)
  (writingLibrary r) (attachments r).
Definition set_encodedDate (v : JSDate) (r : t) : t :=
  mk (uniqueId r) (completeName r) (format r) (formatVersion r) (fileSize r)
  (duration r) (overallBitRateMode r) (overallBitRate r) (frameRate r)
  (frameCount r) (streamSize r) (Some v) (writingApplication r)
  (writingLibrary r) (attachments r).
Definition set_writingApplication (v : str) (r : t) : t :=
  mk (uniqueId r) (completeName r) (format r) (formatVersion r) (fileSize r)
  (duration r) (overallBitRateMode r) (overallBitRate r) (frameRate r)
  (frameCount r) (streamSize r) (encodedDate r) (Some v) (writingLibrary r)
  (attachments r).
Definition set_writingLibrary (v : str) (r : t) : t :=
  mk (uniqueId r) (completeName r) (format r) (formatVersion r) (fileSize r)
  (duration r) (overallBitRateMode r) (overallBitRate r) (frameRate r)
  (frameCount r) (streamSize r) (encodedDate r) (writingApplication r)
  (Some v) (attachments r).
Definition set_attachments (v : str) (r : t) : t :=
  mk (uniqueId r) (completeName r) (format r) (formatVersion r) (fileSize r)
  (duration r) (overallBitRateMode r) (overallBitRate r) (frameRate r)
  (frameCount r) (streamSize r) (encodedDate r) (writingApplication r)
  (writingLibrary r) (Some v).

End GeneralTrack.

Module VideoTrack.

Record t : Type := mk
  { id : option Num.number;
    format : option str;
    formatInfo : option str;
    formatProfile : option str;
    formatSettings : option str;
    formatSettingsCabac : option str;
    formatSettingsReferenceFrames : option str;
    codecId : option str;
    duration : option Num.number;
    bitRateMode : option str;
    bitRate : option Num.number;
    maximumBitRate : option Num.number;
    width : option Num.number;
    height : option Num.number;
    displayAspectRatio : option str;
    frameRateMode : option str;
    frameRate : option Num.number;
    colorSpace : option str;
    chromaSubsampling : option str;
    bitDepth : option Num.number;
    scanType : option str;
    bitsPerPixelFrame : option Num.number;
    streamSize : option Num.number;
    default : option bool;
    forced : option bool }.

(** The object literal [{}]. *)
Definition empty : t :=
  mk None None None None None None None None None None None None None None
  None None None None None None None None None None None.

(** The assignments [target.field = v]. *)
Definition set_id (v : Num.number) (r : t) : t :=
  mk (Some v) (format r) (formatInfo r) (formatProfile r) (formatSettings r)
  (formatSettingsCabac r) (formatSettingsReferenceFrames r) (codecId r)
  (duration r) (bitRateMode r) (bitRate r) (maximumBitRate r) (width r)
  (height r) (displayAspectRatio r) (frameRateMode r) (frameRate r)
  (colorSpace r) (chromaSubsampling r) (bitDepth r) (scanType r)
  (bitsPerPixelFrame r) (streamSize r) (default r) (forced r).
Definition set_format (v : str) (r : t) : t :=
  mk (id r) (Some v) (formatInfo r) (formatProfile r) (formatSettings r)
  (formatSettingsCabac r) (formatSettingsReferenceFrames r) (codecId r)
  (duration r) (bitRateMode r) (bitRate r) (maximumBitRate r) (width r)
  (height r) (displayAspectRatio r) (frameRateMode r) (frameRate r)
  (colorSpace r) (chromaSubsampling r) (bitDepth r) (scanType r)
  (bitsPerPixelFrame r) (streamSize r) (default r) (forced r).
Definition set_formatInfo (v : str) (r : t) : t :=
  mk (id r) (format r) (Some v) (formatProfile r) (formatSettings r)
  (formatSettingsCabac r) (formatSettingsReferenceFrames r) (codecId r)
  (duration r) (bitRateMode r) (bitRate r) (maximumBitRate r) (width r)
  (height r) (displayAspectRatio r) (frameRateMode r) (frameRate r)
  (colorSpace r) (chromaSubsampling r) (bitDepth r) (scanType r)
  (bitsPerPixelFrame r) (streamSize r) (default r) (forced r).
Definition set_formatProfile (v : str) (r : t) : t :=
  mk (id r) (format r) (formatInfo r) (Some v) (formatSettings r)
  (formatSettingsCabac r) (formatSettingsReferenceFrames r) (codecId r)
  (duration r) (bitRateMode r) (bitRate r) (maximumBitRate r) (width r)
  (height r) (displayAspectRatio r) (frameRateMode r) (frameRate r)
  (colorSpace r) (chromaSubsampling r) (bitDepth r) (scanType r)
  (bitsPerPixelFrame r) (streamSize r) (default r) (forced r).
Definition set_formatSettings (v : str) (r : t) : t :=
  mk (id r) (format r) (formatInfo r) (formatProfile r) (Some v)
  (formatSettingsCabac r) (formatSettingsReferenceFrames r) (codecId r)
  (duration r) (bitRateMode r) (bitRate r) (maximumBitRate r) (width r)
  (height r) (displayAspectRatio r) (frameRateMode r) (frameRate r)
  (colorSpace r) (chromaSubsampling r) (bitDepth r) (scanType r)
  (bitsPerPixelFrame r) (streamSize r) (default r) (forced r).
Definition set_formatSettingsCabac (v : str) (r : t) : t :=
  mk (id r) (format r) (formatInfo r) (formatProfile r) (formatSettings r)
  (Some v) (formatSettingsReferenceFrames r) (codecId r) (duration r)
  (bitRateMode r) (bitRate r) (maximumBitRate r) (width r) (height r)
  (displayAspectRatio r) (frameRateMode r) (frameRate r) (colorSpace r)
  (chromaSubsampling r) (bitDepth r) (scanType r) (bitsPerPixelFrame r)
  (streamSize r) (default r) (forced r).
Definition set_formatSettingsReferenceFrames (v : str) (r : t) : t :=
  mk (id r) (format r) (formatInfo r) (formatProfile r) (formatSettings r)
  (formatSettingsCabac r) (Some v) (codecId r) (duration r) (bitRateMode r)
  (bitRate r) (maximumBitRate r) (width r) (height r) (displayAspectRatio r)
  (frameRateMode r) (frameRate r) (colorSpace r) (chromaSubsampling r)
  (bitDepth r) (scanType r) (bitsPerPixelFrame r) (streamSize r) (default r)
  (forced r).
Definition set_codecId (v : str) (r : t) : t :=
  mk (id r) (format r) (formatInfo r) (formatProfile r) (formatSettings r)
  (formatSettingsCabac r) (formatSettingsReferenceFrames r) (Some v)
  (duration r) (bitRateMode r) (bitRate r) (maximumBitRate r) (width r)
  (height r) (displayAspectRatio r) (frameRateMode r) (frameRate r)
  (colorSpace r) (chromaSubsampling r) (bitDepth r) (scanType r)
  (bitsPerPixelFrame r) (streamSize r) (default r) (forced r).
Definition set_duration (v : Num.number) (r : t) : t :=
  mk (id r) (format r) (formatInfo r) (formatProfile r) (formatSettings r)
  (formatSettingsCabac r) (formatSettingsReferenceFrames r) (codecId r)
  (Some v) (bitRateMode r) (bitRate r) (maximumBitRate r) (width r)
  (height r) (displayAspectRatio r) (frameRateMode r) (frameRate r)
  (colorSpace r) (chromaSubsampling r) (bitDepth r) (scanType r)
  (bitsPerPixelFrame r) (streamSize r) (default r) (forced r).
Definition set_bitRateMode (v : str) (r : t) : t :=
  mk (id r) (format r) (formatInfo r) (formatProfile r) (formatSettings r)
  (formatSettingsCabac r) (formatSettingsReferenceFrames r) (codecId r)
  (duration r) (Some v) (bitRate r) (maximumBitRate r) (width r) (height r)
  (displayAspectRatio r) (frameRateMode r) (frameRate r) (colorSpace r)
  (chromaSubsampling r) (bitDepth r) (scanType r) (bitsPerPixelFrame r)
  (streamSize r) (default r) (forced r).
Definition set_bitRate (v : Num.number) (r : t) : t :=
  mk (id r) (format r) (formatInfo r) (formatProfile r) (formatSettings r)
  (formatSettingsCabac r) (formatSettingsReferenceFrames r) (codecId r)
  (duration r) (bitRateMode r) (Some v) (maximumBitRate r) (width r)
  (height r) (displayAspectRatio r) (frameRateMode r) (frameRate r)
  (colorSpace r) (chromaSubsampling r) (bitDepth r) (scanType r)
  (bitsPerPixelFrame r) (streamSize r) (default r) (forced r).
Definition set_maximumBitRate (v : Num.number) (r : t) : t :=
  mk (id r) (format r) (formatInfo r) (formatProfile r) (formatSettings r)
  (formatSettingsCabac r) (formatSettingsReferenceFrames r) (codecId r)
  (duration r) (bitRateMode r) (bitRate r) (Some v) (width r) (height r)
  (displayAspectRatio r) (frameRateMode r) (frameRate r) (colorSpace r)
  (chromaSubsampling r) (bitDepth r) (scanType r) (bitsPerPixelFrame r)
  (streamSize r) (default r) (forced r).
Definition set_width (v : Num.number) (r : t) : t :=
  mk (id r) (format r) (formatInfo r) (formatProfile r) (formatSettings r)
  (formatSettingsCabac r) (formatSettingsReferenceFrames r) (codecId r)
  (duration r) (bitRateMode r) (bitRate r) (maximumBitRate r) (Some v)
  (height r) (displayAspectRatio r) (frameRateMode r) (frameRate r)
  (colorSpace r) (chromaSubsampling r) (bitDepth r) (scanType r)
  (bitsPerPixelFrame r) (streamSize r) (default r) (forced r).
Definition set_height (v : Num.number) (r : t) : t :=
  mk (id r) (format r) (formatInfo r) (formatProfile r) (formatSettings r)
  (formatSettingsCabac r) (formatSettingsReferenceFrames r) (codecId r)
  (duration r) (bitRateMode r) (bitRate r) (maximumBitRate r) (width r)
  (Some v) (displayAspectRatio r) (frameRateMode r) (frameRate r)
  (colorSpace r) (chromaSubsampling r) (bitDepth r) (scanType r)
  (bitsPerPixelFrame r) (streamSize r) (default r) (forced r).
Definition set_displayAspectRatio (v : str) (r : t) : t :=
  mk (id r) (format r) (formatInfo r) (formatProfile r) (formatSettings r)
  (formatSettingsCabac r) (formatSettingsReferenceFrames r) (codecId r)
  (duration r) (bitRateMode r) (bitRate r) (maximumBitRate r) (width r)
  (height r) (Some v) (frameRateMode r) (frameRate r) (colorSpace r)
  (chromaSubsampling r) (bitDepth r) (scanType r) (bitsPerPixelFrame r)
  (streamSize r) (default r) (forced r).
Definition set_frameRateMode (v : str) (r : t) : t :=
  mk (id r) (format r) (formatInfo r) (formatProfile r) (formatSettings r)
  (formatSettingsCabac r) (formatSettingsReferenceFrames r) (codecId r)
  (duration r) (bitRateMode r) (bitRate r) (maximumBitRate r) (width r)
  (height r) (displayAspectRatio r) (Some v) (frameRate r) (colorSpace r)
  (chromaSubsampling r) (bitDepth r) (scanType r) (bitsPerPixelFrame r)
  (streamSize r) (default r) (forced r).
Definition set_frameRate (v : Num.number) (r : t) : t :=
  mk (id r) (format r) (formatInfo r) (formatProfile r) (formatSettings r)
  (formatSettingsCabac r) (formatSettingsReferenceFrames r) (codecId r)
  (duration r) (bitRateMode r) (bitRate r) (maximumBitRate r) (width r)
  (height r) (displayAspectRatio r) (frameRateMode r) (Some v) (colorSpace r)
  (chromaSubsampling r) (bitDepth r) (scanType r) (bitsPerPixelFrame r)
  (streamSize r) (default r) (forced r).
Definition set_colorSpace (v : str) (r : t) : t :=
  mk (id r) (format r) (formatInfo r) (formatProfile r) (formatSettings r)
  (formatSettingsCabac r) (formatSettingsReferenceFrames r) (codecId r)
  (duration r) (bitRateMode r) (bitRate r) (maximumBitRate r) (width r)
  (height r) (displayAspectRatio r) (frameRateMode r) (frameRate r) (Some v)
  (chromaSubsampling r) (bitDepth r) (scanType r) (bitsPerPixelFrame r)
  (streamSize r) (default r) (forced r).
Definition set_chromaSubsampling (v : str) (r : t) : t :=
  mk (id r) (format r) (formatInfo r) (formatProfile r) (formatSettings r)
  (formatSettingsCabac r) (formatSettingsReferenceFrames r) (codecId r)
  (duration r) (bitRateMode r) (bitRate r) (maximumBitRate r) (width r)
  (height r) (displayAspectRatio r) (frameRateMode r) (frameRate r)
  (colorSpace r) (Some v) (bitDepth r) (scanType r) (bitsPerPixelFrame r)
  (streamSize r) (default r) (forced r).
Definition set_bitDepth (v : Num.number) (r : t) : t :=
  mk (id r) (format r) (formatInfo r) (formatProfile r) (formatSettings r)
  (formatSettingsCabac r) (formatSettingsReferenceFrames r) (codecId r)
  (duration r) (bitRateMode r) (bitRate r) (maximumBitRate r) (width r)
  (height r) (displayAspectRatio r) (frameRateMode r) (frameRate r)
  (colorSpace r) (chromaSubsampling r) (Some v) (scanType r)
  (bitsPerPixelFrame r) (streamSize r) (default r) (forced r).
Definition set_scanType (v : str) (r : t) : t :=
  mk (id r) (format r) (formatInfo r) (formatProfile r) (formatSettings r)
  (formatSettingsCabac r) (formatSettingsReferenceFrames r) (codecId r)
  (duration r) (bitRateMode r) (bitRate r) (maximumBitRate r) (width r)
  (height r) (displayAspectRatio r) (frameRateMode r) (frameRate r)
  (colorSpace r) (chromaSubsampling r) (bitDepth r) (Some v)
  (bitsPerPixelFrame r) (streamSize r) (default r) (forced r).
Definition set_bitsPerPixelFrame (v : Num.number) (r : t) : t :=
  mk (id r) (format r) (formatInfo r) (formatProfile r) (formatSettings r)
  (formatSettingsCabac r) (formatSettingsReferenceFrames r) (codecId r)
  (duration r) (bitRateMode r) (bitRate r) (maximumBitRate r) (width r)
  (height r) (displayAspectRatio r) (frameRateMode r) (frameRate r)
  (colorSpace r) (chromaSubsampling r) (bitDepth r) (scanType r) (Some v)
  (streamSize r) (default r) (forced r).
Definition set_streamSize (v : Num.number) (r : t) : t :=
  mk (id r) (format r) (formatInfo r) (formatProfile r) (formatSettings r)
  (formatSettingsCabac r) (formatSettingsReferenceFrames r) (codecId r)
  (duration r) (bitRateMode r) (bitRate r) (maximumBitRate r) (width r)
  (height r) (displayAspectRatio r) (frameRateMode r) (frameRate r)
  (colorSpace r) (chromaSubsampling r) (bitDepth r) (scanType r)
  (bitsPerPixelFrame r) (Some v) (default r) (forced r).
Definition set_default (v : bool) (r : t) : t :=
  mk (id r) (format r) (formatInfo r) (formatProfile r) (formatSettings r)
  (formatSettingsCabac r) (formatSettingsReferenceFrames r) (codecId r)
  (duration r) (bitRateMode r) (bitRate r) (maximumBitRate r) (width r)
  (height r) (displayAspectRatio r) (frameRateMode r) (frameRate r)
  (colorSpace r) (chromaSubsampling r) (bitDepth r) (scanType r)
  (bitsPerPixelFrame r) (streamSize r) (Some v) (forced r).
Definition set_forced (v : bool) (r : t) : t :=
  mk (id r) (format r) (formatInfo r) (formatProfile r) (formatSettings r)
  (formatSettingsCabac r) (formatSettingsReferenceFrames r) (codecId r)
  (duration r) (bitRateMode r) (bitRate r) (maximumBitRate r) (width r)
  (height r) (displayAspectRatio r) (frameRateMode r) (frameRate r)
  (colorSpace r) (chromaSubsampling r) (bitDepth r) (scanType r)
  (bitsPerPixelFrame r) (streamSize r) (default r) (Some v).

End VideoTrack.

Module AudioTrack.

Record t : Type := mk
  { id : option Num.number;
    format : option str;
    formatSettings : option str;
    codecId : option str;
    duration : option Num.number;
    bitRateMode : option str;
    bitRate : option Num.number;
    channels : option Num.number;
    samplingRate : option Num.number;
    frameRate : option Num.number;
    bitDepth : option Num.number;
    streamSize : option Num.number;
    language : option str;
    title : option str;
    default : option bool;
    forced : option bool }.

(** The object literal [{}]. *)
Definition empty : t :=
  mk None None None None None None None None None None None None None None
  None None.

(** The assignments [target.field = v]. *)
Definition set_id (v : Num.number) (r : t) : t :=
  mk (Some v) (format r) (formatSettings r) (codecId r) (duration r)
  (bitRateMode r) (bitRate r) (channels r) (samplingRate r) (frameRate r)
  (bitDepth r) (streamSize r) (language r) (title r) (default r) (forced r).
Definition set_format (v : str) (r : t) : t :=
  mk (id r) (Some v) (formatSettings r) (codecId r) (duration r)
  (bitRateMode r) (bitRate r) (channels r) (samplingRate r) (frameRate r)
  (bitDepth r) (streamSize r) (language r) (title r) (default r) (forced r).
Definition set_formatSettings (v : str) (r : t) : t :=
  mk (id r) (format r) (Some v) (codecId r) (duration r) (bitRateMode r)
  (bitRate r) (channels r) (samplingRate r) (frameRate r) (bitDepth r)
  (streamSize r) (language r) (title r) (default r) (forced r).
Definition set_codecId (v : str) (r : t) : t :=
  mk (id r) (format r) (formatSettings r) (Some v) (duration r)
  (bitRateMode r) (bitRate r) (channels r) (samplingRate r) (frameRate r)
  (bitDepth r) (streamSize r) (language r) (title r) (default r) (forced r).
Definition set_duration (v : Num.number) (r : t) : t :=
  mk (id r) (format r) (formatSettings r) (codecId r) (Some v)
  (bitRateMode r) (bitRate r) (channels r) (samplingRate r) (frameRate r)
  (bitDepth r) (streamSize r) (language r) (title r) (default r) (forced r).
Definition set_bitRateMode (v : str) (r : t) : t :=
  mk (id r) (format r) (formatSettings r) (codecId r) (duration r) (Some v)
  (bitRate r) (channels r) (samplingRate r) (frameRate r) (bitDepth r)
  (streamSize r) (language r) (title r) (default r) (forced r).
Definition set_bitRate (v : Num.number) (r : t) : t :=
  mk (id r) (format r) (formatSettings r) (codecId r) (duration r)
  (bitRateMode r) (Some v) (channels r) (samplingRate r) (frameRate r)
  (bitDepth r) (streamSize r) (language r) (title r) (default r) (forced r).
Definition set_channels (v : Num.number) (r : t) : t :=
  mk (id r) (format r) (formatSettings r) (codecId r) (duration r)
  (bitRateMode r) (bitRate r) (Some v) (samplingRate r) (frameRate r)
  (bitDepth r) (streamSize r) (language r) (title r) (default r) (forced r).
Definition set_samplingRate (v : Num.number) (r : t) : t :=
  mk (id r) (format r) (formatSettings r) (codecId r) (duration r)
  (bitRateMode r) (bitRate r) (channels r) (Some v) (frameRate r)
  (bitDepth r) (streamSize r) (language r) (title r) (default r) (forced r).
Definition set_frameRate (v : Num.number) (r : t) : t :=
  mk (id r) (format r) (formatSettings r) (codecId r) (duration r)
  (bitRateMode r) (bitRate r) (channels r) (samplingRate r) (Some v)
  (bitDepth r) (streamSize r) (language r) (title r) (default r) (forced r).
Definition set_bitDepth (v : Num.number) (r : t) : t :=
  mk (id r) (format r) (formatSettings r) (codecId r) (duration r)
  (bitRateMode r) (bitRate r) (channels r) (samplingRate r) (frameRate r)
  (Some v) (streamSize r) (language r) (title r) (default r) (forced r).
Definition set_streamSize (v : Num.number) (r : t) : t :=
  mk (id r) (format r) (formatSettings r) (codecId r) (duration r)
  (bitRateMode r) (bitRate r) (channels r) (samplingRate r) (frameRate r)
  (bitDepth r) (Some v) (language r) (title r) (default r) (forced r).
Definition set_language (v : str) (r : t) : t :=
  mk (id r) (format r) (formatSettings r) (codecId r) (duration r)
  (bitRateMode r) (bitRate r) (channels r) (samplingRate r) (frameRate r)
  (bitDepth r) (streamSize r) (Some v) (title r) (default r) (forced r).
Definition set_title (v : str) (r : t) : t :=
  mk (id r) (format r) (formatSettings r) (codecId r) (duration r)
  (bitRateMode r) (bitRate r) (channels r) (samplingRate r) (frameRate r)
  (bitDepth r) (streamSize r) (language r) (Some v) (default r) (forced r).
Definition set_default (v : bool) (r : t) : t :=
  mk (id r) (format r) (formatSettings r) (codecId r) (duration r)
  (bitRateMode r) (bitRate r) (channels r) (samplingRate r) (frameRate r)
  (bitDepth r) (streamSize r) (language r) (title r) (Some v) (forced r).
Definition set_forced (v : bool) (r : t) : t :=
  mk (id r) (format r) (formatSettings r) (codecId r) (duration r)
  (bitRateMode r) (bitRate r) (channels r) (samplingRate r) (frameRate r)
  (bitDepth r) (streamSize r) (language r) (title r) (default r) (Some v).

End AudioTrack.

Module TextTrack.

Record t : Type := mk
  { id : option Num.number;
    format : option str;
    codecId : option str;
    codecIdInfo : option str;
    duration : option Num.number;
    bitRate : option Num.number;
    frameRate : option Num.number;
    countOfElements : option Num.number;
    compressionMode : option str;
    streamSize : option Num.number;
    language : option str;
    title : option str;
    default : option bool;
    forced : option bool }.

(** The object literal [{}]. *)
Definition empty : t :=
  mk None None None None None None None None None None None None None None.

(** The assignments [target.field = v]. *)
Definition set_id (v : Num.number) (r : t) : t :=
  mk (Some v) (format r) (codecId r) (codecIdInfo r) (duration r) (bitRate r)
  (frameRate r) (countOfElements r) (compressionMode r) (streamSize r)
  (language r) (title r) (default r) (forced r).
Definition set_format (v : str) (r : t) : t :=
  mk (id r) (Some v) (codecId r) (codecIdInfo r) (duration r) (bitRate r)
  (frameRate r) (countOfElements r) (compressionMode r) (streamSize r)
  (language r) (title r) (default r) (forced r).
Definition set_codecId (v : str) (r : t) : t :=
  mk (id r) (format r) (Some v) (codecIdInfo r) (duration r) (bitRate r)
  (frameRate r) (countOfElements r) (compressionMode r) (streamSize r)
  (language r) (title r) (default r) (forced r).
Definition set_codecIdInfo (v : str) (r : t) : t :=
  mk (id r) (format r) (codecId r) (Some v) (duration r) (bitRate r)
  (frameRate r) (countOfElements r) (compressionMode r) (streamSize r)
  (language r) (title r) (default r) (forced r).
Definition set_duration (v : Num.number) (r : t) : t :=
  mk (id r) (format r) (codecId r) (codecIdInfo r) (Some v) (bitRate r)
  (frameRate r) (countOfElements r) (compressionMode r) (streamSize r)
  (language r) (title r) (default r) (forced r).
Definition set_bitRate (v : Num.number) (r : t) : t :=
  mk (id r) (format r) (codecId r) (codecIdInfo r) (duration r) (Some v)
  (frameRate r) (countOfElements r) (compressionMode r) (streamSize r)
  (language r) (title r) (default r) (forced r).
Definition set_frameRate (v : Num.number) (r : t) : t :=
  mk (id r) (format r) (codecId r) (codecIdInfo r) (duration r) (bitRate r)
  (Some v) (countOfElements r) (compressionMode r) (streamSize r)
  (language r) (title r) (default r) (forced r).
Definition set_countOfElements (v : Num.number) (r : t) : t :=
  mk (id r) (format r) (codecId r) (codecIdInfo r) (duration r) (bitRate r)
  (frameRate r) (Some v) (compressionMode r) (streamSize r) (language r)
  (title r) (default r) (forced r).
Definition set_compressionMode (v : str) (r : t) : t :=
  mk (id r) (format r) (codecId r) (codecIdInfo r) (duration r) (bitRate r)
  (frameRate r) (countOfElements r) (Some v) (streamSize r) (language r)
  (title r) (default r) (forced r).
Definition set_streamSize (v : Num.number) (r : t) : t :=
  mk (id r) (format r) (codecId r) (codecIdInfo r) (duration r) (bitRate r)
  (frameRate r) (countOfElements r) (compressionMode r) (Some v) (language r)
  (title r) (default r) (forced r).
Definition set_language (v : str) (r : t) : t :=
  mk (id r) (format r) (codecId r) (codecIdInfo r) (duration r) (bitRate r)
  (frameRate r) (countOfElements r) (compressionMode r) (streamSize r)
  (Some v) (title r) (default r) (forced r).
Definition set_title (v : str) (r : t) : t :=
  mk (id r) (format r) (codecId r) (codecIdInfo r) (duration r) (bitRate r)
  (frameRate r) (countOfElements r) (compressionMode r) (streamSize r)
  (language r) (Some v) (default r) (forced r).
Definition set_default (v : bool) (r : t) : t :=
  mk (id r) (format r) (codecId r) (codecIdInfo r) (duration r) (bitRate r)
  (frameRate r) (countOfElements r) (compressionMode r) (streamSize r)
  (language r) (title r) (Some v) (forced r).
Definition set_forced (v : bool) (r : t) : t :=
  mk (id r) (format r) (codecId r) (codecIdInfo r) (duration r) (bitRate r)
  (frameRate r) (countOfElements r) (compressionMode r) (streamSize r)
  (language r) (title r) (default r) (Some v).

End TextTrack.

Record Chapter : Type := { timestamp : Num.number; title : str }.

Record MediaInfo : Type :=
  { general : GeneralTrack.t;
    video : list VideoTrack.t;
    audio : list AudioTrack.t;
    text : list TextTrack.t;
    menu : list Chapter }.

(** ** Helper functions for parsing values (lines 98 to 170) *)

Local Open Scope Z_scope.

(** [cases] as the table of a JavaScript object literal or of a [switch]:
    the value of the first entry whose label is [key]. *)
Fixpoint lookup {A : Type} (key : str) (cases : list (string * A))
    : option A :=
  match cases with
  | [] => None
  | (label, v) :: rest =>
      if str_eqb key (lit label) then Some v else lookup key rest
  end.

(** The own properties of the object [powers] of [parseSize]. *)
Definition powers : list (string * Z) :=
  [ ("b", 0); ("kib", 1); ("mib", 2); ("gib", 3); ("tib", 4);
    ("kb", 1); ("mb", 2); ("gb", 3); ("tb", 4) ]%string.

(** The properties every object literal inherits from [Object.prototype];
    each of them is a function or an object. *)
Definition objectPrototypeKeys : list string :=
  [ "constructor"; "__defineGetter__"; "__defineSetter__"; "hasOwnProperty";
    "__lookupGetter__"; "__lookupSetter__"; "isPrototypeOf";
    "propertyIsEnumerable"; "toString"; "valueOf"; "__proto__";
    "toLocaleString" ]%string.

(** [powers[unit] || 0]: [Some p] is the number [p]; [None] is an inherited
    property, an object, which is truthy and is not a number. An undefined
    [unit] reads the property named "undefined". *)
Definition powerOf (unit : option str) : option Z :=
  match lookup (toString unit) powers with
  | Some p => Some p
  | None =>
      if existsb (fun k => str_eqb (toString unit) (lit k))
           objectPrototypeKeys
      then None else Some 0
  end.

(** Parses a file size string (e.g. 6.10 GiB, 393 MiB) into bytes. *)
Definition parseSize (sizeStr : str) : Num.number :=
  let parts := split " " sizeStr in
  let value := parseFloat (removeAll (isChar ",") (hd [] parts)) in
  let unit := option_map toLowerCase (nth_error parts 1) in
  let power := powerOf unit in
  let multiplier := if optTest (includes (lit "ib")) unit then 1024 else 1000 in
  Num.round
    (Num.mul value
       match power with
       | Some p => Num.pow_Z multiplier p
       | None => Num.NaN
       end).

(** One iteration of the loop of [parseDuration]. *)
Definition durationStep (part : str) (unit : option str)
    (totalMs : Num.number) : Num.number :=
  let value := parseInt (Some part) (Some 10) in
  if optTest (startsWith (lit "h")) unit
  then Num.add totalMs (Num.mul value (Num.of_Z 3600000))
  else if optTest (startsWith (lit "min")) unit
  then Num.add totalMs (Num.mul value (Num.of_Z 60000))
  else if optTest (startsWith (lit "s")) unit
  then Num.add totalMs (Num.mul value (Num.of_Z 1000))
  else if optTest (startsWith (lit "ms")) unit
  then Num.add totalMs value
  else totalMs.

(** The loop [for (let i = 0; i < parts.length; i += 2)]. *)
Fixpoint durationLoop (parts : list str) (totalMs : Num.number)
    : Num.number :=
  match parts with
  | [] => totalMs
  | [part] => durationStep part None totalMs
  | part :: unit :: rest =>
      durationLoop rest (durationStep part (Some unit) totalMs)
  end.

(** Parses a duration string (e.g. 23 min 50 s) into milliseconds. *)
Definition parseDuration (durationStr : str) : Num.number :=
  durationLoop (split " " durationStr) Num.zero.

(** Parses a bitrate string (e.g. 36.6 Mb/s, 2 304 kb/s) into bits per
    second. *)
Definition parseBitRate (bitrateStr : str) : Num.number :=
  let cleanStr := toLowerCase (removeAll isSpace bitrateStr) in
  let value := parseFloat cleanStr in
  if includes (lit "mb/s") cleanStr
  then Num.round (Num.mul (Num.mul value (Num.of_Z 1000)) (Num.of_Z 1000))
  else if includes (lit "kb/s") cleanStr
  then Num.round (Num.mul value (Num.of_Z 1000))
  else Num.round value.

(** Parses a frequency string (e.g. 48.0 kHz) into Hz. *)
Definition parseFrequency (frequencyStr : str) : Num.number :=
  let value := parseFloat (removeAll isSpace frequencyStr) in
  if includes (lit "khz") (toLowerCase frequencyStr)
  then Num.round (Num.mul value (Num.of_Z 1000))
  else if includes (lit "mhz") (toLowerCase frequencyStr)
  then Num.round (Num.mul (Num.mul value (Num.of_Z 1000)) (Num.of_Z 1000))
  else Num.round value.

(** Parses a date string into a Date object. *)
Definition parseDate (dateStr : str) : JSDate := NewDate dateStr.

Local Close Scope Z_scope.

(** ** The main parser function (lines 174 to 466) *)

(** The outcome of code that can throw: a value, or the [TypeError] of a
    property access on [undefined]. *)
Inductive Exc (A : Type) : Type :=
| Ok (a : A)
| TypeError.

Arguments Ok {A} a.
Arguments TypeError {A}.

Definition bind {A B : Type} (x : Exc A) (f : A -> Exc B) : Exc B :=
  match x with
  | Ok a => f a
  | TypeError => TypeError
  end.

Notation "x <- e ;; k" := (bind e (fun x => k))
  (at level 61, e at next level, right associativity).

(** [m[i]] used as a string: a group that did not take part in the match is
    [undefined], and calling a method on it throws. *)
Definition capture (i : nat) (m : list (nat * str)) : Exc str :=
  match group i m with
  | Some w => Ok w
  | None => TypeError
  end.

(** The body of a [case]: it throws, or assigns nothing ([None]), or assigns
    to a property of [target]. *)
Definition caseBody (T : Type) : Type := Exc (option (T -> T)).

Definition assign {T : Type} (f : T -> T) : caseBody T := Ok (Some f).

(** [value.toLowerCase() === 'yes'] *)
Definition isYes (value : str) : bool := str_eqb (toLowerCase value) (lit "yes").

(** The [case 'Stream size'] of the video, audio and text sections. *)
Definition streamSizeCase {T : Type} (set : Num.number -> T -> T)
    (value : str) : caseBody T :=
  match re_match sizeRe value with
  | Some sizeMatch =>
      w <- capture 1 sizeMatch ;;
      assign (set (parseSize w))
  | None => Ok None
  end.

Definition radix10 : option Z := Some 10%Z.

Definition generalCases (value : str)
    : list (string * (GeneralTrack.t -> GeneralTrack.t)) :=
  [ ("Unique ID", GeneralTrack.set_uniqueId value);
    ("Complete name", GeneralTrack.set_completeName value);
    ("Format", GeneralTrack.set_format value);
    ("Format version", GeneralTrack.set_formatVersion value);
    ("File size", GeneralTrack.set_fileSize (parseSize value));
    ("Duration", GeneralTrack.set_duration (parseDuration value));
    ("Overall bit rate mode", GeneralTrack.set_overallBitRateMode value);
    ("Overall bit rate", GeneralTrack.set_overallBitRate (parseBitRate value));
    ("Frame rate", GeneralTrack.set_frameRate (parseFloat value));
    ("Encoded date", GeneralTrack.set_encodedDate (parseDate value));
    ("Writing application", GeneralTrack.set_writingApplication value);
    ("Writing library", GeneralTrack.set_writingLibrary value);
    ("Attachments", GeneralTrack.set_attachments value) ]%string.

Definition videoCases (value : str)
    : list (string * caseBody VideoTrack.t) :=
  [ ("ID", assign (VideoTrack.set_id (parseInt (Some value) radix10)));
    ("Format", assign (VideoTrack.set_format value));
    ("Format/Info", assign (VideoTrack.set_formatInfo value));
    ("Format profile", assign (VideoTrack.set_formatProfile value));
    ("Format settings", assign (VideoTrack.set_formatSettings value));
    ("Format settings, CABAC",
      assign (VideoTrack.set_formatSettingsCabac value));
    ("Format settings, Reference frames",
      assign (VideoTrack.set_formatSettingsReferenceFrames value));
    ("Codec ID", assign (VideoTrack.set_codecId value));
    ("Duration", assign (VideoTrack.set_duration (parseDuration value)));
    ("Bit rate mode", assign (VideoTrack.set_bitRateMode value));
    ("Bit rate", assign (VideoTrack.set_bitRate (parseBitRate value)));
    ("Maximum bit rate",
      assign (VideoTrack.set_maximumBitRate (parseBitRate value)));
    ("Width",
      assign (VideoTrack.set_width
                (parseInt (Some (removeAll isSpace value)) radix10)));
    ("Height",
      assign (VideoTrack.set_height
                (parseInt (Some (removeAll isSpace value)) radix10)));
    ("Display aspect ratio", assign (VideoTrack.set_displayAspectRatio value));
    ("Frame rate mode", assign (VideoTrack.set_frameRateMode value));
    ("Frame rate", assign (VideoTrack.set_frameRate (parseFloat value)));
    ("Color space", assign (VideoTrack.set_colorSpace value));
    ("Chroma subsampling", assign (VideoTrack.set_chromaSubsampling value));
    ("Bit depth",
      assign (VideoTrack.set_bitDepth (parseInt (Some value) radix10)));
    ("Scan type", assign (VideoTrack.set_scanType value));
    ("Bits/(Pixel*Frame)",
      assign (VideoTrack.set_bitsPerPixelFrame (parseFloat value)));
    ("Stream size", streamSizeCase VideoTrack.set_streamSize value);
    ("Default", assign (VideoTrack.set_default (isYes value)));
    ("Forced", assign (VideoTrack.set_forced (isYes value))) ]%string.

Definition audioCases (value : str)
    : list (string * caseBody AudioTrack.t) :=
  [ ("ID", assign (AudioTrack.set_id (parseInt (Some value) radix10)));
    ("Format", assign (AudioTrack.set_format value));
    ("Format settings", assign (AudioTrack.set_formatSettings value));
    ("Codec ID", assign (AudioTrack.set_codecId value));
    ("Duration", assign (AudioTrack.set_duration (parseDuration value)));
    ("Bit rate mode", assign (AudioTrack.set_bitRateMode value));
    ("Bit rate", assign (AudioTrack.set_bitRate (parseBitRate value)));
    ("Channel(s)",
      assign (AudioTrack.set_channels (parseInt (Some value) radix10)));
    ("Sampling rate",
      assign (AudioTrack.set_samplingRate (parseFrequency value)));
    ("Frame rate", assign (AudioTrack.set_frameRate (parseFloat value)));
    ("Bit depth",
      assign (AudioTrack.set_bitDepth (parseInt (Some value) radix10)));
    ("Stream size", streamSizeCase AudioTrack.set_streamSize value);
    ("Title", assign (AudioTrack.set_title value));
    ("Language", assign (AudioTrack.set_language value));
    ("Default", assign (AudioTrack.set_default (isYes value)));
    ("Forced", assign (AudioTrack.set_forced (isYes value))) ]%string.

Definition textCases (value : str)
    : list (string * caseBody TextTrack.t) :=
  [ ("ID", assign (TextTrack.set_id (parseInt (Some value) radix10)));
    ("Format", assign (TextTrack.set_format value));
    ("Codec ID", assign (TextTrack.set_codecId value));
    ("Codec ID/Info", assign (TextTrack.set_codecIdInfo value));
    ("Duration", assign (TextTrack.set_duration (parseDuration value)));
    ("Bit rate", assign (TextTrack.set_bitRate (parseBitRate value)));
    ("Frame rate", assign (TextTrack.set_frameRate (parseFloat value)));
    ("Count of elements",
      assign (TextTrack.set_countOfElements (parseInt (Some value) radix10)));
    ("Compression mode", assign (TextTrack.set_compressionMode value));
    ("Stream size", streamSizeCase TextTrack.set_streamSize value);
    ("Title", assign (TextTrack.set_title value));
    ("Language", assign (TextTrack.set_language value));
    ("Default", assign (TextTrack.set_default (isYes value)));
    ("Forced", assign (TextTrack.set_forced (isYes value))) ]%string.

(** The scan state of the loop: the record under construction and the two
    variables [currentSection] and [trackIndex]. *)
Record ParseState : Type :=
  { result : MediaInfo; currentSection : str; trackIndex : Z }.

Definition emptyResult : MediaInfo :=
  {| general := GeneralTrack.empty; video := []; audio := []; text := [];
     menu := [] |}.

Definition initialState : ParseState :=
  {| result := emptyResult; currentSection := []; trackIndex := (-1)%Z |}.

Definition set_general (g : GeneralTrack.t) (r : MediaInfo) : MediaInfo :=
  {| general := g; video := video r; audio := audio r; text := text r;
     menu := menu r |}.

Definition set_video (v : list VideoTrack.t) (r : MediaInfo) : MediaInfo :=
  {| general := general r; video := v; audio := audio r; text := text r;
     menu := menu r |}.

Definition set_audio (a : list AudioTrack.t) (r : MediaInfo) : MediaInfo :=
  {| general := general r; video := video r; audio := a; text := text r;
     menu := menu r |}.

Definition set_text (t : list TextTrack.t) (r : MediaInfo) : MediaInfo :=
  {| general := general r; video := video r; audio := audio r; text := t;
     menu := menu r |}.

Definition set_menu (m : list Chapter) (r : MediaInfo) : MediaInfo :=
  {| general := general r; video := video r; audio := audio r;
     text := text r; menu := m |}.

(** [a.push(x)] *)
Definition push {A : Type} (a : list A) (x : A) : list A := a ++ [x].

(** [a[i] = f(a[i])], the effect of assigning to a property of the object
    [a[i]]. *)
Fixpoint updateAt {A : Type} (i : nat) (f : A -> A) (a : list A) : list A :=
  match a, i with
  | [], _ => []
  | x :: rest, O => f x :: rest
  | x :: rest, S j => x :: updateAt j f rest
  end.

(** Lines 197 to 199: a new empty track for a video, audio or text header. *)
Definition pushTrack (section : str) (r : MediaInfo) : MediaInfo :=
  if str_eqb section (lit "video")
  then set_video (push (video r) VideoTrack.empty) r
  else if str_eqb section (lit "audio")
  then set_audio (push (audio r) AudioTrack.empty) r
  else if str_eqb section (lit "text")
  then set_text (push (text r) TextTrack.empty) r
  else r.

(** [result[section].length] for the three track sequences; reading
    [length] of another property of [result] is not modelled and counts as
    a throw. *)
Definition tracksLength (section : str) (r : MediaInfo) : Exc nat :=
  if str_eqb section (lit "video") then Ok (length (video r))
  else if str_eqb section (lit "audio") then Ok (length (audio r))
  else if str_eqb section (lit "text") then Ok (length (text r))
  else TypeError.

(** Lines 200 to 203. *)
Definition newTrackIndex (section : str) (r : MediaInfo) : Exc Z :=
  if str_eqb section (lit "general") || str_eqb section (lit "menu")
  then Ok (-1)%Z
  else n <- tracksLength section r ;; Ok (Z.of_nat n - 1)%Z.

(** Lines 211 to 216: the timestamp of a chapter, in milliseconds. *)
Definition chapterTimestamp (stamp : str) : Num.number :=
  let timeParts := splitBy (fun c => isChar ":" c || isChar "." c) stamp in
  Num.add
    (Num.add
       (Num.add
          (Num.mul (parseInt (nth_error timeParts 0) None) (Num.of_Z 3600000))
          (Num.mul (parseInt (nth_error timeParts 1) None) (Num.of_Z 60000)))
       (Num.mul (parseInt (nth_error timeParts 2) None) (Num.of_Z 1000)))
    (parseInt (nth_error timeParts 3) None).

(** A [switch] over the keys of a track section, applied to the track
    [tracks[trackIndex]]: assigning to a property of an undefined track
    throws. *)
Definition switchTrack {T : Type} (cases : list (string * caseBody T))
    (key : str) (tracks : list T) (index : Z) : Exc (list T) :=
  match lookup key cases with
  | None => Ok tracks
  | Some body =>
      change <- body ;;
      match change with
      | None => Ok tracks
      | Some f =>
          match nth_error tracks (Z.to_nat index) with
          | Some _ => Ok (updateAt (Z.to_nat index) f tracks)
          | None => TypeError
          end
      end
  end.

Definition withResult (st : ParseState) (r : MediaInfo) : ParseState :=
  {| result := r; currentSection := currentSection st;
     trackIndex := trackIndex st |}.

(** Lines 229 to 461: a key-value pair in the current section. *)
Definition assignKey (st : ParseState) (key value : str) : Exc ParseState :=
  let r := result st in
  let section := currentSection st in
  if str_eqb section (lit "general") then
    match lookup key (generalCases value) with
    | Some f => Ok (withResult st (set_general (f (general r)) r))
    | None => Ok st
    end
  else if str_eqb section (lit "video") && (0 <=? trackIndex st)%Z then
    v <- switchTrack (videoCases value) key (video r) (trackIndex st) ;;
    Ok (withResult st (set_video v r))
  else if str_eqb section (lit "audio") && (0 <=? trackIndex st)%Z then
    a <- switchTrack (audioCases value) key (audio r) (trackIndex st) ;;
    Ok (withResult st (set_audio a r))
  else if str_eqb section (lit "text") && (0 <=? trackIndex st)%Z then
    t <- switchTrack (textCases value) key (text r) (trackIndex st) ;;
    Ok (withResult st (set_text t r))
  else Ok st.

(** The body of the loop over the lines (lines 188 to 462). *)
Definition processLine (st : ParseState) (line : str) : Exc ParseState :=
  match trim line with
  | [] =>
      Ok {| result := result st; currentSection := [];
            trackIndex := trackIndex st |}
  | _ :: _ =>
      match re_match sectionRe line with
      | Some sectionMatch =>
          name <- capture 1 sectionMatch ;;
          let section := toLowerCase name in
          let r := pushTrack section (result st) in
          index <- newTrackIndex section r ;;
          Ok {| result := r; currentSection := section; trackIndex := index |}
      | None =>
          if str_eqb (currentSection st) (lit "menu") then
            match re_match chapterRe line with
            | Some chapterMatch =>
                stamp <- capture 1 chapterMatch ;;
                let timestamp := chapterTimestamp stamp in
                rest <- capture 2 chapterMatch ;;
                let r := result st in
                Ok (withResult st
                      (set_menu
                         (push (menu r)
                            {| timestamp := timestamp; title := trim rest |})
                         r))
            | None => Ok st
            end
          else
            match re_match keyValueRe line with
            | Some keyValueMatch =>
                k <- capture 1 keyValueMatch ;;
                v <- capture 2 keyValueMatch ;;
                assignKey st (trim k) (trim v)
            | None => Ok st
            end
      end
  end.

(** The loop [for (const line of lines)]. *)
Fixpoint forLines (lines : list str) (st : ParseState) : Exc ParseState :=
  match lines with
  | [] => Ok st
  | line :: rest => st' <- processLine st line ;; forLines rest st'
  end.

Definition parseMediaInfo (text : str) : Exc MediaInfo :=
  st <- forLines (split chr_nl text) initialState ;; Ok (result st).

(** A text given line by line: the lines joined by line feeds. *)
Fixpoint joinWith (sep : ascii) (parts : list str) : str :=
  match parts with
  | [] => []
  | [x] => x
  | x :: rest => x ++ sep :: joinWith sep rest
  end.

Definition unlines (lines : list string) : str :=
  joinWith chr_nl (map lit lines).

(** ** Definitions used to state the properties *)

(** The declarative reading of a pattern: [den r pos w after caps caps']
    holds when [r] can consume the word [w] at position [pos], with [after]
    left to read, turning the captures [caps] into [caps']. It leaves out
    the priorities between the ways to match. *)
Fixpoint den (r : regex) (pos : nat) (w after : str)
    (caps caps' : list (nat * str)) : Prop :=
  match r with
  | RChar p => (exists c, w = [c] /\ p c = true) /\ caps' = caps
  | REmpty => w = [] /\ caps' = caps
  | RSeq a b =>
      exists w1 w2 mid,
        w = w1 ++ w2 /\ den a pos w1 (w2 ++ after) caps mid
        /\ den b (length w1 + pos) w2 after mid caps'
  | RAlt a b => den a pos w after caps caps' \/ den b pos w after caps caps'
  | RStar _ p => forallb p w = true /\ caps' = caps
  | RGroup i a => exists mid, den a pos w after caps mid /\ caps' = (i, w) :: mid
  | RBol => w = [] /\ pos = 0 /\ caps' = caps
  | REol => w = [] /\ after = [] /\ caps' = caps
  end.

(** The five section names of the header pattern. *)
Definition sectionNames : list string :=
  [ "General"; "Video"; "Audio"; "Text"; "Menu" ]%string.

Fixpoint stripPrefix (pre x : str) : option str :=
  match pre, x with
  | [], _ => Some x
  | a :: pre', b :: x' => if Ascii.eqb a b then stripPrefix pre' x' else None
  | _ :: _, [] => None
  end.

(** Nothing, or an ordinal suffix: a space, a hash sign and digits. *)
Definition isOrdinalSuffix (x : str) : bool :=
  match x with
  | [] => true
  | a :: b :: d :: ds =>
      isChar " " a && isChar "#" b && forallb isDigit (d :: ds)
  | _ => false
  end.

(** A header line of the section [name]: the name, optionally followed by
    an ordinal suffix. *)
Definition isHeader (name : string) (line : str) : bool :=
  match stripPrefix (lit name) line with
  | Some rest => isOrdinalSuffix rest
  | None => false
  end.

Definition headerName (line : str) : option string :=
  find (fun name => isHeader name line) sectionNames.

(** A timestamp: two digits, a colon, two digits, a colon, two digits, a
    separator character of the class [sep], three digits. *)
Definition isStampWith (sep : ascii -> bool) (stamp : str) : bool :=
  match stamp with
  | [h1; h2; c1; m1; m2; c2; s1; s2; d; f1; f2; f3] =>
      forallb isDigit [h1; h2; m1; m2; s1; s2; f1; f2; f3]
      && isChar ":" c1 && isChar ":" c2 && sep d
  | _ => false
  end.

(** The timestamp as the chapter pattern reads it: the separator before the
    milliseconds is any character but a line terminator. *)
Definition isStamp (stamp : str) : bool := isStampWith isDot stamp.

(** A run of white space that is not empty. *)
Definition isBlanks (ws : str) : bool :=
  match ws with
  | [] => false
  | _ :: _ => forallb isSpace ws
  end.

(** A line that contains a chapter entry: somewhere in it a timestamp,
    white space, a colon, white space, and later on a further colon with no
    line terminator in between. *)
Definition chapterShapeWith (sep : ascii -> bool) (line : str) : Prop :=
  exists pre stamp ws1 ws2 mid tail,
    line = pre ++ stamp ++ ws1 ++ ":"%char :: ws2 ++ mid ++ ":"%char :: tail
    /\ isStampWith sep stamp = true
    /\ isBlanks ws1 = true /\ isBlanks ws2 = true
    /\ forallb isDot mid = true.

Definition chapterShape (line : str) : Prop := chapterShapeWith isDot line.

(** A blank line: white space only. *)
Definition isBlank (line : str) : bool := forallb isSpace line.

(** The key and the value the parser reads off a key-value line, both
    trimmed; [None] for a line that is not a key-value line. *)
Definition keyValueOf (line : str) : option (str * str) :=
  match re_match keyValueRe line with
  | Some m =>
      match group 1 m, group 2 m with
      | Some k, Some v => Some (trim k, trim v)
      | _, _ => None
      end
  | None => None
  end.

(** The chapter the parser reads off a line of the Menu section; [None] for
    a line without a chapter entry. *)
Definition chapterOf (line : str) : option Chapter :=
  match re_match chapterRe line with
  | Some m =>
      match group 1 m, group 2 m with
      | Some stamp, Some rest =>
          Some {| timestamp := chapterTimestamp stamp; title := trim rest |}
      | _, _ => None
      end
  | None => None
  end.

(** The state after the header line of the section [name]. *)
Definition enterSection (name : string) (st : ParseState) : ParseState :=
  let section := toLowerCase (lit name) in
  let r := pushTrack section (result st) in
  {| result := r; currentSection := section;
     trackIndex :=
       if str_eqb section (lit "video")
       then (Z.of_nat (length (video r)) - 1)%Z
       else if str_eqb section (lit "audio")
       then (Z.of_nat (length (audio r)) - 1)%Z
       else if str_eqb section (lit "text")
       then (Z.of_nat (length (text r)) - 1)%Z
       else (-1)%Z |}.

Definition addChapter (ch : Chapter) (st : ParseState) : ParseState :=
  withResult st (set_menu (push (menu (result st)) ch) (result st)).

(** The track index is within the track sequence whenever it is used. *)
Definition validIndex {T : Type} (tracks : list T) (index : Z) : Prop :=
  (0 <= index)%Z -> Z.to_nat index < length tracks.

(** The track index is that of the last track of the sequence, which has
    a track. *)
Definition lastIndex {T : Type} (tracks : list T) (index : Z) : Prop :=
  index = (Z.of_nat (length tracks) - 1)%Z /\ (0 <= index)%Z.

(** The invariant of the loop: in a track section, the track index is that
    of the last track of the section, the one started by the latest header
    line. *)
Definition Inv (st : ParseState) : Prop :=
  (currentSection st = lit "video"
   -> lastIndex (video (result st)) (trackIndex st))
  /\ (currentSection st = lit "audio"
      -> lastIndex (audio (result st)) (trackIndex st))
  /\ (currentSection st = lit "text"
      -> lastIndex (text (result st)) (trackIndex st)).

(** No [case] of the table throws. *)
Definition neverThrows {T} (cases : list (string * caseBody T)) : Prop :=
  Forall (fun body => exists change, body = Ok change) (map snd cases).

(** What a key-value pair can do to the record: nothing, or one assignment
    to the general record, or one to the track at the track index. *)
Definition keyEffect (st : ParseState) (key value : str) (r' : MediaInfo)
    : Prop :=
  let r := result st in
  let i := Z.to_nat (trackIndex st) in
  r' = r
  \/ (exists f, currentSection st = lit "general"
        /\ lookup key (generalCases value) = Some f
        /\ r' = set_general (f (general r)) r)
  \/ (exists f, currentSection st = lit "video"
        /\ lookup key (videoCases value) = Some (Ok (Some f))
        /\ r' = set_video (updateAt i f (video r)) r)
  \/ (exists f, currentSection st = lit "audio"
        /\ lookup key (audioCases value) = Some (Ok (Some f))
        /\ r' = set_audio (updateAt i f (audio r)) r)
  \/ (exists f, currentSection st = lit "text"
        /\ lookup key (textCases value) = Some (Ok (Some f))
        /\ r' = set_text (updateAt i f (text r)) r).

(** Two records with as many tracks of each kind and the same chapters. *)
Definition sameShape (r r' : MediaInfo) : Prop :=
  length (video r') = length (video r)
  /\ length (audio r') = length (audio r)
  /\ length (text r') = length (text r)
  /\ menu r' = menu r.

(** The sample report of the end-to-end scenario: a General section and a
    Video section, in the layout of the README. *)
Definition sampleText : str :=
  unlines
    [ "";
      "General";
      "Complete name                            : /path/to/video.mp4";
      "File size                                : 1.50 GiB";
      "Duration                                 : 1 h 45 min 30 s";
      "";
      "Video";
      "Width                                    : 1 920 pixels";
      "Height                                   : 1 080 pixels";
      "Frame rate                               : 23.976 FPS";
      "" ]%string.

(** One for a header line of the section [name], zero for another line. *)
Definition headerCount (name : string) (line : str) : nat :=
  if isHeader name line then 1 else 0.

(** The number of header lines of the section [name] among [lines]. *)
Definition countHeaders (name : string) (lines : list str) : nat :=
  length (filter (isHeader name) lines).

(** Every track of [early] but the last one is a track of [later], at the
    same index. *)
Definition frozen {T : Type} (early later : list T) : Prop :=
  forall i, S i < length early -> nth_error later i = nth_error early i.

(** The keys a section has a [case] for; none for the Menu section and
    outside every section. *)
Definition vocabulary (section : str) : list string :=
  if str_eqb section (lit "general") then map fst (generalCases [])
  else if str_eqb section (lit "video") then map fst (videoCases [])
  else if str_eqb section (lit "audio") then map fst (audioCases [])
  else if str_eqb section (lit "text") then map fst (textCases [])
  else [].

Definition knownKey (section key : str) : bool :=
  existsb (fun label => str_eqb key (lit label)) (vocabulary section).

(** The section in effect after the lines [lines]. *)
Definition sectionAfter (lines : list str) : str :=
  match forLines lines initialState with
  | Ok st => currentSection st
  | TypeError => []
  end.

(** The value of a normalized field: a number, a date or a boolean. *)
Inductive fieldValue : Type :=
| VNumber (n : Num.number)
| VDate (d : JSDate)
| VBool (b : bool).

(** An entry of a table of normalized fields: the key, the normalizer
    applied to the value string, and the field that receives the result. *)
Definition normalized (T : Type) : Type :=
  (string * (str -> fieldValue) * (T -> option fieldValue))%type.

Definition numberField {T : Type} (key : string) (f : str -> Num.number)
    (get : T -> option Num.number) : normalized T :=
  (key, fun value => VNumber (f value), fun t => option_map VNumber (get t)).

Definition boolField {T : Type} (key : string) (f : str -> bool)
    (get : T -> option bool) : normalized T :=
  (key, fun value => VBool (f value), fun t => option_map VBool (get t)).

Definition parseInt10 (value : str) : Num.number :=
  parseInt (Some value) radix10.

Definition parseIntNoSpace (value : str) : Num.number :=
  parseInt (Some (removeAll isSpace value)) radix10.

(** The normalized fields of the four sections, Stream size apart. *)
Definition generalNormalized : list (normalized GeneralTrack.t) :=
  [ numberField "File size" parseSize GeneralTrack.fileSize;
    numberField "Duration" parseDuration GeneralTrack.duration;
    numberField "Overall bit rate" parseBitRate GeneralTrack.overallBitRate;
    numberField "Frame rate" parseFloat GeneralTrack.frameRate;
    ("Encoded date"%string, fun value => VDate (parseDate value),
      fun g => option_map VDate (GeneralTrack.encodedDate g)) ].

Definition videoNormalized : list (normalized VideoTrack.t) :=
  [ numberField "ID" parseInt10 VideoTrack.id;
    numberField "Duration" parseDuration VideoTrack.duration;
    numberField "Bit rate" parseBitRate VideoTrack.bitRate;
    numberField "Maximum bit rate" parseBitRate VideoTrack.maximumBitRate;
    numberField "Width" parseIntNoSpace VideoTrack.width;
    numberField "Height" parseIntNoSpace VideoTrack.height;
    numberField "Frame rate" parseFloat VideoTrack.frameRate;
    numberField "Bit depth" parseInt10 VideoTrack.bitDepth;
    numberField "Bits/(Pixel*Frame)" parseFloat VideoTrack.bitsPerPixelFrame;
    boolField "Default" isYes VideoTrack.default;
    boolField "Forced" isYes VideoTrack.forced ].

Definition audioNormalized : list (normalized AudioTrack.t) :=
  [ numberField "ID" parseInt10 AudioTrack.id;
    numberField "Duration" parseDuration AudioTrack.duration;
    numberField "Bit rate" parseBitRate AudioTrack.bitRate;
    numberField "Channel(s)" parseInt10 AudioTrack.channels;
    numberField "Sampling rate" parseFrequency AudioTrack.samplingRate;
    numberField "Frame rate" parseFloat AudioTrack.frameRate;
    numberField "Bit depth" parseInt10 AudioTrack.bitDepth;
    boolField "Default" isYes AudioTrack.default;
    boolField "Forced" isYes AudioTrack.forced ].

Definition textNormalized : list (normalized TextTrack.t) :=
  [ numberField "ID" parseInt10 TextTrack.id;
    numberField "Duration" parseDuration TextTrack.duration;
    numberField "Bit rate" parseBitRate TextTrack.bitRate;
    numberField "Frame rate" parseFloat TextTrack.frameRate;
    numberField "Count of elements" parseInt10 TextTrack.countOfElements;
    boolField "Default" isYes TextTrack.default;
    boolField "Forced" isYes TextTrack.forced ].

(** The part of a Stream size value that is read as a size: the first
    number followed by white space and letters, if there is one. *)
Definition sizePart (value : str) : option str :=
  match re_match sizeRe value with
  | Some m => group 1 m
  | None => None
  end.

(** The track at the track index, the target of the assignments. *)
Definition target {T : Type} (tracks : list T) (st : ParseState) : option T :=
  nth_error tracks (Z.to_nat (trackIndex st)).

(** Every entry of the table is a [case] that assigns the normalized value,
    whatever the value string. *)
Definition assignsNormalized {T : Type}
    (cases : str -> list (string * caseBody T))
    (table : list (normalized T)) : Prop :=
  Forall (fun entry : normalized T =>
            let '(key, norm, get) := entry in
            forall value, exists f,
              lookup (lit key) (cases value) = Some (assign f)
              /\ forall t, get (f t) = Some (norm value))
         table.

(** What a pair of a value and a unit token adds to a duration, per the
    unit: hours, minutes, seconds, milliseconds; [None] for a unit token
    that matches none of them. *)
Definition contribution (value : Num.number) (unit : str)
    : option Num.number :=
  if startsWith (lit "h") unit
  then Some (Num.mul value (Num.of_Z 3600000))
  else if startsWith (lit "min") unit
  then Some (Num.mul value (Num.of_Z 60000))
  else if startsWith (lit "s") unit
  then Some (Num.mul value (Num.of_Z 1000))
  else if startsWith (lit "ms") unit
  then Some value
  else None.

(** The sum of the contributions of the pairs, from left to right; the
    integer of a pair is the number its decimal digits denote. *)
Definition durationSum (pairs : list (str * str)) : Num.number :=
  fold_left
    (fun total pair =>
       match contribution (Num.of_Z (decValue (fst pair))) (snd pair) with
       | Some c => Num.add total c
       | None => total
       end)
    pairs Num.zero.

(** A decimal integer: digits, at least one. *)
Definition isNumeral (x : str) : bool :=
  match x with
  | [] => false
  | _ :: _ => forallb isDigit x
  end.

(** A token: no space in it. *)
Definition isToken (x : str) : bool := forallb (notChar " ") x.

(** A well-formed duration: pairs of an integer and a unit token. *)
Definition isDurationPair (pair : str * str) : bool :=
  isNumeral (fst pair) && isToken (snd pair).

(** The duration string of the pairs: all the tokens, separated by one
    space. *)
Definition durationString (pairs : list (str * str)) : str :=
  joinWith " " (flat_map (fun pair => [fst pair; snd pair]) pairs).

(** The power of a unit in the unit table, whatever the case of its
    letters; [None] for a unit that is not in the table. *)
Definition unitPower (unit : str) : option Z :=
  lookup (toLowerCase unit) powers.

(** A binary-prefixed unit: it has the letter i. *)
Definition isBinaryUnit (unit : str) : bool :=
  existsb (isChar "i") (toLowerCase unit).

(** A unit that, in lower case, is the name of a property that the object
    [powers] inherits. *)
Definition isInheritedName (unit : str) : bool :=
  existsb (fun k => str_eqb (toLowerCase unit) (lit k)) objectPrototypeKeys.

(** The size the specification gives for a number [n], as a string, and a
    unit: the rounded product of the number and of 1024 or 1000 to the power
    of the unit, power 0 for a unit that is not in the table. *)
Definition sizeInBytes (n unit : str) : Num.number :=
  let value := parseFloat (removeAll (isChar ",") n) in
  let multiplier := if isBinaryUnit unit then 1024%Z else 1000%Z in
  let power := match unitPower unit with Some p => p | None => 0%Z end in
  Num.round (Num.mul value (Num.pow_Z multiplier power)).

(** The milliseconds of a timestamp HH:MM:SS.mmm, by the formula of the
    specification: hours times 3600000 plus minutes times 60000 plus
    seconds times 1000 plus milliseconds, in JavaScript numbers. *)
Definition stampMillis (stamp : str) : Num.number :=
  let hours := Num.of_Z (decValue (firstn 2 stamp)) in
  let minutes := Num.of_Z (decValue (firstn 2 (skipn 3 stamp))) in
  let seconds := Num.of_Z (decValue (firstn 2 (skipn 6 stamp))) in
  let milliseconds := Num.of_Z (decValue (firstn 3 (skipn 9 stamp))) in
  Num.add
    (Num.add
       (Num.add (Num.mul hours (Num.of_Z 3600000))
                (Num.mul minutes (Num.of_Z 60000)))
       (Num.mul seconds (Num.of_Z 1000)))
    milliseconds.

(** The text after the last colon of a line. *)
Definition afterLastColon (line : str) : str :=
  rev (takeWhile (notChar ":") (rev line)).

(** The part of a line before its first colon, and the part after it. *)
Definition beforeColon (line : str) : str := takeWhile (notChar ":") line.

Definition afterColon (line : str) : str := tl (dropWhile (notChar ":") line).

(** The lines the key-value pattern accepts, tested directly: the line has
    a colon; before the first colon come at least two characters, the last
    one white space; after it comes white space, with no line terminator
    after that white space. *)
Definition isKeyValueLine (line : str) : bool :=
  existsb (isChar ":") line
  && (2 <=? length (beforeColon line))
  && isSpace (last (beforeColon line) "x"%char)
  && match afterColon line with
     | c :: _ => isSpace c
     | [] => false
     end
  && forallb isDot (dropWhile isSpace (afterColon line)).

(** Two tables of cases such that, for the key [key], the second assigns
    and overwrites whatever the first assigns, or neither has a case. *)
Definition overwrites {T : Type} (c1 c2 : list (string * caseBody T))
    (key : str) : Prop :=
  (lookup key c1 = None /\ lookup key c2 = None)
  \/ exists o1 f2,
       lookup key c1 = Some (Ok o1) /\ lookup key c2 = Some (Ok (Some f2))
       /\ forall f1 t, o1 = Some f1 -> f2 (f1 t) = f2 t.


(** The decimal literal with the integer digits [ip] and the fraction
    digits [fp]; the point is written when there is a fraction. *)
Definition decimalLiteral (ip fp : str) : str :=
  match fp with
  | [] => ip
  | _ :: _ => ip ++ "."%char :: fp
  end.

(** The number nearest to that literal. *)
Definition decimalNumber (ip fp : str) : Num.number :=
  Num.of_decimal false (decValue (ip ++ fp)) (- Z.of_nat (length fp)).

(** What follows a decimal literal does not continue it: it starts with
    no digit, no point and no exponent mark. *)
Definition endsLiteral (rest : str) : bool :=
  match rest with
  | [] => true
  | c :: _ =>
      negb (isDigit c || isChar "." c || isChar "e" c || isChar "E" c)
  end.

(** A pair of tokens of a duration string. *)
Definition isTokenPair (pair : str * str) : bool :=
  isToken (fst pair) && isToken (snd pair).

(** A unit token that [parseDuration] recognizes. *)
Definition isDurationUnit (unit : str) : bool :=
  startsWith (lit "h") unit || startsWith (lit "min") unit
  || startsWith (lit "s") unit || startsWith (lit "ms") unit.

(** An entry of a table of fields that keep the value string as it is: the
    key and the field. *)
Definition verbatim (T : Type) : Type := (string * (T -> option str))%type.

Definition generalVerbatim : list (verbatim GeneralTrack.t) :=
  [ ("Unique ID", GeneralTrack.uniqueId);
    ("Complete name", GeneralTrack.completeName);
    ("Format", GeneralTrack.format);
    ("Format version", GeneralTrack.formatVersion);
    ("Overall bit rate mode", GeneralTrack.overallBitRateMode);
    ("Writing application", GeneralTrack.writingApplication);
    ("Writing library", GeneralTrack.writingLibrary);
    ("Attachments", GeneralTrack.attachments) ]%string.

Definition videoVerbatim : list (verbatim VideoTrack.t) :=
  [ ("Format", VideoTrack.format);
    ("Format/Info", VideoTrack.formatInfo);
    ("Format profile", VideoTrack.formatProfile);
    ("Format settings", VideoTrack.formatSettings);
    ("Format settings, CABAC", VideoTrack.formatSettingsCabac);
    ("Format settings, Reference frames",
      VideoTrack.formatSettingsReferenceFrames);
    ("Codec ID", VideoTrack.codecId);
    ("Bit rate mode", VideoTrack.bitRateMode);
    ("Display aspect ratio", VideoTrack.displayAspectRatio);
    ("Frame rate mode", VideoTrack.frameRateMode);
    ("Color space", VideoTrack.colorSpace);
    ("Chroma subsampling", VideoTrack.chromaSubsampling);
    ("Scan type", VideoTrack.scanType) ]%string.

Definition audioVerbatim : list (verbatim AudioTrack.t) :=
  [ ("Format", AudioTrack.format);
    ("Format settings", AudioTrack.formatSettings);
    ("Codec ID", AudioTrack.codecId);
    ("Bit rate mode", AudioTrack.bitRateMode);
    ("Title", AudioTrack.title);
    ("Language", AudioTrack.language) ]%string.

Definition textVerbatim : list (verbatim TextTrack.t) :=
  [ ("Format", TextTrack.format);
    ("Codec ID", TextTrack.codecId);
    ("Codec ID/Info", TextTrack.codecIdInfo);
    ("Compression mode", TextTrack.compressionMode);
    ("Title", TextTrack.title);
    ("Language", TextTrack.language) ]%string.

(** Every entry of the table is a [case] that assigns the value string. *)
Definition assignsVerbatim {T : Type}
    (cases : str -> list (string * caseBody T))
    (table : list (verbatim T)) : Prop :=
  Forall (fun entry : verbatim T =>
            let '(key, get) := entry in
            forall value, exists f,
              lookup (lit key) (cases value) = Some (assign f)
              /\ forall t, get (f t) = Some value)
         table.
(** ** The matcher and the declarative reading of patterns *)

Lemma orElse_Some {A} (x y : option A) (v : A) :
  orElse x y = Some v -> x = Some v \/ (x = None /\ y = Some v).
Proof. destruct x; simpl; intros H; [left | right]; auto. Qed.

Lemma orElse_None {A} (x y : option A) :
  orElse x y = None <-> x = None /\ y = None.
Proof. destruct x; simpl; split; intros; intuition congruence. Qed.

Lemma starGreedy_sound p k x : forall pos caps m,
  starGreedy p k pos x caps = Some m ->
  exists w after,
    x = w ++ after /\ forallb p w = true
    /\ k (Build_mstate (length w + pos) after caps) = Some m.
Proof.
  induction x as [|c x IH]; simpl; intros pos caps m H.
  - exists [], []. auto.
  - destruct (p c) eqn:Hc.
    + apply orElse_Some in H. destruct H as [H | [_ H]].
      * apply IH in H. destruct H as (w & after & -> & Hw & Hk).
        exists (c :: w), after. simpl. rewrite Hc, Hw.
        rewrite Nat.add_succ_r in Hk. auto.
      * exists [], (c :: x). auto.
    + exists [], (c :: x). auto.
Qed.

Lemma starLazy_sound p k x : forall pos caps m,
  starLazy p k pos x caps = Some m ->
  exists w after,
    x = w ++ after /\ forallb p w = true
    /\ k (Build_mstate (length w + pos) after caps) = Some m.
Proof.
  induction x as [|c x IH]; simpl; intros pos caps m H;
    apply orElse_Some in H.
  - destruct H as [H | [_ H]]; [|discriminate]. exists [], []. auto.
  - destruct H as [H | [_ H]].
    + exists [], (c :: x). auto.
    + destruct (p c) eqn:Hc; [|discriminate].
      apply IH in H. destruct H as (w & after & -> & Hw & Hk).
      exists (c :: w), after. simpl. rewrite Hc, Hw.
      rewrite Nat.add_succ_r in Hk. auto.
Qed.

(** Whatever the matcher finds is a match in the declarative reading. *)
Lemma rmatch_sound r : forall k st m,
  rmatch r k st = Some m ->
  exists w after caps',
    m_rest st = w ++ after
    /\ den r (m_pos st) w after (m_caps st) caps'
    /\ k (Build_mstate (length w + m_pos st) after caps') = Some m.
Proof.
  induction r as [p| |a IHa b IHb|a IHa b IHb|g p|i a IHa| |];
    simpl; intros k st m H.
  - destruct (m_rest st) as [|c rest] eqn:E; [discriminate|].
    destruct (p c) eqn:Hc; [|discriminate].
    exists [c], rest, (m_caps st). simpl. eauto 10.
  - exists [], (m_rest st), (m_caps st). destruct st; simpl in *. auto.
  - apply IHa in H. destruct H as (w1 & after1 & c1 & E1 & D1 & H).
    apply IHb in H. simpl in H.
    destruct H as (w2 & after & c2 & E2 & D2 & H).
    exists (w1 ++ w2), after, c2. subst after1.
    rewrite <- app_assoc, length_app.
    split; [exact E1|]. split.
    + exists w1, w2, c1. auto.
    + rewrite <- H. do 2 f_equal. lia.
  - apply orElse_Some in H. destruct H as [H | [_ H]];
      [apply IHa in H | apply IHb in H];
      destruct H as (w & after & c & E & D & H);
      exists w, after, c; auto.
  - destruct g;
      [apply starGreedy_sound in H | apply starLazy_sound in H];
      destruct H as (w & after & E & Hw & H);
      exists w, after, (m_caps st); auto.
  - apply IHa in H. destruct H as (w & after & c & E & D & H).
    exists w, after, ((i, w) :: c). split; [exact E|]. split.
    + exists c. auto.
    + rewrite <- H. unfold setCap. simpl. rewrite E.
      replace (length w + m_pos st - m_pos st) with (length w + 0) by lia.
      rewrite firstn_app_2. simpl. rewrite app_nil_r. reflexivity.
  - destruct (Nat.eqb (m_pos st) 0) eqn:E; [|discriminate].
    apply Nat.eqb_eq in E.
    exists [], (m_rest st), (m_caps st). destruct st; simpl in *. auto.
  - destruct (m_rest st) eqn:E; [|discriminate].
    exists [], [], (m_caps st). destruct st; simpl in *. subst. auto.
Qed.

Lemma starGreedy_complete p k w : forall after pos caps m,
  forallb p w = true ->
  k (Build_mstate (length w + pos) after caps) = Some m ->
  exists m', starGreedy p k pos (w ++ after) caps = Some m'.
Proof.
  induction w as [|c w IH]; simpl; intros after pos caps m Hw Hk.
  - destruct after as [|c r]; simpl; [eauto|].
    destruct (p c); [|eauto].
    destruct (starGreedy p k (S pos) r caps); simpl; eauto.
  - apply andb_true_iff in Hw. destruct Hw as [Hc Hw]. rewrite Hc.
    rewrite <- Nat.add_succ_r in Hk.
    destruct (IH _ _ _ _ Hw Hk) as [m' ->]. simpl. eauto.
Qed.

Lemma starLazy_complete p k w : forall after pos caps m,
  forallb p w = true ->
  k (Build_mstate (length w + pos) after caps) = Some m ->
  exists m', starLazy p k pos (w ++ after) caps = Some m'.
Proof.
  induction w as [|c w IH]; simpl; intros after pos caps m Hw Hk.
  - destruct after; simpl; rewrite Hk; simpl; eauto.
  - apply andb_true_iff in Hw. destruct Hw as [Hc Hw]. rewrite Hc.
    rewrite <- Nat.add_succ_r in Hk.
    destruct (IH _ _ _ _ Hw Hk) as [m' ->].
    destruct (k (Build_mstate pos (c :: w ++ after) caps)); simpl; eauto.
Qed.

(** Whenever there is a match in the declarative reading, the matcher finds
    one (possibly another one, of higher priority). *)
Lemma rmatch_complete r : forall k pos w after caps caps' m,
  den r pos w after caps caps' ->
  k (Build_mstate (length w + pos) after caps') = Some m ->
  exists m', rmatch r k (Build_mstate pos (w ++ after) caps) = Some m'.
Proof.
  induction r as [p| |a IHa b IHb|a IHa b IHb|g p|i a IHa| |];
    simpl; intros k pos w after caps caps' m D Hk.
  - destruct D as [(c & -> & Hc) ->]. simpl. rewrite Hc. eauto.
  - destruct D as [-> ->]. eauto.
  - destruct D as (w1 & w2 & mid & -> & Da & Db).
    rewrite length_app in Hk.
    replace (length w1 + length w2 + pos)
      with (length w2 + (length w1 + pos)) in Hk by lia.
    destruct (IHb _ _ _ _ _ _ _ Db Hk) as [m1 H1].
    rewrite <- app_assoc. eapply IHa; eauto.
  - destruct D as [D | D].
    + destruct (IHa _ _ _ _ _ _ _ D Hk) as [m' ->]. simpl. eauto.
    + destruct (IHb _ _ _ _ _ _ _ D Hk) as [m' H'].
      destruct (rmatch a k _); simpl; eauto.
  - destruct D as [Hw ->].
    destruct g; [eapply starGreedy_complete | eapply starLazy_complete];
      eauto.
  - destruct D as (mid & D & ->).
    eapply IHa; [exact D|]. unfold setCap. simpl.
    replace (length w + pos - pos) with (length w + 0) by lia.
    rewrite firstn_app_2. simpl. rewrite app_nil_r. exact Hk.
  - destruct D as (-> & -> & ->). simpl. eauto.
  - destruct D as (-> & -> & ->). simpl. eauto.
Qed.

Lemma searchFrom_sound r x : forall pos m,
  searchFrom r pos x = Some m ->
  exists pre w after,
    x = pre ++ w ++ after
    /\ den r (length pre + pos) w after [] (m_caps m).
Proof.
  induction x as [|c x IH]; simpl; intros pos m H;
    apply orElse_Some in H.
  - destruct H as [H | [_ H]]; [|discriminate].
    apply rmatch_sound in H. simpl in H.
    destruct H as (w & after & caps' & E & D & H).
    injection H as <-. exists [], w, after. auto.
  - destruct H as [H | [_ H]].
    + apply rmatch_sound in H. simpl in H.
      destruct H as (w & after & caps' & E & D & H).
      injection H as <-. exists [], w, after. auto.
    + apply IH in H. destruct H as (pre & w & after & -> & D).
      exists (c :: pre), w, after. simpl.
      rewrite Nat.add_succ_r in D. auto.
Qed.

Lemma searchFrom_complete r pre : forall pos w after caps',
  den r (length pre + pos) w after [] caps' ->
  exists m, searchFrom r pos (pre ++ w ++ after) = Some m.
Proof.
  induction pre as [|c pre IH]; simpl; intros pos w after caps' D.
  - destruct (rmatch_complete r Some _ _ _ _ _ _ D eq_refl) as [m' H'].
    destruct (w ++ after); simpl; rewrite H'; simpl; eauto.
  - rewrite <- Nat.add_succ_r in D.
    destruct (IH _ _ _ _ D) as [m H]. rewrite H.
    destruct (rmatch r Some _); simpl; eauto.
Qed.

(** [x.match(r)] is not [null] exactly when some part of [x] matches. *)
Lemma re_match_sound r x caps :
  re_match r x = Some caps ->
  exists pre w after,
    x = pre ++ w ++ after /\ den r (length pre) w after [] caps.
Proof.
  unfold re_match. destruct (searchFrom r 0 x) as [m|] eqn:H; [|discriminate].
  simpl. intros [= <-]. apply searchFrom_sound in H.
  destruct H as (pre & w & after & E & D).
  rewrite Nat.add_0_r in D. eauto.
Qed.

Lemma re_match_complete r pre w after caps :
  den r (length pre) w after [] caps ->
  exists caps', re_match r (pre ++ w ++ after) = Some caps'.
Proof.
  intros D. unfold re_match.
  rewrite <- (Nat.add_0_r (length pre)) in D.
  destruct (searchFrom_complete _ _ _ _ _ _ D) as [m ->]. simpl. eauto.
Qed.

Lemma den_concat_nil pos w after c c' :
  den (RConcat []) pos w after c c' <-> w = [] /\ c' = c.
Proof. reflexivity. Qed.

Lemma den_concat_cons a rs pos w after c c' :
  den (RConcat (a :: rs)) pos w after c c' <->
  exists w1 w2 mid,
    w = w1 ++ w2 /\ den a pos w1 (w2 ++ after) c mid
    /\ den (RConcat rs) (length w1 + pos) w2 after mid c'.
Proof. reflexivity. Qed.

Lemma isChar_true x c : isChar x c = true <-> c = x.
Proof. unfold isChar. apply Ascii.eqb_eq. Qed.

Lemma den_chars l : forall pos w after c c',
  den (RConcat (map (fun x => RChar (isChar x)) l)) pos w after c c'
  <-> w = l /\ c' = c.
Proof.
  induction l as [|x l IH]; intros pos w after c c'.
  - reflexivity.
  - simpl map. rewrite den_concat_cons. split.
    + intros (w1 & w2 & mid & -> & [(y & -> & Hy) ->] & D).
      apply IH in D. destruct D as [-> ->].
      apply isChar_true in Hy. subst y. auto.
    + intros [-> ->]. exists [x], l, c. repeat split.
      * exists x. split; [reflexivity | apply isChar_true; reflexivity].
      * apply IH. auto.
Qed.

Lemma den_lit s pos w after c c' :
  den (RLit s) pos w after c c' <-> w = lit s /\ c' = c.
Proof. apply den_chars. Qed.

Lemma den_plus g p pos w after c c' :
  den (RPlus g p) pos w after c c' <->
  w <> [] /\ forallb p w = true /\ c' = c.
Proof.
  unfold RPlus. simpl. split.
  - intros (w1 & w2 & mid & -> & [(y & -> & Hy) ->] & Hw & ->).
    simpl. rewrite Hy, Hw. repeat split. discriminate.
  - intros (Hne & Hw & ->). destruct w as [|y w]; [congruence|].
    simpl in Hw. apply andb_true_iff in Hw. destruct Hw as [Hy Hw].
    exists [y], w, c. repeat split; eauto.
Qed.

Lemma den_opt a pos w after c c' :
  den (ROpt a) pos w after c c' <->
  den a pos w after c c' \/ (w = [] /\ c' = c).
Proof. reflexivity. Qed.

Lemma den_repeat p n : forall pos w after c c',
  den (RRepeat n p) pos w after c c' <->
  length w = n /\ forallb p w = true /\ c' = c.
Proof.
  unfold RRepeat. induction n as [|n IH]; intros pos w after c c'.
  - simpl. split.
    + intros [-> ->]. auto.
    + intros (Hl & _ & ->). destruct w; [auto | discriminate].
  - simpl repeat. rewrite den_concat_cons. split.
    + intros (w1 & w2 & mid & -> & [(y & -> & Hy) ->] & D).
      apply IH in D. destruct D as (Hl & Hw & ->).
      simpl. rewrite Hy, Hw, Hl. auto.
    + intros (Hl & Hw & ->). destruct w as [|y w]; [discriminate|].
      simpl in Hl, Hw. apply andb_true_iff in Hw. destruct Hw as [Hy Hw].
      exists [y], w, c. repeat split; eauto.
      apply IH. repeat split; auto.
Qed.
Lemma den_alt a b pos w after c c' :
  den (RAlt a b) pos w after c c' <->
  den a pos w after c c' \/ den b pos w after c c'.
Proof. reflexivity. Qed.

Lemma stripPrefix_Some pre : forall x r,
  stripPrefix pre x = Some r -> x = pre ++ r.
Proof.
  induction pre as [|a pre IH]; simpl; intros x r H.
  - congruence.
  - destruct x as [|b x]; [discriminate|].
    destruct (Ascii.eqb a b) eqn:E; [|discriminate].
    apply Ascii.eqb_eq in E. subst b. f_equal. auto.
Qed.

Lemma isOrdinalSuffix_den rest pos c :
  isOrdinalSuffix rest = true ->
  den (ROpt (RSeq (RLit " #") (RPlus true isDigit))) pos rest [] c c.
Proof.
  intros H. apply den_opt.
  destruct rest as [|a [|b [|d ds]]]; simpl in H; try discriminate.
  - right. auto.
  - left. apply andb_true_iff in H. destruct H as [H Hd].
    apply andb_true_iff in H. destruct H as [Ha Hb].
    apply isChar_true in Ha, Hb. subst a b.
    exists (lit " #"), (d :: ds), c. repeat split.
    + apply den_lit. auto.
    + apply den_plus. repeat split; [discriminate | exact Hd].
Qed.

Lemma den_isOrdinalSuffix rest pos after c c' :
  den (ROpt (RSeq (RLit " #") (RPlus true isDigit))) pos rest after c c' ->
  isOrdinalSuffix rest = true /\ c' = c.
Proof.
  intros H. apply den_opt in H. destruct H as [H | [-> ->]]; [|auto].
  destruct H as (w1 & w2 & mid & -> & D1 & D2).
  apply den_lit in D1. destruct D1 as [-> ->].
  apply den_plus in D2. destruct D2 as (Hne & Hd & ->).
  destruct w2 as [|d ds]; [congruence|]. simpl in *. auto.
Qed.

Lemma den_sectionNames pos w after c c' :
  den (RAlt (RLit "General") (RAlt (RLit "Video")
         (RAlt (RLit "Audio") (RAlt (RLit "Text") (RLit "Menu")))))
      pos w after c c' <->
  (exists name, In name sectionNames /\ w = lit name) /\ c' = c.
Proof.
  rewrite !den_alt, !den_lit. unfold sectionNames. simpl In. split.
  - intros [[-> ->]|[[-> ->]|[[-> ->]|[[-> ->]|[-> ->]]]]]; eauto 10.
  - intros [(name & [<-|[<-|[<-|[<-|[<-|[]]]]]] & ->) ->]; auto 10.
Qed.

Lemma sectionRe_sound line caps :
  re_match sectionRe line = Some caps ->
  exists name rest,
    In name sectionNames /\ line = lit name ++ rest
    /\ isOrdinalSuffix rest = true /\ caps = [(1, lit name)].
Proof.
  intros H. apply re_match_sound in H.
  destruct H as (pre & w & after & -> & D). unfold sectionRe in D.
  apply den_concat_cons in D. destruct D as (w0 & r0 & c0 & -> & D0 & D).
  destruct D0 as (-> & Hpre & ->).
  apply den_concat_cons in D. destruct D as (w1 & r1 & c1 & -> & D1 & D).
  destruct D1 as (c1' & D1 & ->).
  apply den_sectionNames in D1. destruct D1 as [(name & Hin & ->) ->].
  apply den_concat_cons in D. destruct D as (w2 & r2 & c2 & -> & D2 & D).
  apply den_isOrdinalSuffix in D2. destruct D2 as [Hs ->].
  apply den_concat_cons in D. destruct D as (w3 & r3 & c3 & -> & D3 & D).
  destruct D3 as (-> & Hnil & ->). destruct D as [-> ->].
  simpl in Hnil. subst after.
  destruct pre; [|discriminate]. simpl. rewrite !app_nil_r.
  exists name, w2. auto.
Qed.

Lemma sectionRe_complete name rest :
  In name sectionNames -> isOrdinalSuffix rest = true ->
  exists caps, re_match sectionRe (lit name ++ rest) = Some caps.
Proof.
  intros Hin Hs.
  assert (D : den sectionRe (length (@nil ascii)) (lit name ++ rest) []
                [] [(1, lit name)]).
  { unfold sectionRe. apply den_concat_cons.
    exists [], (lit name ++ rest), []. repeat split.
    apply den_concat_cons.
    exists (lit name), rest, [(1, lit name)]. repeat split.
    - exists []. split; [|reflexivity]. apply den_sectionNames. eauto.
    - apply den_concat_cons. exists rest, [], [(1, lit name)].
      rewrite app_nil_r. repeat split.
      + apply isOrdinalSuffix_den. exact Hs.
      + apply den_concat_cons. exists [], [], [(1, lit name)].
        repeat split. }
  apply re_match_complete in D. simpl in D. rewrite app_nil_r in D. exact D.
Qed.

Lemma headerName_prefix name rest :
  In name sectionNames -> isOrdinalSuffix rest = true ->
  headerName (lit name ++ rest) = Some name.
Proof.
  unfold sectionNames. simpl In.
  intros [<-|[<-|[<-|[<-|[<-|[]]]]]] Hs; unfold headerName; simpl;
    unfold isHeader; simpl; rewrite Hs; reflexivity.
Qed.

(** The header pattern finds exactly the header lines, and captures the
    section name. *)
Lemma sectionRe_spec line :
  re_match sectionRe line
  = option_map (fun name => [(1, lit name)]) (headerName line).
Proof.
  destruct (re_match sectionRe line) as [caps|] eqn:H.
  - apply sectionRe_sound in H.
    destruct H as (name & rest & Hin & -> & Hs & ->).
    rewrite headerName_prefix; auto.
  - destruct (headerName line) as [name|] eqn:Hn; [|reflexivity].
    unfold headerName in Hn. apply find_some in Hn. destruct Hn as [Hin Hh].
    unfold isHeader in Hh.
    destruct (stripPrefix (lit name) line) as [rest|] eqn:Hp; [|discriminate].
    apply stripPrefix_Some in Hp. subst line.
    destruct (sectionRe_complete name rest Hin Hh) as [caps Hc]. congruence.
Qed.
Lemma isBlanks_iff ws :
  isBlanks ws = true <-> ws <> [] /\ forallb isSpace ws = true.
Proof.
  destruct ws; simpl.
  - split; [discriminate | intros [H _]; congruence].
  - split; [intros H; split; [discriminate | exact H] | intros [_ H]; exact H].
Qed.

Lemma den_blanks pos w after c c' :
  den (RPlus true isSpace) pos w after c c' <-> isBlanks w = true /\ c' = c.
Proof. rewrite den_plus, isBlanks_iff. tauto. Qed.

Lemma den_star g p pos w after c c' :
  den (RStar g p) pos w after c c' <-> forallb p w = true /\ c' = c.
Proof. reflexivity. Qed.

Lemma den_group i a pos w after c c' :
  den (RGroup i a) pos w after c c' <->
  exists mid, den a pos w after c mid /\ c' = (i, w) :: mid.
Proof. reflexivity. Qed.

Lemma den_bol pos w after c c' :
  den RBol pos w after c c' <-> w = [] /\ pos = 0 /\ c' = c.
Proof. reflexivity. Qed.

Lemma den_eol pos w after c c' :
  den REol pos w after c c' <-> w = [] /\ after = [] /\ c' = c.
Proof. reflexivity. Qed.

(** Splits the hypothesis [D] on a sequence of patterns into the hypothesis
    [D1] on its head and [D] on its tail. *)
Ltac den_next D D1 w1 w2 :=
  apply den_concat_cons in D;
  let mid := fresh "c" in
  let E := fresh "E" in
  destruct D as (w1 & w2 & mid & E & D1 & D).

Ltac rew_true :=
  repeat match goal with
         | H : ?x = true |- context [?x] => rewrite H
         end.

Ltac split_andb :=
  repeat match goal with
         | H : _ && _ = true |- _ => apply andb_true_iff in H; destruct H
         end.

Lemma den_stamp pos w after c c' :
  den (RConcat [ RRepeat 2 isDigit; RLit ":"; RRepeat 2 isDigit;
                 RLit ":"; RRepeat 2 isDigit; RChar isDot;
                 RRepeat 3 isDigit ]) pos w after c c'
  <-> isStamp w = true /\ c' = c.
Proof.
  split.
  - intros D.
    den_next D D1 hh r1. apply den_repeat in D1. destruct D1 as (L1 & F1 & ->).
    den_next D D2 k1 r2. apply den_lit in D2. destruct D2 as [-> ->].
    den_next D D3 mm r3. apply den_repeat in D3. destruct D3 as (L3 & F3 & ->).
    den_next D D4 k2 r4. apply den_lit in D4. destruct D4 as [-> ->].
    den_next D D5 ss r5. apply den_repeat in D5. destruct D5 as (L5 & F5 & ->).
    den_next D D6 dd r6. simpl in D6. destruct D6 as [(d & -> & F6) ->].
    den_next D D7 ff r7. apply den_repeat in D7. destruct D7 as (L7 & F7 & ->).
    destruct D as [-> ->]. subst. unfold isStamp, isStampWith.
    destruct hh as [|h1 [|h2 [|]]]; try discriminate.
    destruct mm as [|m1 [|m2 [|]]]; try discriminate.
    destruct ss as [|s1 [|s2 [|]]]; try discriminate.
    destruct ff as [|f1 [|f2 [|f3 [|]]]]; try discriminate.
    simpl in *. split_andb. rew_true. auto.
  - intros [H ->]. unfold isStamp, isStampWith in H.
    destruct w as [|h1 [|h2 [|c1 [|m1 [|m2 [|c2 [|s1 [|s2 [|d [|f1 [|f2
                  [|f3 [|]]]]]]]]]]]]]; try discriminate.
    simpl in H. split_andb.
    repeat match goal with
           | H : isChar _ _ = true |- _ => apply isChar_true in H; subst
           end.
    apply den_concat_cons. exists [h1; h2], [":"; m1; m2; ":"; s1; s2; d; f1; f2; f3]%char, c.
    repeat split. { apply den_repeat. simpl. rew_true. auto. }
    apply den_concat_cons. exists (lit ":"), [m1; m2; ":"; s1; s2; d; f1; f2; f3]%char, c.
    repeat split. { apply den_lit. auto. }
    apply den_concat_cons. exists [m1; m2], [":"; s1; s2; d; f1; f2; f3]%char, c.
    repeat split. { apply den_repeat. simpl. rew_true. auto. }
    apply den_concat_cons. exists (lit ":"), [s1; s2; d; f1; f2; f3]%char, c.
    repeat split. { apply den_lit. auto. }
    apply den_concat_cons. exists [s1; s2], [d; f1; f2; f3]%char, c.
    repeat split. { apply den_repeat. simpl. rew_true. auto. }
    apply den_concat_cons. exists [d], [f1; f2; f3]%char, c.
    repeat split. { eauto. }
    apply den_concat_cons. exists [f1; f2; f3], [], c.
    repeat split. apply den_repeat. simpl. rew_true. auto.
Qed.
Ltac norm_app :=
  repeat (progress (repeat rewrite <- app_assoc; cbn [app])).

(** Proves a sequence of patterns on a word that starts with [w1]: leaves
    the head pattern on [w1], then the tail. *)
Ltac den_intro w1 :=
  apply den_concat_cons; eexists w1, _, _;
  split; [reflexivity | split].

Lemma chapterRe_sound line caps :
  re_match chapterRe line = Some caps ->
  exists pre stamp ws1 ws2 mid rest post,
    line = pre ++ stamp ++ ws1 ++ ":"%char :: ws2 ++ mid
               ++ ":"%char :: rest ++ post
    /\ isStamp stamp = true /\ isBlanks ws1 = true /\ isBlanks ws2 = true
    /\ forallb isDot mid = true /\ forallb isDot rest = true
    /\ caps = [(2, rest); (1, stamp)].
Proof.
  intros H. apply re_match_sound in H.
  destruct H as (pre & w & post & -> & D). unfold chapterRe in D.
  den_next D D1 stamp r1. apply -> den_group in D1.
  destruct D1 as (c1 & D1 & ->). apply den_stamp in D1.
  destruct D1 as [Hs ->].
  den_next D D2 ws1 r2. apply den_blanks in D2. destruct D2 as [H1 ->].
  den_next D D3 k1 r3. apply den_lit in D3. destruct D3 as [-> ->].
  den_next D D4 ws2 r4. apply den_blanks in D4. destruct D4 as [H2 ->].
  den_next D D5 mid r5. apply -> den_star in D5. destruct D5 as [H3 ->].
  den_next D D6 k2 r6. apply den_lit in D6. destruct D6 as [-> ->].
  den_next D D7 rest r7. apply -> den_group in D7.
  destruct D7 as (c7 & D7 & ->). apply -> den_star in D7.
  destruct D7 as [H4 ->]. destruct D as [-> ->]. subst.
  exists pre, stamp, ws1, ws2, mid, rest, post.
  rewrite app_nil_r. norm_app. auto 10.
Qed.

Lemma chapterRe_complete line :
  chapterShape line -> exists caps, re_match chapterRe line = Some caps.
Proof.
  intros (pre & stamp & ws1 & ws2 & mid & tail & -> & Hs & H1 & H2 & H3).
  assert (D : den chapterRe (length pre)
                (stamp ++ ws1 ++ ":"%char :: ws2 ++ mid ++ [":"%char])
                tail [] [(2, []); (1, stamp)]).
  { unfold chapterRe.
    den_intro stamp.
    { apply den_group. eexists. split; [|reflexivity].
      apply den_stamp. auto. }
    den_intro ws1. { apply den_blanks. auto. }
    den_intro (lit ":"). { apply den_lit. auto. }
    den_intro ws2. { apply den_blanks. auto. }
    den_intro mid. { apply den_star. auto. }
    den_intro (lit ":"). { apply den_lit. auto. }
    den_intro (@nil ascii).
    { apply den_group. eexists. split; [|reflexivity].
      apply den_star. auto. }
    apply den_concat_nil. auto. }
  apply re_match_complete in D.
  revert D. norm_app. auto.
Qed.

Lemma keyValueRe_sound line caps :
  re_match keyValueRe line = Some caps ->
  exists ws0 k ws1 ws2 v,
    line = ws0 ++ k ++ ws1 ++ ":"%char :: ws2 ++ v
    /\ forallb isSpace ws0 = true
    /\ k <> [] /\ forallb (notChar ":") k = true
    /\ isBlanks ws1 = true /\ isBlanks ws2 = true
    /\ forallb isDot v = true
    /\ caps = [(2, v); (1, k)].
Proof.
  intros H. apply re_match_sound in H.
  destruct H as (pre & w & post & -> & D). unfold keyValueRe in D.
  den_next D D0 w0 r0. apply -> den_bol in D0. destruct D0 as (-> & Hpre & ->).
  den_next D D1 ws0 r1. apply -> den_star in D1. destruct D1 as [H0 ->].
  den_next D D2 k r2. apply -> den_group in D2.
  destruct D2 as (c2 & D2 & ->). apply den_plus in D2.
  destruct D2 as (Hk & Hk' & ->).
  den_next D D3 ws1 r3. apply den_blanks in D3. destruct D3 as [H1 ->].
  den_next D D4 k1 r4. apply den_lit in D4. destruct D4 as [-> ->].
  den_next D D5 ws2 r5. apply den_blanks in D5. destruct D5 as [H2 ->].
  den_next D D6 v r6. apply -> den_group in D6.
  destruct D6 as (c6 & D6 & ->). apply -> den_star in D6.
  destruct D6 as [H3 ->].
  den_next D D7 w7 r7. apply -> den_eol in D7. destruct D7 as (-> & Hpost & ->).
  destruct D as [-> ->]. subst. simpl in Hpost. subst post.
  destruct pre; [|discriminate].
  exists ws0, k, ws1, ws2, v. rewrite !app_nil_r. norm_app. auto 10.
Qed.

Lemma den_opt_lit s pos w after c c' :
  den (ROpt (RLit s)) pos w after c c' -> c' = c.
Proof.
  intros D. apply -> den_opt in D. destruct D as [D | [_ ->]]; [|reflexivity].
  apply den_lit in D. tauto.
Qed.

Lemma sizeRe_sound value caps :
  re_match sizeRe value = Some caps -> exists w, caps = [(1, w)].
Proof.
  intros H. apply re_match_sound in H.
  destruct H as (pre & w & post & -> & D). unfold sizeRe in D.
  apply -> den_group in D. destruct D as (c & D & ->).
  den_next D D1 w1 r1. apply den_plus in D1. destruct D1 as (_ & _ & ->).
  den_next D D2 w2 r2. apply den_opt_lit in D2. subst.
  den_next D D3 w3 r3. apply -> den_star in D3. destruct D3 as [_ ->].
  den_next D D4 w4 r4. apply den_blanks in D4. destruct D4 as [_ ->].
  den_next D D5 w5 r5. apply den_plus in D5. destruct D5 as (_ & _ & ->).
  destruct D as [_ ->]. eauto.
Qed.
(** ** Lines: blank lines, header lines, key-value lines *)

Lemma dropWhile_nil p x : dropWhile p x = [] <-> forallb p x = true.
Proof.
  induction x as [|c x IH]; simpl; [tauto|].
  destruct (p c); simpl; [exact IH|]. split; discriminate.
Qed.

Lemma dropWhile_head p x c r : dropWhile p x = c :: r -> p c = false.
Proof.
  induction x as [|a x IH]; simpl; [discriminate|].
  destruct (p a) eqn:E; [exact IH|]. intros [= -> _]. exact E.
Qed.

Lemma forallb_rev p (x : str) : forallb p (rev x) = forallb p x.
Proof.
  induction x as [|c x IH]; simpl; [reflexivity|].
  rewrite forallb_app, IH. simpl. rewrite andb_true_r. apply andb_comm.
Qed.

(** The test [!line.trim()] recognises the blank lines. *)
Lemma trim_blank line : trim line = [] <-> isBlank line = true.
Proof.
  unfold trim, trimEnd, trimStart, isBlank. split.
  - intros H. apply (f_equal (@rev ascii)) in H. rewrite rev_involutive in H.
    simpl in H. apply dropWhile_nil in H. rewrite forallb_rev in H.
    destruct (dropWhile isSpace line) as [|c r] eqn:E.
    + apply dropWhile_nil. exact E.
    + apply dropWhile_head in E. simpl in H. rewrite E in H. discriminate.
  - intros H. apply dropWhile_nil in H. rewrite H. reflexivity.
Qed.

Lemma trim_not_blank line :
  isBlank line = false -> exists c r, trim line = c :: r.
Proof.
  intros H. destruct (trim line) as [|c r] eqn:E; [|eauto].
  apply trim_blank in E. congruence.
Qed.

Lemma isBlank_In line c :
  In c line -> isSpace c = false -> isBlank line = false.
Proof.
  intros Hin Hc. unfold isBlank.
  destruct (forallb isSpace line) eqn:E; [|reflexivity].
  rewrite forallb_forall in E. rewrite (E _ Hin) in Hc. discriminate.
Qed.

Lemma headerName_Some line name :
  headerName line = Some name ->
  In name sectionNames /\ exists rest,
    line = lit name ++ rest /\ isOrdinalSuffix rest = true.
Proof.
  unfold headerName. intros H. apply find_some in H. destruct H as [Hin H].
  split; [exact Hin|]. unfold isHeader in H.
  destruct (stripPrefix (lit name) line) as [rest|] eqn:E; [|discriminate].
  apply stripPrefix_Some in E. eauto.
Qed.

Lemma isOrdinalSuffix_no_colon rest :
  isOrdinalSuffix rest = true -> ~ In ":"%char rest.
Proof.
  destruct rest as [|a [|b [|d ds]]]; simpl; try discriminate; [tauto|].
  intros H. apply andb_true_iff in H. destruct H as [H Hd].
  apply andb_true_iff in H. destruct H as [Ha Hb].
  apply andb_true_iff in Hd. destruct Hd as [Hd Hds].
  apply isChar_true in Ha, Hb. subst a b.
  intros [E|[E|[E|E]]]; try discriminate.
  - subst d. discriminate.
  - rewrite forallb_forall in Hds. apply Hds in E. discriminate.
Qed.

(** A header line is not blank and contains no colon. *)
Lemma header_not_blank line name :
  headerName line = Some name -> isBlank line = false.
Proof.
  intros H. apply headerName_Some in H.
  destruct H as (Hin & rest & -> & _). unfold sectionNames in Hin.
  simpl in Hin.
  destruct Hin as [<-|[<-|[<-|[<-|[<-|[]]]]]]; reflexivity.
Qed.

Lemma header_no_colon line name :
  headerName line = Some name -> ~ In ":"%char line.
Proof.
  intros H. apply headerName_Some in H.
  destruct H as (Hin & rest & -> & Hs).
  apply isOrdinalSuffix_no_colon in Hs. intros Hc. apply in_app_or in Hc.
  destruct Hc as [Hc|Hc]; [|tauto]. unfold sectionNames in Hin.
  simpl in Hin.
  destruct Hin as [<-|[<-|[<-|[<-|[<-|[]]]]]]; simpl in Hc;
    repeat (destruct Hc as [Hc|Hc]; [discriminate|]); exact Hc.
Qed.

Lemma keyValueOf_Some line :
  re_match keyValueRe line <> None ->
  exists k v, keyValueOf line = Some (k, v) /\ In ":"%char line.
Proof.
  unfold keyValueOf. destruct (re_match keyValueRe line) as [m|] eqn:H;
    [|congruence].
  intros _. apply keyValueRe_sound in H.
  destruct H as (ws0 & k & ws1 & ws2 & v & -> & _ & _ & _ & _ & _ & _ & ->).
  simpl. exists (trim k), (trim v). split; [reflexivity|].
  repeat (apply in_or_app; right). left. reflexivity.
Qed.

Lemma keyValueOf_colon line kv :
  keyValueOf line = Some kv -> In ":"%char line.
Proof.
  intros H. destruct (keyValueOf_Some line) as (k & v & _ & Hc); [|exact Hc].
  unfold keyValueOf in H. destruct (re_match keyValueRe line); congruence.
Qed.

(** A key-value line is neither blank nor a header line. *)
Lemma keyValue_not_blank line kv :
  keyValueOf line = Some kv -> isBlank line = false.
Proof.
  intros H. apply keyValueOf_colon in H.
  eapply isBlank_In; [exact H | reflexivity].
Qed.

Lemma keyValue_not_header line kv :
  keyValueOf line = Some kv -> headerName line = None.
Proof.
  intros H. apply keyValueOf_colon in H.
  destruct (headerName line) as [name|] eqn:E; [|reflexivity].
  apply header_no_colon in E. tauto.
Qed.
(** ** One step of the loop *)

Lemma processLine_blank st line :
  isBlank line = true ->
  processLine st line
  = Ok {| result := result st; currentSection := [];
          trackIndex := trackIndex st |}.
Proof.
  intros H. apply trim_blank in H. unfold processLine. rewrite H. reflexivity.
Qed.

Lemma processLine_header st line name :
  headerName line = Some name ->
  processLine st line = Ok (enterSection name st).
Proof.
  intros H. unfold processLine.
  destruct (trim_not_blank line (header_not_blank _ _ H)) as (c & r & ->).
  rewrite sectionRe_spec, H. apply headerName_Some in H.
  destruct H as [Hin _]. unfold sectionNames in Hin. simpl in Hin.
  destruct Hin as [<-|[<-|[<-|[<-|[<-|[]]]]]]; reflexivity.
Qed.

Lemma processLine_other st line :
  isBlank line = false -> headerName line = None ->
  processLine st line
  = if str_eqb (currentSection st) (lit "menu")
    then Ok match chapterOf line with
            | Some ch => addChapter ch st
            | None => st
            end
    else match keyValueOf line with
         | Some (key, value) => assignKey st key value
         | None => Ok st
         end.
Proof.
  intros Hb Hh. unfold processLine.
  destruct (trim_not_blank line Hb) as (c & r & ->).
  rewrite sectionRe_spec, Hh. cbn [option_map].
  destruct (str_eqb (currentSection st) (lit "menu")).
  - unfold chapterOf.
    destruct (re_match chapterRe line) as [m|] eqn:H; [|reflexivity].
    apply chapterRe_sound in H.
    destruct H as (pre & stamp & ws1 & ws2 & mid & rest & post & _ & _ & _
                   & _ & _ & _ & ->).
    reflexivity.
  - unfold keyValueOf.
    destruct (re_match keyValueRe line) as [m|] eqn:H; [|reflexivity].
    apply keyValueRe_sound in H.
    destruct H as (ws0 & k & ws1 & ws2 & v & _ & _ & _ & _ & _ & _ & _ & ->).
    reflexivity.
Qed.

Lemma str_eqb_eq a b : str_eqb a b = true <-> a = b.
Proof.
  unfold str_eqb. destruct (list_eq_dec ascii_dec a b); split;
    congruence.
Qed.

Lemma str_eqb_refl a : str_eqb a a = true.
Proof. apply str_eqb_eq. reflexivity. Qed.

Lemma str_eqb_neq a b : str_eqb a b = false <-> a <> b.
Proof.
  unfold str_eqb. destruct (list_eq_dec ascii_dec a b); split;
    congruence.
Qed.

Lemma lookup_In {A} key (cases : list (string * A)) v :
  lookup key cases = Some v -> In v (map snd cases).
Proof.
  induction cases as [|[label x] cases IH]; simpl; [discriminate|].
  destruct (str_eqb key (lit label)).
  - intros [= ->]. auto.
  - auto.
Qed.

Lemma length_updateAt {A} (f : A -> A) a : forall i,
  length (updateAt i f a) = length a.
Proof.
  induction a as [|x a IH]; intros [|i]; simpl; auto.
Qed.

Lemma streamSizeCase_ok {T} (set : Num.number -> T -> T) value :
  exists change, streamSizeCase set value = Ok change.
Proof.
  unfold streamSizeCase.
  destruct (re_match sizeRe value) as [m|] eqn:H; [|eauto].
  apply sizeRe_sound in H. destruct H as [w ->]. eexists. reflexivity.
Qed.

Lemma videoCases_ok value : neverThrows (videoCases value).
Proof.
  unfold neverThrows, videoCases, assign. simpl.
  repeat (constructor; [first [eexists; reflexivity
                             | apply streamSizeCase_ok]|]).
  constructor.
Qed.

Lemma audioCases_ok value : neverThrows (audioCases value).
Proof.
  unfold neverThrows, audioCases, assign. simpl.
  repeat (constructor; [first [eexists; reflexivity
                             | apply streamSizeCase_ok]|]).
  constructor.
Qed.

Lemma textCases_ok value : neverThrows (textCases value).
Proof.
  unfold neverThrows, textCases, assign. simpl.
  repeat (constructor; [first [eexists; reflexivity
                             | apply streamSizeCase_ok]|]).
  constructor.
Qed.

(** With a valid track index, the [switch] of a track section does not
    throw, and changes at most the track at that index. *)
Lemma switchTrack_ok {T} (cases : list (string * caseBody T)) key tracks
    index :
  neverThrows cases -> (0 <= index)%Z -> validIndex tracks index ->
  switchTrack cases key tracks index = Ok tracks
  \/ exists f, lookup key cases = Some (Ok (Some f))
       /\ switchTrack cases key tracks index
          = Ok (updateAt (Z.to_nat index) f tracks).
Proof.
  intros Hc Hi Hv. unfold switchTrack.
  destruct (lookup key cases) as [body|] eqn:E; [|auto].
  destruct (proj1 (Forall_forall _ _) Hc body (lookup_In _ _ _ E))
    as [change ->].
  simpl. destruct change as [f|]; [|auto].
  right. exists f. split; [reflexivity|].
  destruct (nth_error tracks (Z.to_nat index)) eqn:E'; [reflexivity|].
  apply nth_error_None in E'. specialize (Hv Hi). lia.
Qed.
Lemma lastIndex_valid {T} (tracks : list T) index :
  lastIndex tracks index -> validIndex tracks index.
Proof. unfold lastIndex, validIndex. lia. Qed.

Lemma withResult_same st : withResult st (result st) = st.
Proof. destruct st. reflexivity. Qed.

(** Under the invariant a key-value pair never throws. *)
Lemma assignKey_spec st key value :
  Inv st ->
  exists r', assignKey st key value = Ok (withResult st r')
             /\ keyEffect st key value r'.
Proof.
  intros (Hv & Ha & Ht). unfold assignKey, keyEffect.
  destruct (str_eqb (currentSection st) (lit "general")) eqn:Eg.
  { apply str_eqb_eq in Eg.
    destruct (lookup key (generalCases value)) as [f|] eqn:E.
    - eexists. split; [reflexivity|]. right. left. eauto.
    - exists (result st). rewrite withResult_same. auto. }
  destruct (str_eqb (currentSection st) (lit "video")) eqn:E1;
    [destruct (0 <=? trackIndex st)%Z eqn:Ei|]; cbn [andb].
  { apply str_eqb_eq in E1. apply Z.leb_le in Ei.
    destruct (switchTrack_ok (videoCases value) key (video (result st))
                (trackIndex st) (videoCases_ok value) Ei
                (lastIndex_valid _ _ (Hv E1)))
      as [-> | (f & Hf & ->)]; cbn [bind].
    - exists (result st). split; [|auto].
      f_equal. f_equal. destruct (result st); reflexivity.
    - eexists. split; [reflexivity|]. right. right. left. eauto. }
  { apply str_eqb_eq in E1. rewrite E1.
    exists (result st). rewrite withResult_same. auto. }
  destruct (str_eqb (currentSection st) (lit "audio")) eqn:E2;
    [destruct (0 <=? trackIndex st)%Z eqn:Ei|]; cbn [andb].
  { apply str_eqb_eq in E2. apply Z.leb_le in Ei.
    destruct (switchTrack_ok (audioCases value) key (audio (result st))
                (trackIndex st) (audioCases_ok value) Ei
                (lastIndex_valid _ _ (Ha E2)))
      as [-> | (f & Hf & ->)]; cbn [bind].
    - exists (result st). split; [|auto].
      f_equal. f_equal. destruct (result st); reflexivity.
    - eexists. split; [reflexivity|]. right. right. right. left. eauto. }
  { apply str_eqb_eq in E2. rewrite E2.
    exists (result st). rewrite withResult_same. auto. }
  destruct (str_eqb (currentSection st) (lit "text")) eqn:E3;
    [destruct (0 <=? trackIndex st)%Z eqn:Ei|]; cbn [andb].
  { apply str_eqb_eq in E3. apply Z.leb_le in Ei.
    destruct (switchTrack_ok (textCases value) key (text (result st))
                (trackIndex st) (textCases_ok value) Ei
                (lastIndex_valid _ _ (Ht E3)))
      as [-> | (f & Hf & ->)]; cbn [bind].
    - exists (result st). split; [|auto].
      f_equal. f_equal. destruct (result st); reflexivity.
    - eexists. split; [reflexivity|]. right. right. right. right. eauto. }
  { apply str_eqb_eq in E3. rewrite E3.
    exists (result st). rewrite withResult_same. auto. }
  exists (result st). rewrite withResult_same. auto.
Qed.

Lemma keyEffect_sameShape st key value r' :
  keyEffect st key value r' -> sameShape (result st) r'.
Proof.
  unfold keyEffect, sameShape.
  intros [->|[(f & _ & _ & ->)|[(f & _ & _ & ->)|[(f & _ & _ & ->)
         |(f & _ & _ & ->)]]]]; simpl; rewrite ?length_updateAt; auto.
Qed.

Lemma Inv_withResult st r' :
  Inv st -> sameShape (result st) r' -> Inv (withResult st r').
Proof.
  intros (Hv & Ha & Ht) (Lv & La & Lt & _). unfold Inv, lastIndex in *.
  simpl. rewrite Lv, La, Lt. auto.
Qed.

Lemma Inv_enterSection name st :
  In name sectionNames -> Inv (enterSection name st).
Proof.
  unfold sectionNames. simpl.
  intros [<-|[<-|[<-|[<-|[<-|[]]]]]]; unfold Inv, lastIndex;
    simpl; repeat split; try discriminate;
    unfold push; rewrite length_app; simpl; lia.
Qed.

(** One step of the loop never throws and keeps the invariant. *)
Lemma processLine_ok st line :
  Inv st -> exists st', processLine st line = Ok st' /\ Inv st'.
Proof.
  intros HI. destruct (isBlank line) eqn:Hb.
  { rewrite processLine_blank by exact Hb. eexists. split; [reflexivity|].
    unfold Inv. simpl. repeat split; discriminate. }
  destruct (headerName line) as [name|] eqn:Hh.
  { rewrite (processLine_header _ _ _ Hh). eexists. split; [reflexivity|].
    apply Inv_enterSection. apply headerName_Some in Hh. tauto. }
  rewrite processLine_other by assumption.
  destruct (str_eqb (currentSection st) (lit "menu")).
  { eexists. split; [reflexivity|].
    destruct (chapterOf line); [|exact HI].
    destruct HI as (Hv & Ha & Ht). split; [|split]; assumption. }
  destruct (keyValueOf line) as [[key value]|]; [|eauto].
  destruct (assignKey_spec st key value HI) as (r' & -> & He).
  eexists. split; [reflexivity|].
  apply Inv_withResult; [exact HI|].
  eapply keyEffect_sameShape; eauto.
Qed.
(** ** The whole loop *)

Lemma Inv_initialState : Inv initialState.
Proof. unfold Inv. simpl. repeat split; discriminate. Qed.

Lemma forLines_app a : forall b st,
  forLines (a ++ b) st = (st' <- forLines a st ;; forLines b st').
Proof.
  induction a as [|l a IH]; simpl; intros b st; [reflexivity|].
  destruct (processLine st l); simpl; auto.
Qed.

(** The loop never throws. *)
Lemma forLines_ok lines : forall st,
  Inv st -> exists st', forLines lines st = Ok st' /\ Inv st'.
Proof.
  induction lines as [|l lines IH]; simpl; intros st HI; [eauto|].
  destruct (processLine_ok st l HI) as (st1 & -> & HI1). simpl. auto.
Qed.

(** A property of the state that every step keeps holds at the end. *)
Lemma forLines_invariant (P : ParseState -> Prop) :
  (forall st line st',
      Inv st -> P st -> processLine st line = Ok st' -> P st') ->
  forall lines st st',
    Inv st -> P st -> forLines lines st = Ok st' -> P st'.
Proof.
  intros Hstep. induction lines as [|l lines IH]; simpl; intros st st' HI HP.
  - intros [= <-]. exact HP.
  - destruct (processLine_ok st l HI) as (st1 & E & HI1). rewrite E. simpl.
    intros H. apply (IH st1 st'); [exact HI1| |exact H].
    exact (Hstep st l st1 HI HP E).
Qed.

Lemma parseMediaInfo_ok text :
  exists st, forLines (split chr_nl text) initialState = Ok st
             /\ Inv st /\ parseMediaInfo text = Ok (result st).
Proof.
  destruct (forLines_ok (split chr_nl text) initialState Inv_initialState)
    as (st & E & HI).
  exists st. unfold parseMediaInfo. rewrite E. auto.
Qed.

(** What one step can do to the state, under the invariant. *)
Lemma processLine_cases st line st' :
  Inv st -> processLine st line = Ok st' ->
  (isBlank line = true /\ headerName line = None
   /\ result st' = result st /\ currentSection st' = []
   /\ trackIndex st' = trackIndex st)
  \/ (exists name, headerName line = Some name
                   /\ st' = enterSection name st)
  \/ (isBlank line = false /\ headerName line = None
      /\ ((exists ch, currentSection st = lit "menu"
                      /\ chapterOf line = Some ch /\ st' = addChapter ch st)
          \/ st' = st
          \/ (exists key value r',
                currentSection st <> lit "menu"
                /\ keyValueOf line = Some (key, value)
                /\ keyEffect st key value r' /\ st' = withResult st r'))).
Proof.
  intros HI. destruct (isBlank line) eqn:Hb.
  { rewrite processLine_blank by exact Hb. intros [= <-]. left.
    repeat split; auto.
    destruct (headerName line) eqn:Hh; [|reflexivity].
    apply header_not_blank in Hh. congruence. }
  destruct (headerName line) as [name|] eqn:Hh.
  { rewrite (processLine_header _ _ _ Hh). intros [= <-]. eauto. }
  rewrite processLine_other by assumption. intros H. right. right.
  split; [reflexivity|]. split; [reflexivity|]. revert H.
  destruct (str_eqb (currentSection st) (lit "menu")) eqn:Em.
  { apply str_eqb_eq in Em.
    destruct (chapterOf line) as [ch|]; intros [= <-]; eauto 10. }
  apply str_eqb_neq in Em.
  destruct (keyValueOf line) as [[key value]|]; [|intros [= <-]; auto].
  destruct (assignKey_spec st key value HI) as (r' & -> & He).
  intros [= <-]. right. right. eauto 10.
Qed.

Lemma general_pushTrack section r :
  general (pushTrack section r) = general r.
Proof.
  unfold pushTrack.
  repeat match goal with
         | |- context [if ?b then _ else _] => destruct b
         end; reflexivity.
Qed.

Lemma generalCases_unset value :
  Forall (fun f => forall g,
            GeneralTrack.streamSize (f g) = GeneralTrack.streamSize g
            /\ GeneralTrack.frameCount (f g) = GeneralTrack.frameCount g)
         (map snd (generalCases value)).
Proof. unfold generalCases. simpl. repeat constructor. Qed.

Lemma general_keyEffect st key value r' :
  keyEffect st key value r' ->
  GeneralTrack.streamSize (general r')
  = GeneralTrack.streamSize (general (result st))
  /\ GeneralTrack.frameCount (general r')
     = GeneralTrack.frameCount (general (result st)).
Proof.
  intros [->|[(f & _ & Hf & ->)|[(f & _ & _ & ->)|[(f & _ & _ & ->)
         |(f & _ & _ & ->)]]]]; simpl; auto.
  apply lookup_In in Hf.
  apply (proj1 (Forall_forall _ _) (generalCases_unset value) f Hf).
Qed.
(** ** Tracks and header lines *)

Lemma frozen_refl {T} (l : list T) : frozen l l.
Proof. intros i _. reflexivity. Qed.

Lemma frozen_trans {T} (a b c : list T) :
  length a <= length b -> frozen a b -> frozen b c -> frozen a c.
Proof.
  intros Hl Hab Hbc i Hi. rewrite Hbc by lia. apply Hab. exact Hi.
Qed.

Lemma frozen_push {T} (l : list T) x : frozen l (push l x).
Proof.
  intros i Hi. unfold push. apply nth_error_app1. lia.
Qed.

Lemma nth_error_updateAt_other {T} (f : T -> T) l : forall i j,
  i <> j -> nth_error (updateAt i f l) j = nth_error l j.
Proof.
  induction l as [|x l IH]; intros [|i] [|j] H; simpl; auto; congruence.
Qed.

Lemma frozen_updateAt {T} (f : T -> T) l index :
  lastIndex l index -> frozen l (updateAt (Z.to_nat index) f l).
Proof.
  unfold lastIndex. intros [-> _] i Hi.
  apply nth_error_updateAt_other. lia.
Qed.

Lemma keyEffect_frozen st key value r' :
  Inv st -> keyEffect st key value r' ->
  frozen (video (result st)) (video r')
  /\ frozen (audio (result st)) (audio r')
  /\ frozen (text (result st)) (text r').
Proof.
  intros (Hv & Ha & Ht).
  intros [->|[(f & _ & _ & ->)|[(f & E & _ & ->)|[(f & E & _ & ->)
         |(f & E & _ & ->)]]]]; simpl;
    repeat split; try apply frozen_refl; apply frozen_updateAt; auto.
Qed.

Lemma headerName_None line name :
  headerName line = None -> In name sectionNames ->
  isHeader name line = false.
Proof.
  unfold headerName. intros H Hin.
  apply (find_none _ _ H name Hin).
Qed.

Lemma isHeader_headerName line name :
  In name sectionNames ->
  isHeader name line = true <-> headerName line = Some name.
Proof.
  intros Hin. split.
  - unfold isHeader. intros H.
    destruct (stripPrefix (lit name) line) as [rest|] eqn:E; [|discriminate].
    apply stripPrefix_Some in E. subst line.
    apply headerName_prefix; assumption.
  - unfold headerName. intros H. apply find_some in H. tauto.
Qed.

Lemma isHeader_other line name name' :
  headerName line = Some name -> In name' sectionNames -> name' <> name ->
  isHeader name' line = false.
Proof.
  intros H Hin Hne. destruct (isHeader name' line) eqn:E; [|reflexivity].
  apply isHeader_headerName in E; [|exact Hin]. congruence.
Qed.

(** One step adds one track for a header line of its kind, none otherwise,
    and leaves the tracks before the last one as they are. *)
Lemma processLine_tracks st line st' :
  Inv st -> processLine st line = Ok st' ->
  (length (video (result st'))
   = length (video (result st)) + headerCount "Video" line
   /\ frozen (video (result st)) (video (result st')))
  /\ (length (audio (result st'))
      = length (audio (result st)) + headerCount "Audio" line
      /\ frozen (audio (result st)) (audio (result st')))
  /\ (length (text (result st'))
      = length (text (result st)) + headerCount "Text" line
      /\ frozen (text (result st)) (text (result st'))).
Proof.
  intros HI E. unfold headerCount.
  assert (Hv : In "Video"%string sectionNames) by (simpl; auto).
  assert (Ha : In "Audio"%string sectionNames) by (simpl; auto).
  assert (Ht : In "Text"%string sectionNames) by (simpl; auto 10).
  destruct (processLine_cases st line st' HI E)
    as [(_ & Hh & -> & _)|[(name & Hh & ->)|(_ & Hh & H)]].
  - rewrite !(headerName_None _ _ Hh) by assumption.
    rewrite !Nat.add_0_r. repeat split; auto using frozen_refl.
  - destruct (headerName_Some _ _ Hh) as (Hin & _).
    unfold sectionNames in Hin. simpl in Hin.
    destruct Hin as [<-|[<-|[<-|[<-|[<-|[]]]]]];
      rewrite ?(proj2 (isHeader_headerName line _ Hv) Hh),
              ?(proj2 (isHeader_headerName line _ Ha) Hh),
              ?(proj2 (isHeader_headerName line _ Ht) Hh),
              ?(isHeader_other _ _ "Video" Hh Hv) by discriminate;
      rewrite ?(isHeader_other _ _ "Audio" Hh Ha) by discriminate;
      rewrite ?(isHeader_other _ _ "Text" Hh Ht) by discriminate;
      simpl; unfold push; rewrite ?length_app; simpl;
      repeat split; auto using frozen_refl; try apply (frozen_push _ _).
  - rewrite !(headerName_None _ _ Hh) by assumption.
    rewrite !Nat.add_0_r.
    destruct H as [(ch & _ & _ & ->)|[->
                  |(key & value & r' & _ & _ & He & ->)]]; simpl;
      try (repeat split; auto using frozen_refl; fail).
    destruct (keyEffect_sameShape _ _ _ _ He) as (L1 & L2 & L3 & _).
    destruct (keyEffect_frozen _ _ _ _ HI He) as (F1 & F2 & F3).
    auto 10.
Qed.
Lemma countHeaders_cons name line lines :
  countHeaders name (line :: lines)
  = headerCount name line + countHeaders name lines.
Proof.
  unfold countHeaders, headerCount. simpl.
  destruct (isHeader name line); reflexivity.
Qed.

Lemma forLines_tracks lines : forall st st',
  Inv st -> forLines lines st = Ok st' ->
  (length (video (result st'))
   = length (video (result st)) + countHeaders "Video" lines
   /\ frozen (video (result st)) (video (result st')))
  /\ (length (audio (result st'))
      = length (audio (result st)) + countHeaders "Audio" lines
      /\ frozen (audio (result st)) (audio (result st')))
  /\ (length (text (result st'))
      = length (text (result st)) + countHeaders "Text" lines
      /\ frozen (text (result st)) (text (result st'))).
Proof.
  induction lines as [|l lines IH]; simpl; intros st st' HI E.
  - injection E as <-. unfold countHeaders. simpl. rewrite !Nat.add_0_r.
    repeat split; apply frozen_refl.
  - destruct (processLine_ok st l HI) as (st1 & E1 & HI1).
    rewrite E1 in E. simpl in E.
    destruct (processLine_tracks st l st1 HI E1)
      as ((Lv & Fv) & (La & Fa) & (Lt & Ft)).
    destruct (IH st1 st' HI1 E)
      as ((Lv' & Fv') & (La' & Fa') & (Lt' & Ft')).
    rewrite !countHeaders_cons.
    repeat split; try lia.
    + apply (frozen_trans _ (video (result st1))); [lia| |]; assumption.
    + apply (frozen_trans _ (audio (result st1))); [lia| |]; assumption.
    + apply (frozen_trans _ (text (result st1))); [lia| |]; assumption.
Qed.
(** ** Lines outside every section *)

Lemma assignKey_unset st key value :
  currentSection st = [] -> assignKey st key value = Ok st.
Proof. intros H. unfold assignKey. rewrite H. reflexivity. Qed.

(** While no section is in effect, a line that is not a header line changes
    neither the record nor the scan state, apart from nothing at all. *)
Lemma processLine_unset st line :
  currentSection st = [] -> headerName line = None ->
  exists st',
    processLine st line = Ok st'
    /\ currentSection st' = [] /\ result st' = result st
    /\ trackIndex st' = trackIndex st.
Proof.
  intros Hs Hh. destruct (isBlank line) eqn:Hb.
  - rewrite processLine_blank by exact Hb. eexists. split; [reflexivity|].
    simpl. auto.
  - rewrite processLine_other by assumption. rewrite Hs.
    change (str_eqb [] (lit "menu")) with false. cbn iota.
    destruct (keyValueOf line) as [[key value]|].
    + rewrite assignKey_unset by exact Hs. eauto.
    + eauto.
Qed.

Lemma forLines_unset lines : forall st,
  currentSection st = [] -> Forall (fun l => headerName l = None) lines ->
  exists st',
    forLines lines st = Ok st'
    /\ currentSection st' = [] /\ result st' = result st
    /\ trackIndex st' = trackIndex st.
Proof.
  induction lines as [|l lines IH]; simpl; intros st Hs Hall.
  - eauto.
  - inversion Hall as [|? ? Hl Hrest]; subst.
    destruct (processLine_unset st l Hs Hl) as (st1 & -> & Hs1 & Hr1 & Hi1).
    simpl. destruct (IH st1 Hs1 Hrest) as (st2 & -> & Hs2 & Hr2 & Hi2).
    exists st2. repeat split; congruence.
Qed.
(** ** Keys outside the vocabulary *)

Lemma lookup_None {A} key (cases : list (string * A)) :
  existsb (fun label => str_eqb key (lit label)) (map fst cases) = false ->
  lookup key cases = None.
Proof.
  induction cases as [|[label x] cases IH]; simpl; [reflexivity|].
  destruct (str_eqb key (lit label)); simpl; [discriminate | exact IH].
Qed.

Lemma set_video_same r : set_video (video r) r = r.
Proof. destruct r. reflexivity. Qed.

Lemma set_audio_same r : set_audio (audio r) r = r.
Proof. destruct r. reflexivity. Qed.

Lemma set_text_same r : set_text (text r) r = r.
Proof. destruct r. reflexivity. Qed.

Lemma switchTrack_unknown {T} (cases : list (string * caseBody T)) key
    tracks index :
  lookup key cases = None -> switchTrack cases key tracks index = Ok tracks.
Proof. intros H. unfold switchTrack. rewrite H. reflexivity. Qed.

(** A key outside the vocabulary of the current section changes nothing. *)
Lemma assignKey_unknown st key value :
  knownKey (currentSection st) key = false -> assignKey st key value = Ok st.
Proof.
  unfold knownKey, vocabulary, assignKey.
  destruct (str_eqb (currentSection st) (lit "general")).
  { intros H. rewrite (lookup_None key (generalCases value) H). reflexivity. }
  destruct (0 <=? trackIndex st)%Z; rewrite ?andb_false_r, ?andb_true_r;
    [|reflexivity].
  destruct (str_eqb (currentSection st) (lit "video")).
  { intros H. rewrite (switchTrack_unknown _ _ _ _
                         (lookup_None key (videoCases value) H)).
    cbn [bind]. rewrite set_video_same, withResult_same. reflexivity. }
  destruct (str_eqb (currentSection st) (lit "audio")).
  { intros H. rewrite (switchTrack_unknown _ _ _ _
                         (lookup_None key (audioCases value) H)).
    cbn [bind]. rewrite set_audio_same, withResult_same. reflexivity. }
  destruct (str_eqb (currentSection st) (lit "text")).
  { intros H. rewrite (switchTrack_unknown _ _ _ _
                         (lookup_None key (textCases value) H)).
    cbn [bind]. rewrite set_text_same, withResult_same. reflexivity. }
  reflexivity.
Qed.

(** In a section other than Menu, a key-value line with a key outside the
    vocabulary changes nothing; in the Menu section, a line without a
    chapter entry changes nothing. *)
Lemma processLine_unknown st line key value :
  keyValueOf line = Some (key, value) ->
  knownKey (currentSection st) key = false ->
  (currentSection st = lit "menu" -> chapterOf line = None) ->
  processLine st line = Ok st.
Proof.
  intros Hkv Hk Hm.
  rewrite processLine_other
    by eauto using keyValue_not_blank, keyValue_not_header.
  destruct (str_eqb (currentSection st) (lit "menu")) eqn:E.
  - apply str_eqb_eq in E. rewrite (Hm E). reflexivity.
  - rewrite Hkv. apply assignKey_unknown. exact Hk.
Qed.
(** ** Normalized fields *)

Lemma generalNormalized_assigned :
  Forall (fun entry : normalized GeneralTrack.t =>
            let '(key, norm, get) := entry in
            forall value, exists f,
              lookup (lit key) (generalCases value) = Some f
              /\ forall t, get (f t) = Some (norm value))
         generalNormalized.
Proof.
  unfold generalNormalized.
  repeat (constructor; [intros value; eexists; split;
                        [reflexivity | intros t; reflexivity]|]).
  constructor.
Qed.

Lemma videoNormalized_assigned : assignsNormalized videoCases videoNormalized.
Proof.
  unfold assignsNormalized, videoNormalized.
  repeat (constructor; [intros value; eexists; split;
                        [reflexivity | intros t; reflexivity]|]).
  constructor.
Qed.

Lemma audioNormalized_assigned : assignsNormalized audioCases audioNormalized.
Proof.
  unfold assignsNormalized, audioNormalized.
  repeat (constructor; [intros value; eexists; split;
                        [reflexivity | intros t; reflexivity]|]).
  constructor.
Qed.

Lemma textNormalized_assigned : assignsNormalized textCases textNormalized.
Proof.
  unfold assignsNormalized, textNormalized.
  repeat (constructor; [intros value; eexists; split;
                        [reflexivity | intros t; reflexivity]|]).
  constructor.
Qed.
Lemma nth_error_updateAt_same {T} (f : T -> T) l : forall i,
  nth_error (updateAt i f l) i = option_map f (nth_error l i).
Proof.
  induction l as [|x l IH]; intros [|i]; simpl; auto.
Qed.

Lemma streamSizeCase_spec {T} (set : Num.number -> T -> T) value :
  streamSizeCase set value
  = Ok (option_map (fun w => set (parseSize w)) (sizePart value)).
Proof.
  unfold streamSizeCase, sizePart.
  destruct (re_match sizeRe value) as [m|] eqn:H; [|reflexivity].
  apply sizeRe_sound in H. destruct H as [w ->]. reflexivity.
Qed.

(** The [switch] of a track section, seen from the target track [t]. *)
Lemma switchTrack_target {T} (cases : list (string * caseBody T)) key tracks
    index t :
  neverThrows cases ->
  nth_error tracks (Z.to_nat index) = Some t ->
  exists tracks' t',
    switchTrack cases key tracks index = Ok tracks'
    /\ nth_error tracks' (Z.to_nat index) = Some t'
    /\ match lookup key cases with
       | Some (Ok (Some f)) => t' = f t
       | _ => t' = t
       end.
Proof.
  intros Hc Ht. unfold switchTrack.
  destruct (lookup key cases) as [body|] eqn:E; [|eauto].
  destruct (proj1 (Forall_forall _ _) Hc body (lookup_In _ _ _ E))
    as [change ->].
  cbn [bind]. destruct change as [f|]; [|eauto].
  rewrite Ht. exists (updateAt (Z.to_nat index) f tracks), (f t).
  rewrite nth_error_updateAt_same, Ht. auto.
Qed.

Lemma lastIndex_target {T} (tracks : list T) index :
  lastIndex tracks index -> exists t, nth_error tracks (Z.to_nat index) = Some t.
Proof.
  intros [E H]. destruct (nth_error tracks (Z.to_nat index)) eqn:N; [eauto|].
  apply nth_error_None in N. lia.
Qed.

Lemma processLine_general st line key value :
  currentSection st = lit "general" ->
  keyValueOf line = Some (key, value) ->
  processLine st line
  = Ok match lookup key (generalCases value) with
       | Some f =>
           withResult st (set_general (f (general (result st))) (result st))
       | None => st
       end.
Proof.
  intros Hs Hkv.
  rewrite processLine_other
    by eauto using keyValue_not_blank, keyValue_not_header.
  rewrite Hkv. unfold assignKey. rewrite Hs.
  change (str_eqb (lit "general") (lit "menu")) with false.
  change (str_eqb (lit "general") (lit "general")) with true. cbn iota.
  destruct (lookup key (generalCases value)); reflexivity.
Qed.

Lemma processLine_video st line key value :
  Inv st -> currentSection st = lit "video" ->
  keyValueOf line = Some (key, value) ->
  processLine st line
  = (v <- switchTrack (videoCases value) key (video (result st))
            (trackIndex st) ;;
     Ok (withResult st (set_video v (result st)))).
Proof.
  intros (Hv & _) Hs Hkv. destruct (Hv Hs) as [_ Hi].
  rewrite processLine_other
    by eauto using keyValue_not_blank, keyValue_not_header.
  rewrite Hkv. unfold assignKey. rewrite Hs.
  apply Z.leb_le in Hi. rewrite Hi. reflexivity.
Qed.

Lemma processLine_audio st line key value :
  Inv st -> currentSection st = lit "audio" ->
  keyValueOf line = Some (key, value) ->
  processLine st line
  = (a <- switchTrack (audioCases value) key (audio (result st))
            (trackIndex st) ;;
     Ok (withResult st (set_audio a (result st)))).
Proof.
  intros (_ & Ha & _) Hs Hkv. destruct (Ha Hs) as [_ Hi].
  rewrite processLine_other
    by eauto using keyValue_not_blank, keyValue_not_header.
  rewrite Hkv. unfold assignKey. rewrite Hs.
  apply Z.leb_le in Hi. rewrite Hi. reflexivity.
Qed.

Lemma processLine_text st line key value :
  Inv st -> currentSection st = lit "text" ->
  keyValueOf line = Some (key, value) ->
  processLine st line
  = (t <- switchTrack (textCases value) key (text (result st))
            (trackIndex st) ;;
     Ok (withResult st (set_text t (result st)))).
Proof.
  intros (_ & _ & Ht) Hs Hkv. destruct (Ht Hs) as [_ Hi].
  rewrite processLine_other
    by eauto using keyValue_not_blank, keyValue_not_header.
  rewrite Hkv. unfold assignKey. rewrite Hs.
  apply Z.leb_le in Hi. rewrite Hi. reflexivity.
Qed.

(** In a track section, a key of the table of normalized fields sets its
    field of the target track to the normalized value. *)
Lemma target_normalized {T} (cases : str -> list (string * caseBody T))
    (table : list (normalized T)) key value (t t' : T) :
  assignsNormalized cases table ->
  match lookup key (cases value) with
  | Some (Ok (Some f)) => t' = f t
  | _ => t' = t
  end ->
  forall label norm get,
    In (label, norm, get) table -> key = lit label ->
    get t' = Some (norm value).
Proof.
  intros Htab Hm label norm get Hin ->.
  pose proof (proj1 (Forall_forall _ _) Htab _ Hin value) as (f & E & Hf).
  rewrite E in Hm. unfold assign in Hm. subst t'. apply Hf.
Qed.

(** In a track section, the key Stream size sets the field to the size of
    the size part of the value, and leaves it alone without a size part. *)
Lemma target_streamSize {T} (cases : str -> list (string * caseBody T))
    (set : Num.number -> T -> T) (get : T -> option Num.number)
    value (t t' : T) :
  lookup (lit "Stream size") (cases value)
  = Some (streamSizeCase set value) ->
  (forall n x, get (set n x) = Some n) ->
  match lookup (lit "Stream size") (cases value) with
  | Some (Ok (Some f)) => t' = f t
  | _ => t' = t
  end ->
  get t' = match sizePart value with
           | Some w => Some (parseSize w)
           | None => get t
           end.
Proof.
  intros E Hget Hm. rewrite E, streamSizeCase_spec in Hm.
  destruct (sizePart value); simpl in Hm; subst t'; auto.
Qed.
(** ** Splitting and joining *)

Lemma splitBy_nonempty p x : splitBy p x <> [].
Proof.
  destruct x as [|c x]; simpl; [discriminate|].
  destruct (p c); [discriminate|].
  destruct (splitBy p x); discriminate.
Qed.

Lemma splitBy_token p x :
  forallb (fun c => negb (p c)) x = true -> splitBy p x = [x].
Proof.
  induction x as [|c x IH]; simpl; [reflexivity|].
  intros H. apply andb_true_iff in H. destruct H as [Hc Hx].
  apply negb_true_iff in Hc. rewrite Hc, (IH Hx). reflexivity.
Qed.

Lemma splitBy_app p x c y :
  forallb (fun c => negb (p c)) x = true -> p c = true ->
  splitBy p (x ++ c :: y) = x :: splitBy p y.
Proof.
  induction x as [|a x IH]; simpl; intros Hx Hc.
  - rewrite Hc. reflexivity.
  - apply andb_true_iff in Hx. destruct Hx as [Ha Hx].
    apply negb_true_iff in Ha. rewrite Ha, (IH Hx Hc). reflexivity.
Qed.

(** Splitting the tokens joined by a separator gives the tokens back. *)
Lemma split_joinWith sep tokens :
  tokens <> [] -> Forall (fun x => forallb (notChar sep) x = true) tokens ->
  split sep (joinWith sep tokens) = tokens.
Proof.
  unfold split. induction tokens as [|x tokens IH]; [congruence|].
  intros _ Hall. inversion Hall as [|? ? Hx Hrest]; subst.
  destruct tokens as [|y tokens].
  - simpl. apply splitBy_token. exact Hx.
  - change (joinWith sep (x :: y :: tokens))
      with (x ++ sep :: joinWith sep (y :: tokens)).
    rewrite splitBy_app; [|exact Hx|apply isChar_true; reflexivity].
    rewrite IH; [reflexivity|discriminate|exact Hrest].
Qed.

(** ** Reading integers *)

Lemma isDigit_code c : isDigit c = true -> 48 <= code c <= 57.
Proof.
  unfold isDigit. intros H. apply andb_true_iff in H.
  destruct H as [H1 H2]. apply Nat.leb_le in H1, H2. lia.
Qed.

Lemma isDigit_not_space c : isDigit c = true -> isSpace c = false.
Proof.
  intros H. apply isDigit_code in H. unfold isSpace.
  repeat match goal with
         | |- context [?a <=? ?b] => destruct (Nat.leb_spec a b)
         | |- context [?a =? ?b] => destruct (Nat.eqb_spec a b)
         end; simpl; try reflexivity; lia.
Qed.

Lemma isDigit_radix10 c : isDigit c = true -> isRadixDigit 10 c = true.
Proof.
  intros H. apply isDigit_code in H. unfold isRadixDigit, digitVal.
  destruct ((48 <=? Z.of_nat (code c))%Z && (Z.of_nat (code c) <=? 57)%Z)
    eqn:E.
  - apply Z.ltb_lt. lia.
  - apply andb_false_iff in E.
    destruct E as [E|E]; apply Z.leb_gt in E; lia.
Qed.

Lemma isDigit_not_sign c :
  isDigit c = true -> Ascii.eqb c "-" = false /\ Ascii.eqb c "+" = false.
Proof.
  intros H. apply isDigit_code in H.
  split; apply Ascii.eqb_neq; intros ->; vm_compute in H; lia.
Qed.

Lemma takeWhile_all p x : forallb p x = true -> takeWhile p x = x.
Proof.
  induction x as [|c x IH]; simpl; [reflexivity|].
  intros H. apply andb_true_iff in H. destruct H as [-> H].
  rewrite (IH H). reflexivity.
Qed.

Lemma forallb_impl (p q : ascii -> bool) x :
  (forall c, p c = true -> q c = true) ->
  forallb p x = true -> forallb q x = true.
Proof.
  intros Hpq. rewrite !forallb_forall. auto.
Qed.

(** [parseInt] reads a decimal integer as the number it denotes. *)
Lemma parseInt_numeral x :
  isNumeral x = true ->
  parseInt (Some x) radix10 = Num.of_Z (decValue x).
Proof.
  destruct x as [|c x]; [discriminate|]. intros H.
  change (isNumeral (c :: x)) with (forallb isDigit (c :: x)) in H.
  pose proof H as H'. simpl in H'. apply andb_true_iff in H'.
  destruct H' as [Hc _].
  unfold parseInt, toString, trimStart. simpl dropWhile.
  rewrite (isDigit_not_space _ Hc). unfold readSign.
  destruct (isDigit_not_sign _ Hc) as [-> ->].
  unfold radix10. cbn -[takeWhile radixValue skipn Z.ltb].
  rewrite (takeWhile_all (isRadixDigit 10) (c :: x))
    by (eapply forallb_impl; [apply isDigit_radix10 | exact H]).
  reflexivity.
Qed.
(** ** Durations *)

Lemma durationStep_contribution v u total :
  isNumeral v = true ->
  durationStep v (Some u) total
  = match contribution (Num.of_Z (decValue v)) u with
    | Some c => Num.add total c
    | None => total
    end.
Proof.
  intros Hv. unfold durationStep, contribution, optTest.
  fold radix10. rewrite (parseInt_numeral v Hv).
  repeat match goal with
         | |- context [if ?b then _ else _] => destruct b
         end; reflexivity.
Qed.

Lemma durationLoop_pairs pairs : forall total,
  forallb isDurationPair pairs = true ->
  durationLoop (flat_map (fun pair => [fst pair; snd pair]) pairs) total
  = fold_left
      (fun total pair =>
         match contribution (Num.of_Z (decValue (fst pair))) (snd pair) with
         | Some c => Num.add total c
         | None => total
         end)
      pairs total.
Proof.
  induction pairs as [|[v u] pairs IH]; intros total H; [reflexivity|].
  simpl in H. apply andb_true_iff in H. destruct H as [Hp H].
  apply andb_true_iff in Hp. destruct Hp as [Hv _].
  cbn [flat_map app fst snd durationLoop fold_left].
  rewrite (IH _ H), (durationStep_contribution v u total Hv). reflexivity.
Qed.

Lemma durationPairs_tokens pairs :
  forallb isDurationPair pairs = true ->
  Forall (fun x => forallb (notChar " ") x = true)
         (flat_map (fun pair => [fst pair; snd pair]) pairs).
Proof.
  induction pairs as [|[v u] pairs IH]; simpl; intros H; [constructor|].
  apply andb_true_iff in H. destruct H as [Hp H].
  apply andb_true_iff in Hp. destruct Hp as [Hv Hu]. simpl in Hv, Hu.
  constructor; [|constructor; [exact Hu | exact (IH H)]].
  destruct v as [|c v]; [discriminate|].
  eapply forallb_impl; [|exact Hv].
  intros a Ha. apply isDigit_code in Ha. unfold notChar.
  apply negb_true_iff, Ascii.eqb_neq. intros ->. vm_compute in Ha. lia.
Qed.
(** ** Sizes *)

Lemma parseSize_parts n unit :
  isToken n = true -> isToken unit = true ->
  parseSize (n ++ " "%char :: unit)
  = let lower := toLowerCase unit in
    Num.round
      (Num.mul (parseFloat (removeAll (isChar ",") n))
         match powerOf (Some lower) with
         | Some p =>
             Num.pow_Z (if includes (lit "ib") lower then 1024 else 1000) p
         | None => Num.NaN
         end).
Proof.
  intros Hn Hu. unfold parseSize, split.
  rewrite splitBy_app; [|exact Hn|reflexivity].
  rewrite (splitBy_token (isChar " ") unit Hu). reflexivity.
Qed.

(** In the unit table, the units with the letter i are those with ib. *)
Lemma powers_binary lower p :
  lookup lower powers = Some p ->
  includes (lit "ib") lower = existsb (isChar "i") lower
  /\ powerOf (Some lower) = Some p.
Proof.
  unfold powerOf, toString. intros H. rewrite H. split; [|reflexivity].
  revert H. unfold powers. cbn [lookup].
  repeat match goal with
         | |- context [str_eqb lower ?k] =>
             let E := fresh "E" in
             destruct (str_eqb lower k) eqn:E;
             [apply str_eqb_eq in E; subst lower; intros _; reflexivity|]
         end.
  discriminate.
Qed.

(** [parseSize] on a number and a unit of the unit table. *)
Lemma parseSize_table_unit n unit p :
  isToken n = true -> isToken unit = true -> unitPower unit = Some p ->
  parseSize (n ++ " "%char :: unit) = sizeInBytes n unit.
Proof.
  intros Hn Hu Hp. rewrite (parseSize_parts n unit Hn Hu).
  unfold sizeInBytes, isBinaryUnit. rewrite Hp. cbv zeta.
  unfold unitPower in Hp. destruct (powers_binary _ _ Hp) as [-> ->].
  reflexivity.
Qed.

(** [parseSize] on a number and a unit that is neither in the unit table
    nor the name of an inherited property. *)
Lemma parseSize_unknown_unit n unit :
  isToken n = true -> isToken unit = true ->
  unitPower unit = None -> isInheritedName unit = false ->
  parseSize (n ++ " "%char :: unit) = sizeInBytes n unit.
Proof.
  intros Hn Hu Hp Hi. rewrite (parseSize_parts n unit Hn Hu).
  unfold sizeInBytes. rewrite Hp. cbv zeta.
  unfold unitPower in Hp. unfold isInheritedName in Hi.
  unfold powerOf, toString. rewrite Hp, Hi.
  destruct (includes (lit "ib") (toLowerCase unit));
    destruct (isBinaryUnit unit); reflexivity.
Qed.

Lemma parseSize_examples :
  parseSize (lit "1.50 GiB") = Num.of_Z 1610612736
  /\ parseSize (lit "6.10 GB") = Num.of_Z 6100000000
  /\ parseSize (lit "1,024.5 kib") = Num.of_Z 1049088.
Proof. repeat split; vm_compute; reflexivity. Qed.
(** ** Priorities: the greedy and the lazy quantifier *)

(** A greedy quantifier followed by a pattern that cannot fail takes the
    longest run. *)
Lemma starGreedy_longest p k x : forall pos caps,
  (forall st, k st <> None) ->
  starGreedy p k pos x caps
  = k (Build_mstate (length (takeWhile p x) + pos) (dropWhile p x) caps).
Proof.
  induction x as [|c x IH]; simpl; intros pos caps Hk; [reflexivity|].
  destruct (p c); [|reflexivity].
  rewrite (IH (S pos) caps Hk). simpl. rewrite Nat.add_succ_r.
  destruct (k _) eqn:E; [reflexivity|]. apply Hk in E. contradiction.
Qed.

(** A lazy quantifier takes the shortest run after which the rest of the
    pattern matches. *)
Lemma starLazy_minimal p k x : forall pos caps m,
  starLazy p k pos x caps = Some m ->
  exists w after,
    x = w ++ after /\ forallb p w = true
    /\ k (Build_mstate (length w + pos) after caps) = Some m
    /\ forall a c b,
         w = a ++ c :: b ->
         k (Build_mstate (length a + pos) (c :: b ++ after) caps) = None.
Proof.
  induction x as [|c x IH]; simpl; intros pos caps m H;
    apply orElse_Some in H.
  - destruct H as [H | [_ H]]; [|discriminate].
    exists [], []. repeat split; auto. intros [|? ?] ? ? E; discriminate.
  - destruct H as [H | [Hn H]].
    + exists [], (c :: x). repeat split; auto.
      intros [|? ?] ? ? E; discriminate.
    + destruct (p c) eqn:Hc; [|discriminate].
      apply IH in H. destruct H as (w & after & -> & Hw & Hk & Hmin).
      exists (c :: w), after. simpl. rewrite Hc, Hw.
      rewrite Nat.add_succ_r in Hk. repeat split; auto.
      intros [|a0 a] c' b E; simpl in E; injection E as <- E.
      * subst w. exact Hn.
      * subst w. specialize (Hmin a c' b eq_refl).
        rewrite Nat.add_succ_r in Hmin. exact Hmin.
Qed.

Lemma rmatch_concat_cons a rs k st :
  rmatch (RConcat (a :: rs)) k st = rmatch a (rmatch (RConcat rs) k) st.
Proof. reflexivity. Qed.

(** The position at which the search succeeds. *)
Lemma searchFrom_start r x : forall pos m,
  searchFrom r pos x = Some m ->
  exists pre rest,
    x = pre ++ rest
    /\ rmatch r Some (Build_mstate (length pre + pos) rest []) = Some m.
Proof.
  induction x as [|c x IH]; simpl; intros pos m H;
    apply orElse_Some in H.
  - destruct H as [H | [_ H]]; [|discriminate]. exists [], []. auto.
  - destruct H as [H | [_ H]].
    + exists [], (c :: x). auto.
    + apply IH in H. destruct H as (pre & rest & -> & H).
      exists (c :: pre), rest. simpl. rewrite Nat.add_succ_r in H. auto.
Qed.

(** The end of the chapter pattern, a colon and the greedy group 2: it
    matches exactly when a colon comes next, and then takes the rest of the
    input up to the first line terminator. *)
Lemma chapter_tail_match pos x caps :
  rmatch (RConcat [RLit ":"; RGroup 2 (RStar true isDot)]) Some
    (Build_mstate pos x caps)
  = match x with
    | c :: tail =>
        if isChar ":" c
        then Some (Build_mstate (length (takeWhile isDot tail) + S pos)
                     (dropWhile isDot tail)
                     ((2, takeWhile isDot tail) :: caps))
        else None
    | [] => None
    end.
Proof.
  destruct x as [|c tail]; [reflexivity|].
  cbn -[starGreedy takeWhile dropWhile isDot].
  destruct (isChar ":" c); [|reflexivity].
  rewrite starGreedy_longest by discriminate.
  unfold setCap. cbn [m_pos m_rest m_caps].
  replace (length (takeWhile isDot tail) + S pos - S pos)
    with (length (takeWhile isDot tail)) by lia.
  f_equal. f_equal. f_equal. f_equal.
  clear. induction tail as [|a tail IH]; simpl; [reflexivity|].
  destruct (isDot a); simpl; [f_equal; exact IH | reflexivity].
Qed.
Lemma rmatch_star_lazy p k st :
  rmatch (RStar false p) k st
  = starLazy p k (m_pos st) (m_rest st) (m_caps st).
Proof. reflexivity. Qed.

(** The match of the chapter pattern, with its priorities: the title group
    starts after the first colon that follows the separator, and runs up to
    the first line terminator. *)
Lemma chapterRe_first_colon line caps :
  re_match chapterRe line = Some caps ->
  exists pre stamp ws1 ws2 mid tail,
    line = pre ++ stamp ++ ws1 ++ ":"%char :: ws2 ++ mid ++ ":"%char :: tail
    /\ isStamp stamp = true /\ isBlanks ws1 = true /\ isBlanks ws2 = true
    /\ forallb isDot mid = true /\ forallb (notChar ":") mid = true
    /\ caps = [(2, takeWhile isDot tail); (1, stamp)].
Proof.
  unfold re_match. destruct (searchFrom chapterRe 0 line) as [m|] eqn:H;
    [|discriminate].
  simpl. intros [= <-]. apply searchFrom_start in H.
  destruct H as (pre & rest & -> & H). unfold chapterRe in H.
  rewrite rmatch_concat_cons in H. apply rmatch_sound in H.
  destruct H as (stamp & r1 & c1 & E1 & D1 & H). simpl in E1. subst rest.
  apply -> den_group in D1. destruct D1 as (c1' & D1 & ->).
  apply den_stamp in D1. destruct D1 as [Hs ->].
  rewrite rmatch_concat_cons in H. apply rmatch_sound in H.
  destruct H as (ws1 & r2 & c2 & E2 & D2 & H). simpl in E2. subst r1.
  apply den_blanks in D2. destruct D2 as [H1 ->].
  rewrite rmatch_concat_cons in H. apply rmatch_sound in H.
  destruct H as (k1 & r3 & c3 & E3 & D3 & H). simpl in E3. subst r2.
  apply den_lit in D3. destruct D3 as [-> ->].
  rewrite rmatch_concat_cons in H. apply rmatch_sound in H.
  destruct H as (ws2 & r4 & c4 & E4 & D4 & H). simpl in E4. subst r3.
  apply den_blanks in D4. destruct D4 as [H2 ->].
  rewrite rmatch_concat_cons, rmatch_star_lazy in H.
  apply starLazy_minimal in H.
  destruct H as (mid & r5 & E5 & H3 & Hk & Hmin).
  cbn [m_pos m_rest m_caps] in *. subst r4.
  rewrite chapter_tail_match in Hk.
  destruct r5 as [|c tail]; [discriminate|].
  destruct (isChar ":" c) eqn:Hc; [|discriminate].
  apply isChar_true in Hc. subst c. injection Hk as <-.
  exists pre, stamp, ws1, ws2, mid, tail. cbn [m_caps].
  repeat split; auto.
  apply forallb_forall. intros x Hx. apply in_split in Hx.
  destruct Hx as (a & b & ->).
  specialize (Hmin a x b eq_refl). rewrite chapter_tail_match in Hmin.
  unfold notChar. unfold isChar in Hmin.
  destruct (Ascii.eqb x ":"); [discriminate | reflexivity].
Qed.
(** ** Timestamps *)

Lemma isDigit_not_x c :
  isDigit c = true ->
  Ascii.eqb "x" c = false /\ Ascii.eqb "X" c = false.
Proof.
  intros H. apply isDigit_code in H.
  split; apply Ascii.eqb_neq; intros <-; vm_compute in H; lia.
Qed.

Lemma numeral_no_hex_prefix x :
  forallb isDigit x = true ->
  startsWith (lit "0x") x || startsWith (lit "0X") x = false.
Proof.
  destruct x as [|c1 [|c2 x]];
    cbn [startsWith lit list_ascii_of_string forallb]; try reflexivity.
  - intros _. rewrite !andb_false_r. reflexivity.
  - intros H. apply andb_true_iff in H. destruct H as [_ H].
    apply andb_true_iff in H. destruct H as [H _].
    destruct (isDigit_not_x _ H) as [-> ->].
    rewrite !andb_false_r. reflexivity.
Qed.

(** [parseInt] without a radix reads a decimal integer as the number it
    denotes. *)
Lemma parseInt_numeral_default x :
  isNumeral x = true -> parseInt (Some x) None = Num.of_Z (decValue x).
Proof.
  destruct x as [|c x]; [discriminate|]. intros H.
  change (isNumeral (c :: x)) with (forallb isDigit (c :: x)) in H.
  pose proof H as H'. simpl in H'. apply andb_true_iff in H'.
  destruct H' as [Hc _].
  unfold parseInt, toString, trimStart. simpl dropWhile.
  rewrite (isDigit_not_space _ Hc). unfold readSign.
  destruct (isDigit_not_sign _ Hc) as [-> ->].
  cbn -[takeWhile radixValue skipn Z.ltb startsWith].
  pose proof (numeral_no_hex_prefix _ H) as Hx.
  cbn [lit list_ascii_of_string] in Hx. rewrite Hx.
  rewrite (takeWhile_all (isRadixDigit 10) (c :: x))
    by (eapply forallb_impl; [apply isDigit_radix10 | exact H]).
  reflexivity.
Qed.

Lemma isDigit_not_separator c :
  isDigit c = true -> negb (isChar ":" c || isChar "." c) = true.
Proof.
  intros H. apply isDigit_code in H. unfold isChar.
  destruct (Ascii.eqb_spec c ":") as [->|_];
    [vm_compute in H; lia|].
  destruct (Ascii.eqb_spec c ".") as [->|_];
    [vm_compute in H; lia|].
  reflexivity.
Qed.

(** For a timestamp with a period before the milliseconds, the code
    computes the formula of the specification. *)
Lemma chapterTimestamp_period stamp :
  isStampWith (isChar ".") stamp = true ->
  chapterTimestamp stamp = stampMillis stamp.
Proof.
  unfold isStampWith. intros H.
  destruct stamp as [|h1 [|h2 [|c1 [|m1 [|m2 [|c2 [|s1 [|s2 [|d [|f1 [|f2
                    [|f3 [|]]]]]]]]]]]]]; try discriminate.
  cbn [forallb] in H.
  repeat match goal with
         | H : _ && _ = true |- _ => apply andb_true_iff in H; destruct H
         end.
  repeat match goal with
         | H : isChar _ _ = true |- _ => apply isChar_true in H; subst
         end.
  unfold chapterTimestamp, stampMillis.
  change [h1; h2; ":"; m1; m2; ":"; s1; s2; "."; f1; f2; f3]%char
    with ([h1; h2] ++ ":"%char :: [m1; m2] ++ ":"%char :: [s1; s2]
            ++ "."%char :: [f1; f2; f3]).
  rewrite !splitBy_app, splitBy_token;
    try reflexivity;
    try (cbn [forallb]; rewrite !isDigit_not_separator by assumption;
         reflexivity).
  cbn [nth_error firstn skipn app].
  rewrite !parseInt_numeral_default
    by (cbn [isNumeral forallb]; rew_true; reflexivity).
  reflexivity.
Qed.
(** ** Chapter lines *)

Lemma chapterShapeWith_weaken (sep sep' : ascii -> bool) line :
  (forall c, sep c = true -> sep' c = true) ->
  chapterShapeWith sep line -> chapterShapeWith sep' line.
Proof.
  intros Hsep (pre & stamp & ws1 & ws2 & mid & tail & E & Hs & H).
  exists pre, stamp, ws1, ws2, mid, tail. split; [exact E|].
  split; [|exact H]. unfold isStampWith in *.
  destruct stamp as [|h1 [|h2 [|c1 [|m1 [|m2 [|c2 [|s1 [|s2 [|d [|f1 [|f2
                    [|f3 [|]]]]]]]]]]]]]; try discriminate.
  apply andb_true_iff in Hs. destruct Hs as [Hs Hd].
  rewrite Hs, (Hsep _ Hd). reflexivity.
Qed.

Lemma chapterOf_Some line ch :
  chapterOf line = Some ch ->
  exists pre stamp ws1 ws2 mid tail,
    line = pre ++ stamp ++ ws1 ++ ":"%char :: ws2 ++ mid ++ ":"%char :: tail
    /\ isStamp stamp = true /\ isBlanks ws1 = true /\ isBlanks ws2 = true
    /\ forallb isDot mid = true /\ forallb (notChar ":") mid = true
    /\ ch = {| timestamp := chapterTimestamp stamp;
               title := trim (takeWhile isDot tail) |}.
Proof.
  unfold chapterOf.
  destruct (re_match chapterRe line) as [caps|] eqn:H; [|discriminate].
  apply chapterRe_first_colon in H.
  destruct H as (pre & stamp & ws1 & ws2 & mid & tail & E & Hs & H1 & H2
                 & H3 & H4 & ->).
  cbn [group Nat.eqb]. intros [= <-].
  exists pre, stamp, ws1, ws2, mid, tail. auto 10.
Qed.

Lemma chapterOf_shape line :
  chapterShape line <-> exists ch, chapterOf line = Some ch.
Proof.
  split.
  - intros H. apply chapterRe_complete in H. destruct H as [caps H].
    unfold chapterOf. rewrite H. apply chapterRe_sound in H.
    destruct H as (pre & stamp & ws1 & ws2 & mid & rest & post & _ & _ & _
                   & _ & _ & _ & ->).
    cbn [group Nat.eqb]. eauto.
  - intros [ch H]. apply chapterOf_Some in H.
    destruct H as (pre & stamp & ws1 & ws2 & mid & tail & E & Hs & H1 & H2
                   & H3 & _).
    exists pre, stamp, ws1, ws2, mid, tail. auto.
Qed.

Lemma chapterShape_colon sep line :
  chapterShapeWith sep line -> In ":"%char line.
Proof.
  intros (pre & stamp & ws1 & ws2 & mid & tail & -> & _).
  apply in_or_app. right. apply in_or_app. right.
  apply in_or_app. right. left. reflexivity.
Qed.

(** A line with a chapter entry is neither blank nor a header line. *)
Lemma chapterShape_not_blank sep line :
  chapterShapeWith sep line -> isBlank line = false.
Proof.
  intros H. eapply isBlank_In; [exact (chapterShape_colon _ _ H)|reflexivity].
Qed.

Lemma chapterShape_not_header sep line :
  chapterShapeWith sep line -> headerName line = None.
Proof.
  intros H. destruct (headerName line) as [name|] eqn:E; [|reflexivity].
  apply header_no_colon in E. apply chapterShape_colon in H. tauto.
Qed.

Lemma menu_pushTrack section r : menu (pushTrack section r) = menu r.
Proof.
  unfold pushTrack.
  repeat match goal with
         | |- context [if ?b then _ else _] => destruct b
         end; reflexivity.
Qed.

(** A line of the Menu section. *)
Lemma processLine_menu st line :
  currentSection st = lit "menu" ->
  isBlank line = false -> headerName line = None ->
  processLine st line
  = Ok match chapterOf line with
       | Some ch => addChapter ch st
       | None => st
       end.
Proof.
  intros Hs Hb Hh. rewrite processLine_other by assumption.
  rewrite Hs. reflexivity.
Qed.
(** ** The properties of the specification *)

(** Claim C1. For the sample text with one General section (Complete name,
    File size 1.50 GiB, Duration 1 h 45 min 30 s) and one Video section
    (Width 1 920 pixels, Height 1 080 pixels, Frame rate 23.976 FPS),
    [parseMediaInfo] returns a record whose general part has the complete
    name /path/to/video.mp4, the file size 1610612736 and the duration
    6330000, and whose first video track has the width 1920 and the height
    1080. *)
Theorem C1_sample_report :
  exists r v,
    parseMediaInfo sampleText = Ok r
    /\ GeneralTrack.completeName (general r) = Some (lit "/path/to/video.mp4")
    /\ GeneralTrack.fileSize (general r) = Some (Num.of_Z 1610612736)
    /\ GeneralTrack.duration (general r) = Some (Num.of_Z 6330000)
    /\ nth_error (video r) 0 = Some v
    /\ VideoTrack.width v = Some (Num.of_Z 1920)
    /\ VideoTrack.height v = Some (Num.of_Z 1080).
Proof.
  eexists. eexists. split; [vm_compute; reflexivity|].
  repeat split; vm_compute; reflexivity.
Qed.

(** Claim C10. For every input string, the parser returns a record whose
    general part has neither [streamSize] nor [frameCount]: the type
    declares both properties, but no case of the general section assigns
    them. *)
Theorem C10_general_streamSize_frameCount_unset (input : str) :
  exists r,
    parseMediaInfo input = Ok r
    /\ GeneralTrack.streamSize (general r) = None
    /\ GeneralTrack.frameCount (general r) = None.
Proof.
  destruct (parseMediaInfo_ok input) as (st & E & _ & ->).
  exists (result st). split; [reflexivity|].
  revert E.
  apply (forLines_invariant
           (fun st => GeneralTrack.streamSize (general (result st)) = None
                      /\ GeneralTrack.frameCount (general (result st)) = None));
    [|exact Inv_initialState|split; reflexivity].
  clear st. intros st line st' HI [H1 H2] E.
  destruct (processLine_cases st line st' HI E)
    as [(_ & _ & -> & _)|[(name & _ & ->)|(_ & _ & [(ch & _ & _ & ->)|[->
       |(key & value & r' & _ & _ & He & ->)]])]]; simpl; auto.
  - rewrite general_pushTrack. auto.
  - apply general_keyEffect in He. destruct He as [-> ->]. auto.
Qed.

(** Claim C4. For every input text and each of the sections Video, Audio
    and Text: the sequence of the result has as many tracks as the text has
    header lines of that section (the section name, optionally followed by
    an ordinal suffix such as " #2"), one per header line and in the order
    of the header lines: after any number [n] of lines there is one track
    per header line read so far, and all of them but the last one are, at
    the same index, the tracks of the final result. *)
Theorem C4_one_track_per_header (input : str) :
  let lines := split chr_nl input in
  exists r,
    parseMediaInfo input = Ok r
    /\ length (video r) = countHeaders "Video" lines
    /\ length (audio r) = countHeaders "Audio" lines
    /\ length (text r) = countHeaders "Text" lines
    /\ forall n, exists st,
         forLines (firstn n lines) initialState = Ok st
         /\ length (video (result st)) = countHeaders "Video" (firstn n lines)
         /\ length (audio (result st)) = countHeaders "Audio" (firstn n lines)
         /\ length (text (result st)) = countHeaders "Text" (firstn n lines)
         /\ frozen (video (result st)) (video r)
         /\ frozen (audio (result st)) (audio r)
         /\ frozen (text (result st)) (text r).
Proof.
  intros lines. destruct (parseMediaInfo_ok input) as (st & E & HI & ->).
  fold lines in E. exists (result st). split; [reflexivity|].
  destruct (forLines_tracks lines _ _ Inv_initialState E)
    as ((Lv & _) & (La & _) & (Lt & _)).
  simpl in Lv, La, Lt. repeat split; try assumption.
  intros n. rewrite <- (firstn_skipn n lines) in E.
  rewrite forLines_app in E.
  destruct (forLines_ok (firstn n lines) _ Inv_initialState)
    as (st1 & E1 & HI1).
  rewrite E1 in E. simpl in E. exists st1. split; [exact E1|].
  destruct (forLines_tracks _ _ _ Inv_initialState E1)
    as ((Lv1 & _) & (La1 & _) & (Lt1 & _)).
  destruct (forLines_tracks _ _ _ HI1 E)
    as ((_ & Fv) & (_ & Fa) & (_ & Ft)).
  simpl in Lv1, La1, Lt1. auto 10.
Qed.

(** Claim C8. A blank line resets the current section to the unset state,
    the empty string; so a key-value line that comes after a blank line and
    before the next header line does nothing: it changes no field of the
    general record or of a track, and adds no chapter. Here [pre] are the
    lines before the blank line and [mid] the lines between the blank line
    and the key-value line, none of them a header line. *)
Theorem C8_blank_line_unsets_section
    (pre : list str) (blank : str) (mid : list str) (line : str) :
  isBlank blank = true ->
  Forall (fun l => headerName l = None) mid ->
  keyValueOf line <> None ->
  exists st0 st1 st2,
    forLines pre initialState = Ok st0
    /\ processLine st0 blank
       = Ok {| result := result st0; currentSection := [];
               trackIndex := trackIndex st0 |}
    /\ forLines (pre ++ blank :: mid) initialState = Ok st1
    /\ currentSection st1 = []
    /\ processLine st1 line = Ok st2
    /\ result st2 = result st1.
Proof.
  intros Hb Hmid Hkv.
  destruct (forLines_ok pre initialState Inv_initialState) as (st0 & E0 & _).
  pose proof (processLine_blank st0 blank Hb) as Eb.
  set (stb := {| result := result st0; currentSection := [];
                 trackIndex := trackIndex st0 |}) in *.
  destruct (forLines_unset mid stb eq_refl Hmid)
    as (st1 & E1 & Hs1 & Hr1 & _).
  assert (Hh : headerName line = None).
  { destruct (keyValueOf line) as [kv|] eqn:E; [|congruence].
    eapply keyValue_not_header; eauto. }
  destruct (processLine_unset st1 line Hs1 Hh) as (st2 & E2 & _ & Hr2 & _).
  exists st0, st1, st2. repeat split; auto.
  rewrite forLines_app, E0. simpl. rewrite Eb. simpl. exact E1.
Qed.

(** The claim C8 at work: a blank line, then a key-value line of the general
    section that would otherwise set the format. *)
Lemma C8_blank_line_unsets_section_witness :
  exists st0 st1 st2,
    forLines [lit "General"] initialState = Ok st0
    /\ processLine st0 (lit "  ")
       = Ok {| result := result st0; currentSection := [];
               trackIndex := trackIndex st0 |}
    /\ forLines ([lit "General"] ++ lit "  " :: [lit "Note : x"]) initialState
       = Ok st1
    /\ currentSection st1 = []
    /\ processLine st1 (lit "Format : MPEG-4") = Ok st2
    /\ result st2 = result st1.
Proof.
  apply (C8_blank_line_unsets_section [lit "General"] (lit "  ")
           [lit "Note : x"] (lit "Format : MPEG-4")).
  - reflexivity.
  - repeat constructor.
  - vm_compute. discriminate.
Defined.

(** Claim C5, as it fails: in the Menu section the lines are read as chapter
    entries only, so a key-value line with the unknown key UnknownKey whose
    value holds a timestamp entry adds a chapter to the result. *)
Lemma C5_counterexample_menu_section :
  keyValueOf (lit "UnknownKey : 00:00:01.000 : en:Oops")
  = Some (lit "UnknownKey", lit "00:00:01.000 : en:Oops")
  /\ knownKey (sectionAfter [lit "Menu"]) (lit "UnknownKey") = false
  /\ (exists r, parseMediaInfo (unlines ["Menu"]%string) = Ok r
                /\ menu r = [])
  /\ (exists r,
        parseMediaInfo
          (unlines ["Menu"; "UnknownKey : 00:00:01.000 : en:Oops"]%string)
        = Ok r
        /\ menu r = [ {| timestamp := Num.of_Z 1000; title := lit "Oops" |} ]).
Proof.
  split; [vm_compute; reflexivity|].
  split; [vm_compute; reflexivity|].
  split; eexists; split; vm_compute; reflexivity.
Qed.

(** Claim C5, amended. [parseMediaInfo] raises no error, whatever the
    string [any]. And inserting, at any line position, a key-value line
    whose key is outside the vocabulary of the section in effect there
    leaves the whole result unchanged, provided that, when that section is
    Menu, the line holds no chapter entry. Here [input] has the lines
    [pre ++ post] and [input'] has the line inserted between them. *)
Theorem C5_unknown_key_line_changes_nothing
    (any input input' : str) (pre post : list str) (line key value : str) :
  split chr_nl input = pre ++ post ->
  split chr_nl input' = pre ++ line :: post ->
  keyValueOf line = Some (key, value) ->
  knownKey (sectionAfter pre) key = false ->
  (sectionAfter pre = lit "menu" -> chapterOf line = None) ->
  (exists r, parseMediaInfo any = Ok r)
  /\ exists r, parseMediaInfo input = Ok r /\ parseMediaInfo input' = Ok r.
Proof.
  intros E E' Hkv Hk Hm. split.
  { destruct (parseMediaInfo_ok any) as (st & _ & _ & H). eauto. }
  unfold parseMediaInfo. rewrite E, E', !forLines_app.
  unfold sectionAfter in Hk, Hm.
  destruct (forLines_ok pre initialState Inv_initialState) as (st & Ep & HI).
  rewrite Ep in *. cbn [bind forLines].
  rewrite (processLine_unknown st line key value Hkv Hk Hm). cbn [bind].
  destruct (forLines_ok post st HI) as (st' & -> & _). simpl. eauto.
Qed.

(** The amended claim C5 at work: the line UnknownKey : value, inserted in
    a Video section. *)
Lemma C5_unknown_key_line_changes_nothing_witness :
  (exists r, parseMediaInfo (lit "Video : : #") = Ok r)
  /\ exists r,
       parseMediaInfo (unlines ["Video"; "Width : 1 920 pixels"]%string)
       = Ok r
       /\ parseMediaInfo
            (unlines ["Video"; "UnknownKey : value";
                      "Width : 1 920 pixels"]%string) = Ok r.
Proof.
  apply (C5_unknown_key_line_changes_nothing
           (lit "Video : : #")
           (unlines ["Video"; "Width : 1 920 pixels"]%string)
           (unlines ["Video"; "UnknownKey : value";
                     "Width : 1 920 pixels"]%string)
           [lit "Video"] [lit "Width : 1 920 pixels"]
           (lit "UnknownKey : value") (lit "UnknownKey") (lit "value")).
  - reflexivity.
  - reflexivity.
  - vm_compute. reflexivity.
  - vm_compute. reflexivity.
  - vm_compute. discriminate.
Defined.

(** Claim C9, as it fails: the case Stream size assigns only when the value
    holds a number followed by white space and letters. For the value
    "unknown" the normalizer [parseSize] computes NaN, and yet the field
    [streamSize] of the video track is left unset. *)
Lemma C9_counterexample_stream_size :
  keyValueOf (lit "Stream size : unknown")
  = Some (lit "Stream size", lit "unknown")
  /\ parseSize (lit "unknown") = Num.NaN
  /\ exists r v,
       parseMediaInfo (unlines ["Video"; "Stream size : unknown"]%string)
       = Ok r
       /\ video r = [v] /\ VideoTrack.streamSize v = None.
Proof.
  split; [vm_compute; reflexivity|].
  split; [vm_compute; reflexivity|].
  eexists. eexists. split; [vm_compute; reflexivity|].
  split; reflexivity.
Qed.

(** Claim C9, amended. After any lines [pre], a key-value line never aborts
    the parse, and for every recognized key with a normalizer other than
    Stream size, whatever the value string, the field of the target (the
    general record, or the track at the track index) is assigned what the
    normalizer computes on the value. The key Stream size of the video,
    audio and text sections assigns the size of the first part of the value
    that is a number, white space and letters, and leaves the field as it
    was when the value has no such part. *)
Theorem C9_normalized_value_is_stored
    (pre : list str) (line key value : str) :
  keyValueOf line = Some (key, value) ->
  exists st st',
    forLines pre initialState = Ok st
    /\ processLine st line = Ok st'
    /\ (currentSection st = lit "general" ->
        forall label norm get,
          In (label, norm, get) generalNormalized -> key = lit label ->
          get (general (result st')) = Some (norm value))
    /\ (currentSection st = lit "video" ->
        exists t t',
          target (video (result st)) st = Some t
          /\ target (video (result st')) st = Some t'
          /\ (forall label norm get,
                In (label, norm, get) videoNormalized -> key = lit label ->
                get t' = Some (norm value))
          /\ (key = lit "Stream size" ->
              VideoTrack.streamSize t'
              = match sizePart value with
                | Some w => Some (parseSize w)
                | None => VideoTrack.streamSize t
                end))
    /\ (currentSection st = lit "audio" ->
        exists t t',
          target (audio (result st)) st = Some t
          /\ target (audio (result st')) st = Some t'
          /\ (forall label norm get,
                In (label, norm, get) audioNormalized -> key = lit label ->
                get t' = Some (norm value))
          /\ (key = lit "Stream size" ->
              AudioTrack.streamSize t'
              = match sizePart value with
                | Some w => Some (parseSize w)
                | None => AudioTrack.streamSize t
                end))
    /\ (currentSection st = lit "text" ->
        exists t t',
          target (text (result st)) st = Some t
          /\ target (text (result st')) st = Some t'
          /\ (forall label norm get,
                In (label, norm, get) textNormalized -> key = lit label ->
                get t' = Some (norm value))
          /\ (key = lit "Stream size" ->
              TextTrack.streamSize t'
              = match sizePart value with
                | Some w => Some (parseSize w)
                | None => TextTrack.streamSize t
                end)).
Proof.
  intros Hkv.
  destruct (forLines_ok pre initialState Inv_initialState) as (st & E & HI).
  destruct (processLine_ok st line HI) as (st' & E' & _).
  exists st, st'. split; [exact E|]. split; [exact E'|].
  split; [|split; [|split]]; intros Hs; unfold target.
  - intros label norm get Hin ->.
    rewrite (processLine_general st line _ value Hs Hkv) in E'.
    pose proof (proj1 (Forall_forall _ _) generalNormalized_assigned _ Hin
                  value) as (f & Ef & Hf).
    rewrite Ef in E'. injection E' as <-. simpl. apply Hf.
  - pose proof (proj1 HI Hs) as HI0.
    destruct (lastIndex_target _ _ HI0) as [t Ht].
    destruct (switchTrack_target (videoCases value) key _ _ t
                (videoCases_ok value) Ht) as (v' & t' & Ev & Ht' & Hm).
    rewrite (processLine_video st line key value HI Hs Hkv), Ev in E'.
    injection E' as <-.
    cbn [result withResult video audio text set_video set_audio set_text].
    exists t, t'. split; [exact Ht|]. split; [exact Ht'|]. split.
    + eapply target_normalized; eauto using videoNormalized_assigned.
    + intros ->.
      apply (target_streamSize videoCases VideoTrack.set_streamSize); auto.
  - pose proof (proj1 (proj2 HI) Hs) as HI0.
    destruct (lastIndex_target _ _ HI0) as [t Ht].
    destruct (switchTrack_target (audioCases value) key _ _ t
                (audioCases_ok value) Ht) as (v' & t' & Ev & Ht' & Hm).
    rewrite (processLine_audio st line key value HI Hs Hkv), Ev in E'.
    injection E' as <-.
    cbn [result withResult video audio text set_video set_audio set_text].
    exists t, t'. split; [exact Ht|]. split; [exact Ht'|]. split.
    + eapply target_normalized; eauto using audioNormalized_assigned.
    + intros ->.
      apply (target_streamSize audioCases AudioTrack.set_streamSize); auto.
  - pose proof (proj2 (proj2 HI) Hs) as HI0.
    destruct (lastIndex_target _ _ HI0) as [t Ht].
    destruct (switchTrack_target (textCases value) key _ _ t
                (textCases_ok value) Ht) as (v' & t' & Ev & Ht' & Hm).
    rewrite (processLine_text st line key value HI Hs Hkv), Ev in E'.
    injection E' as <-.
    cbn [result withResult video audio text set_video set_audio set_text].
    exists t, t'. split; [exact Ht|]. split; [exact Ht'|]. split.
    + eapply target_normalized; eauto using textNormalized_assigned.
    + intros ->.
      apply (target_streamSize textCases TextTrack.set_streamSize); auto.
Qed.

(** The amended claim C9 at work: in a Video section, the bit rate of the
    line Bit rate : unknown is stored as the normalizer computes it. *)
Lemma C9_normalized_value_is_stored_witness :
  keyValueOf (lit "Bit rate : unknown") = Some (lit "Bit rate", lit "unknown")
  /\ exists st st' t',
       forLines [lit "Video"] initialState = Ok st
       /\ processLine st (lit "Bit rate : unknown") = Ok st'
       /\ target (video (result st')) st = Some t'
       /\ option_map VNumber (VideoTrack.bitRate t')
          = Some (VNumber (parseBitRate (lit "unknown"))).
Proof.
  assert (H : keyValueOf (lit "Bit rate : unknown")
              = Some (lit "Bit rate", lit "unknown"))
    by (vm_compute; reflexivity).
  split; [exact H|].
  destruct (C9_normalized_value_is_stored [lit "Video"] _ _ _ H)
    as (st & st' & E & E' & _ & Hv & _).
  assert (Hs : currentSection st = lit "video").
  { vm_compute in E. injection E as <-. reflexivity. }
  destruct (Hv Hs) as (t & t' & _ & Ht' & Hn & _).
  exists st, st', t'. repeat split; try assumption.
  apply (Hn "Bit rate"%string (fun value => VNumber (parseBitRate value))
            (fun v => option_map VNumber (VideoTrack.bitRate v))).
  - simpl. auto.
  - reflexivity.
Defined.

(** Claim C3. For every duration string made of pairs of an integer and a
    unit token, separated by single spaces, [parseDuration] returns the
    sum, over the pairs, of the integer times 3600000 for a unit that
    starts with h, times 60000 for a unit that starts with min (tested
    before the units that start with s), times 1000 for a unit that starts
    with s, and times 1 for ms; a pair with another unit token adds
    nothing. The products and the sum are those of JavaScript numbers. *)
Theorem C3_duration_is_sum_of_pairs (pairs : list (str * str)) :
  forallb isDurationPair pairs = true ->
  parseDuration (durationString pairs) = durationSum pairs.
Proof.
  intros H. unfold parseDuration, durationString, durationSum.
  destruct pairs as [|p pairs]; [reflexivity|].
  rewrite split_joinWith.
  - apply durationLoop_pairs. exact H.
  - destruct p. discriminate.
  - apply durationPairs_tokens. exact H.
Qed.

(** The claim C3 at work: 1 h 45 min 30 s is 6330000 milliseconds. *)
Lemma C3_duration_is_sum_of_pairs_witness :
  forallb isDurationPair
    [(lit "1", lit "h"); (lit "45", lit "min"); (lit "30", lit "s")] = true
  /\ durationString
       [(lit "1", lit "h"); (lit "45", lit "min"); (lit "30", lit "s")]
     = lit "1 h 45 min 30 s"
  /\ parseDuration (lit "1 h 45 min 30 s") = Num.of_Z 6330000.
Proof.
  split; [reflexivity|]. split; [reflexivity|].
  change (lit "1 h 45 min 30 s")
    with (durationString
            [(lit "1", lit "h"); (lit "45", lit "min"); (lit "30", lit "s")]).
  rewrite C3_duration_is_sum_of_pairs by reflexivity.
  vm_compute. reflexivity.
Defined.

(** Claim C6, as it fails: the chapter pattern is searched anywhere in the
    line, so a line of the Menu section whose hours have three digits, not
    of the exact shape, still adds a chapter, read from its second
    character on. *)
Lemma C6_counterexample_three_hour_digits :
  isStampWith (isChar ".") (firstn 12 (lit "100:23:50.000 : en:Chapter 5"))
  = false
  /\ exists r,
       parseMediaInfo
         (unlines ["Menu"; "100:23:50.000 : en:Chapter 5"]%string) = Ok r
       /\ menu r = [ {| timestamp := Num.of_Z 1430000;
                        title := lit "Chapter 5" |} ].
Proof.
  split; [reflexivity|].
  eexists. split; vm_compute; reflexivity.
Qed.

(** Claim C6, amended. While the current section is Menu, a line adds one
    chapter when some part of it, not necessarily the whole line, has the
    chapter shape: a timestamp of two digits, a colon, two digits, a colon,
    two digits, a period and three digits, then white space, a colon, white
    space, and a tail with a further colon and no line terminator before
    it. A line adds no chapter when no part of it has this shape, even with
    any character in the place of the period. *)
Theorem C6_chapter_line_shape (st : ParseState) (line : str) :
  currentSection st = lit "menu" ->
  exists st',
    processLine st line = Ok st'
    /\ (chapterShapeWith (isChar ".") line ->
        exists ch, menu (result st') = menu (result st) ++ [ch])
    /\ (~ chapterShapeWith (fun _ => true) line ->
        menu (result st') = menu (result st)).
Proof.
  intros Hs. destruct (isBlank line) eqn:Hb.
  { rewrite processLine_blank by exact Hb. eexists.
    split; [reflexivity|]. split; [|reflexivity].
    intros H. apply chapterShape_not_blank in H. congruence. }
  destruct (headerName line) as [name|] eqn:Hh.
  { rewrite (processLine_header _ _ _ Hh). eexists.
    split; [reflexivity|]. split.
    - intros H. apply chapterShape_not_header in H. congruence.
    - intros _. apply menu_pushTrack. }
  rewrite (processLine_menu st line Hs Hb Hh).
  eexists. split; [reflexivity|].
  destruct (chapterOf line) as [ch|] eqn:E; split.
  - intros _. exists ch. reflexivity.
  - intros Hn. exfalso. apply Hn.
    apply (chapterShapeWith_weaken isDot); [reflexivity|].
    apply chapterOf_shape. eauto.
  - intros H. exfalso.
    assert (Hd : chapterShape line).
    { apply (chapterShapeWith_weaken (isChar ".")); [|exact H].
      intros c Hc. apply isChar_true in Hc. subst c. reflexivity. }
    apply chapterOf_shape in Hd. destruct Hd as [ch Hd]. congruence.
  - reflexivity.
Qed.

(** The amended claim C6 at work, after the header line Menu: the line of
    the chapter scenario adds a chapter, a line with a one-digit hour adds
    none. *)
Lemma C6_chapter_line_shape_witness :
  exists st,
    forLines [lit "Menu"] initialState = Ok st
    /\ currentSection st = lit "menu"
    /\ (exists st' ch,
          processLine st (lit "00:23:50.000 : en:Chapter 5") = Ok st'
          /\ menu (result st') = menu (result st) ++ [ch])
    /\ (exists st',
          processLine st (lit "0:23:50.000 : en:Chapter 5") = Ok st'
          /\ menu (result st') = menu (result st)).
Proof.
  eexists. split; [vm_compute; reflexivity|].
  split; [reflexivity|]. split.
  - destruct (C6_chapter_line_shape
                {| result := emptyResult; currentSection := lit "menu";
                   trackIndex := (-1)%Z |}
                (lit "00:23:50.000 : en:Chapter 5") eq_refl)
      as (st' & E & H & _).
    destruct H as [ch H].
    + exists [], (lit "00:23:50.000"), (lit " "), (lit " "), (lit "en"),
        (lit "Chapter 5").
      repeat split.
    + exists st', ch. split; [exact E | exact H].
  - destruct (C6_chapter_line_shape
                {| result := emptyResult; currentSection := lit "menu";
                   trackIndex := (-1)%Z |}
                (lit "0:23:50.000 : en:Chapter 5") eq_refl)
      as (st' & E & _ & H).
    exists st'. split; [exact E|].
    vm_compute in E. injection E as <-. reflexivity.
Defined.

(** Claim C7, as it fails: with two colons after the separator, the title
    is the text after the first of them, not after the last colon of the
    line. *)
Lemma C7_counterexample_title_after_first_colon :
  trim (afterLastColon (lit "00:23:50.000 : en:Chapter 5: The End"))
  = lit "The End"
  /\ exists r,
       parseMediaInfo
         (unlines ["Menu"; "00:23:50.000 : en:Chapter 5: The End"]%string)
       = Ok r
       /\ menu r = [ {| timestamp := Num.of_Z 1430000;
                        title := lit "Chapter 5: The End" |} ].
Proof.
  split; [vm_compute; reflexivity|].
  eexists. split; vm_compute; reflexivity.
Qed.

(** Claim C7, amended. For every line of the Menu section on which the
    chapter pattern matches, with the chapter [ch] read off it, the line
    adds [ch], and the line is made of some text, the matched timestamp,
    white space, a colon, white space, a part [mid] without a colon, a
    colon and a tail, such that the title of [ch] is the tail up to its
    first line terminator, trimmed: the text after the first colon that
    follows the separator. When the timestamp has a period before its
    milliseconds, the timestamp of [ch] is hours times 3600000 plus minutes
    times 60000 plus seconds times 1000 plus milliseconds. *)
Theorem C7_chapter_timestamp_and_title
    (st : ParseState) (line : str) (ch : Chapter) :
  currentSection st = lit "menu" ->
  chapterOf line = Some ch ->
  processLine st line = Ok (addChapter ch st)
  /\ exists pre stamp ws1 ws2 mid tail,
       line = pre ++ stamp ++ ws1 ++ ":"%char :: ws2 ++ mid
                  ++ ":"%char :: tail
       /\ isStamp stamp = true
       /\ isBlanks ws1 = true /\ isBlanks ws2 = true
       /\ forallb (notChar ":") mid = true
       /\ title ch = trim (takeWhile isDot tail)
       /\ (isStampWith (isChar ".") stamp = true ->
           timestamp ch = stampMillis stamp).
Proof.
  intros Hs Hch.
  assert (Hshape : chapterShape line) by (apply chapterOf_shape; eauto).
  split.
  - rewrite (processLine_menu st line Hs
               (chapterShape_not_blank _ _ Hshape)
               (chapterShape_not_header _ _ Hshape)).
    rewrite Hch. reflexivity.
  - apply chapterOf_Some in Hch.
    destruct Hch as (pre & stamp & ws1 & ws2 & mid & tail & E & H0 & H1
                     & H2 & _ & H4 & ->).
    exists pre, stamp, ws1, ws2, mid, tail. cbn [title timestamp].
    repeat split; auto. apply chapterTimestamp_period.
Qed.

(** The amended claim C7 at work: the line of the chapter scenario gives
    the timestamp 1430000 and the title Chapter 5. *)
Lemma C7_chapter_timestamp_and_title_witness :
  chapterOf (lit "00:23:50.000 : en:Chapter 5")
  = Some {| timestamp := Num.of_Z 1430000; title := lit "Chapter 5" |}
  /\ processLine
       {| result := emptyResult; currentSection := lit "menu";
          trackIndex := (-1)%Z |}
       (lit "00:23:50.000 : en:Chapter 5")
     = Ok {| result :=
               set_menu [ {| timestamp := Num.of_Z 1430000;
                             title := lit "Chapter 5" |} ] emptyResult;
             currentSection := lit "menu"; trackIndex := (-1)%Z |}.
Proof.
  assert (H : chapterOf (lit "00:23:50.000 : en:Chapter 5")
              = Some {| timestamp := Num.of_Z 1430000;
                        title := lit "Chapter 5" |})
    by (vm_compute; reflexivity).
  split; [exact H|].
  exact (proj1 (C7_chapter_timestamp_and_title
                  {| result := emptyResult; currentSection := lit "menu";
                     trackIndex := (-1)%Z |}
                  (lit "00:23:50.000 : en:Chapter 5") _ eq_refl H)).
Defined.

(** Claim C2, where the code misses it. The claim holds for every unit of
    the unit table ([parseSize_table_unit]) and for every unknown unit that
    is not the name of an inherited property ([parseSize_unknown_unit]).
    But the unit "constructor" is not in the table, so that the claim gives
    the power 0 and the size 5 for "5 constructor", and the code returns
    NaN: [powers[unit]] reads the property that the object inherits, which
    is not a number. *)
Theorem C2_inherited_name_as_unit :
  isToken (lit "5") = true
  /\ isToken (lit "constructor") = true
  /\ unitPower (lit "constructor") = None
  /\ sizeInBytes (lit "5") (lit "constructor") = Num.of_Z 5
  /\ parseSize (lit "5 constructor") = Num.NaN.
Proof. repeat split; vm_compute; reflexivity. Qed.

(** ** Further properties of the parser *)

Lemma state_eq st st' :
  result st' = result st -> currentSection st' = currentSection st ->
  trackIndex st' = trackIndex st -> st' = st.
Proof. destruct st, st'. simpl. intros -> -> ->. reflexivity. Qed.

(** Lines without a header line, read from the start, change nothing. *)
Lemma forLines_no_header pre rest :
  Forall (fun l => headerName l = None) pre ->
  forLines (pre ++ rest) initialState = forLines rest initialState.
Proof.
  intros Hpre. rewrite forLines_app.
  destruct (forLines_unset pre initialState eq_refl Hpre)
    as (st & -> & Hs & Hr & Hi).
  rewrite (state_eq initialState st Hr Hs Hi). reflexivity.
Qed.

(** Property X1. The lines before the first header line are ignored: a text
    whose first lines [pre] hold no header line is parsed as the remaining
    lines [rest] alone. With no header line at all the result is the empty
    record. *)
Theorem X1_lines_before_first_header_are_ignored
    (input : str) (pre rest : list str) :
  split chr_nl input = pre ++ rest ->
  Forall (fun l => headerName l = None) pre ->
  parseMediaInfo input
  = (st <- forLines rest initialState ;; Ok (result st)).
Proof.
  intros E Hpre. unfold parseMediaInfo.
  rewrite E, (forLines_no_header pre rest Hpre). reflexivity.
Qed.

(** The property X1 at work: key-value lines without a header give the
    empty record. *)
Lemma X1_lines_before_first_header_are_ignored_witness :
  parseMediaInfo (unlines ["Format : AVC"; ""; "Width : 1 920 pixels"]%string)
  = Ok emptyResult.
Proof.
  apply (X1_lines_before_first_header_are_ignored
           (unlines ["Format : AVC"; ""; "Width : 1 920 pixels"]%string)
           [lit "Format : AVC"; []; lit "Width : 1 920 pixels"] []).
  - reflexivity.
  - repeat constructor.
Defined.

Lemma last_app_single (x : str) c d : last (x ++ [c]) d = c.
Proof. apply last_last. Qed.

Lemma last_app_nonempty (a b : str) d : b <> [] -> last (a ++ b) d = last b d.
Proof.
  intros Hb. destruct (exists_last Hb) as (b' & c & ->).
  rewrite app_assoc, !last_last. reflexivity.
Qed.

Lemma last_forallb (p : ascii -> bool) (x : str) d :
  x <> [] -> forallb p x = true -> p (last x d) = true.
Proof.
  intros Hne H. rewrite forallb_forall in H. apply H.
  destruct x as [|c x]; [congruence|].
  destruct (exists_last (l := c :: x)) as (x' & a & E); [discriminate|].
  rewrite E, last_last. apply in_or_app. right. left. reflexivity.
Qed.

(** A header line ends with a letter or a digit. *)
Lemma header_last_char line name :
  headerName line = Some name ->
  isAlpha (last line " "%char) || isDigit (last line " "%char) = true.
Proof.
  intros H. apply headerName_Some in H.
  destruct H as (Hin & rest & -> & Hs).
  destruct rest as [|a [|b [|d ds]]]; try discriminate.
  - rewrite app_nil_r. unfold sectionNames in Hin. simpl in Hin.
    destruct Hin as [<-|[<-|[<-|[<-|[<-|[]]]]]]; reflexivity.
  - simpl in Hs. apply andb_true_iff in Hs. destruct Hs as [_ Hd].
    change (a :: b :: d :: ds) with ([a; b] ++ d :: ds).
    rewrite app_assoc, last_app_nonempty by discriminate.
    rewrite (last_forallb isDigit (d :: ds)); [|discriminate|exact Hd].
    apply orb_true_r.
Qed.

(** Property X2. A text with CRLF line endings, where every line is empty
    or ends with a carriage return, is parsed to the empty record: no line
    that ends with a carriage return is a header line. *)
Theorem X2_carriage_returns_hide_every_header (input : str) :
  Forall (fun l => l = [] \/ exists l', l = l' ++ [chr_cr])
         (split chr_nl input) ->
  parseMediaInfo input = Ok emptyResult.
Proof.
  intros H. unfold parseMediaInfo.
  rewrite <- (app_nil_r (split chr_nl input)), forLines_no_header;
    [reflexivity|].
  eapply Forall_impl; [|exact H]. intros l [-> | [l' ->]]; [reflexivity|].
  destruct (headerName (l' ++ [chr_cr])) as [name|] eqn:E; [|reflexivity].
  apply header_last_char in E. rewrite last_app_single in E. discriminate.
Qed.

(** The property X2 at work: a General section with CRLF line endings. *)
Lemma X2_carriage_returns_hide_every_header_witness :
  parseMediaInfo
    (joinWith chr_nl
       [lit "General" ++ [chr_cr]; lit "Format : AVC" ++ [chr_cr]; []])
  = Ok emptyResult.
Proof.
  apply X2_carriage_returns_hide_every_header.
  change (split chr_nl
            (joinWith chr_nl
               [lit "General" ++ [chr_cr]; lit "Format : AVC" ++ [chr_cr];
                []]))
    with [lit "General" ++ [chr_cr]; lit "Format : AVC" ++ [chr_cr]; []].
  apply Forall_cons; [right; exists (lit "General"); reflexivity|].
  apply Forall_cons; [right; exists (lit "Format : AVC"); reflexivity|].
  apply Forall_cons; [left; reflexivity|]. apply Forall_nil.
Defined.

(** Property X3. The header pattern accepts exactly the lines made of one
    of the five section names, written with its capital letter, optionally
    followed by a space, a hash sign and digits, with nothing before and
    nothing after; it captures the name. *)
Theorem X3_header_lines (line : str) (caps : list (nat * str)) :
  re_match sectionRe line = Some caps
  <-> exists name rest,
        In name sectionNames /\ line = lit name ++ rest
        /\ isOrdinalSuffix rest = true /\ caps = [(1, lit name)].
Proof.
  split; [apply sectionRe_sound|].
  intros (name & rest & Hin & -> & Hs & ->).
  rewrite sectionRe_spec, (headerName_prefix name rest Hin Hs). reflexivity.
Qed.

(** The property X3 at work: the header line of a second audio track. *)
Lemma X3_header_lines_witness :
  re_match sectionRe (lit "Audio #2") = Some [(1, lit "Audio")].
Proof.
  apply (proj2 (X3_header_lines (lit "Audio #2") [(1, lit "Audio")])).
  exists "Audio"%string, (lit " #2").
  split; [simpl; auto|]. split; [reflexivity|]. split; reflexivity.
Defined.

(** Property X4. The ordinal suffix of a header line has no effect: with
    another suffix, or none, in its place the parse is the same. Tracks are
    numbered by their order, not by the digits of the suffix. *)
Theorem X4_ordinal_suffix_is_ignored
    (pre post : list str) (name : string) (suffix suffix' : str) :
  In name sectionNames ->
  isOrdinalSuffix suffix = true -> isOrdinalSuffix suffix' = true ->
  forLines (pre ++ (lit name ++ suffix) :: post) initialState
  = forLines (pre ++ (lit name ++ suffix') :: post) initialState.
Proof.
  intros Hin Hs Hs'. rewrite !forLines_app. cbn [forLines].
  destruct (forLines pre initialState) as [st|]; [|reflexivity].
  cbn [bind].
  rewrite (processLine_header st _ name (headerName_prefix name _ Hin Hs)).
  rewrite (processLine_header st _ name (headerName_prefix name _ Hin Hs')).
  reflexivity.
Qed.

(** The property X4 at work: Audio #2 and Audio #15 start the same track. *)
Lemma X4_ordinal_suffix_is_ignored_witness :
  forLines ([lit "Video"] ++ lit "Audio #2" :: [lit "Format : AAC"])
    initialState
  = forLines ([lit "Video"] ++ lit "Audio #15" :: [lit "Format : AAC"])
      initialState.
Proof.
  apply (X4_ordinal_suffix_is_ignored [lit "Video"] [lit "Format : AAC"]
           "Audio" (lit " #2") (lit " #15")).
  - simpl. auto.
  - reflexivity.
  - reflexivity.
Defined.
Lemma takeWhile_app_stop p (a : str) c b :
  forallb p a = true -> p c = false -> takeWhile p (a ++ c :: b) = a.
Proof.
  induction a as [|x a IH]; simpl; intros Ha Hc.
  - rewrite Hc. reflexivity.
  - apply andb_true_iff in Ha. destruct Ha as [-> Ha].
    rewrite (IH Ha Hc). reflexivity.
Qed.

Lemma dropWhile_app_stop p (a : str) c b :
  forallb p a = true -> p c = false -> dropWhile p (a ++ c :: b) = c :: b.
Proof.
  induction a as [|x a IH]; simpl; intros Ha Hc.
  - rewrite Hc. reflexivity.
  - apply andb_true_iff in Ha. destruct Ha as [-> Ha]. exact (IH Ha Hc).
Qed.

Lemma dropWhile_app_all p (a b : str) :
  forallb p a = true -> dropWhile p (a ++ b) = dropWhile p b.
Proof.
  induction a as [|x a IH]; simpl; intros Ha; [reflexivity|].
  apply andb_true_iff in Ha. destruct Ha as [-> Ha]. exact (IH Ha).
Qed.

Lemma takeWhile_dropWhile p (x : str) : takeWhile p x ++ dropWhile p x = x.
Proof.
  induction x as [|c x IH]; simpl; [reflexivity|].
  destruct (p c); simpl; [rewrite IH|]; reflexivity.
Qed.

Lemma forallb_takeWhile p (x : str) : forallb p (takeWhile p x) = true.
Proof.
  induction x as [|c x IH]; simpl; [reflexivity|].
  destruct (p c) eqn:E; simpl; [rewrite E, IH|]; reflexivity.
Qed.

Lemma forallb_dropWhile_suffix p q (x : str) :
  forallb q x = true -> forallb q (dropWhile p x) = true.
Proof.
  induction x as [|c x IH]; simpl; intros H; [reflexivity|].
  apply andb_true_iff in H. destruct H as [Hc H].
  destruct (p c); [exact (IH H)|]. simpl. rewrite Hc, H. reflexivity.
Qed.

(** White space around a string does not change what [trim] returns. *)
Lemma trimStart_blanks a x :
  forallb isSpace a = true -> trimStart (a ++ x) = trimStart x.
Proof. apply dropWhile_app_all. Qed.

Lemma trimEnd_blanks x b :
  forallb isSpace b = true -> trimEnd (x ++ b) = trimEnd x.
Proof.
  intros H. unfold trimEnd. rewrite rev_app_distr, dropWhile_app_all;
    [reflexivity|]. rewrite forallb_rev. exact H.
Qed.

Lemma trimStart_app_blanks x b :
  forallb isSpace b = true ->
  trimEnd (trimStart (x ++ b)) = trimEnd (trimStart x).
Proof.
  intros H. unfold trimStart. induction x as [|c x IH]; simpl.
  - replace (dropWhile isSpace b) with (@nil ascii);
      [reflexivity|]. symmetry. apply dropWhile_nil. exact H.
  - destruct (isSpace c); [exact IH|].
    change (c :: x ++ b) with ((c :: x) ++ b). apply trimEnd_blanks. exact H.
Qed.

Lemma trim_blanks a x b :
  forallb isSpace a = true -> forallb isSpace b = true ->
  trim (a ++ x ++ b) = trim x.
Proof.
  intros Ha Hb. unfold trim.
  rewrite (trimStart_blanks a (x ++ b) Ha).
  rewrite <- (trimStart_blanks [] x eq_refl).
  apply trimStart_app_blanks. exact Hb.
Qed.

Lemma isSpace_not_colon c : isSpace c = true -> notChar ":" c = true.
Proof.
  intros H. unfold notChar.
  destruct (Ascii.eqb_spec c ":") as [->|]; [discriminate | reflexivity].
Qed.

Lemma isBlanks_spaces ws : isBlanks ws = true -> forallb isSpace ws = true.
Proof. intros H. apply isBlanks_iff in H. tauto. Qed.

(** The parts of a line the key-value pattern matches, in terms of the
    first colon of the line. *)
Lemma keyValue_parts ws0 k ws1 ws2 v :
  forallb isSpace ws0 = true -> forallb (notChar ":") k = true ->
  isBlanks ws1 = true ->
  let line := ws0 ++ k ++ ws1 ++ ":"%char :: ws2 ++ v in
  beforeColon line = ws0 ++ k ++ ws1 /\ afterColon line = ws2 ++ v.
Proof.
  intros H0 Hk H1 line. unfold beforeColon, afterColon, line.
  assert (H : forallb (notChar ":") (ws0 ++ k ++ ws1) = true).
  { rewrite !forallb_app, Hk.
    rewrite (forallb_impl isSpace (notChar ":") ws0 isSpace_not_colon H0).
    rewrite (forallb_impl isSpace (notChar ":") ws1 isSpace_not_colon
               (isBlanks_spaces _ H1)).
    reflexivity. }
  replace (ws0 ++ k ++ ws1 ++ ":"%char :: ws2 ++ v)
    with ((ws0 ++ k ++ ws1) ++ ":"%char :: ws2 ++ v)
    by (rewrite <- !app_assoc; reflexivity).
  rewrite takeWhile_app_stop, dropWhile_app_stop by (exact H || reflexivity).
  auto.
Qed.

Lemma keyValueOf_parts line k v :
  keyValueOf line = Some (k, v) ->
  k = trim (beforeColon line) /\ v = trim (afterColon line)
  /\ isKeyValueLine line = true.
Proof.
  unfold keyValueOf.
  destruct (re_match keyValueRe line) as [m|] eqn:H; [|discriminate].
  apply keyValueRe_sound in H.
  destruct H as (ws0 & k0 & ws1 & ws2 & v0 & E & H0 & Hne & Hk & H1 & H2
                 & Hv & ->).
  cbn [group Nat.eqb]. intros [= <- <-].
  destruct (keyValue_parts ws0 k0 ws1 ws2 v0 H0 Hk H1) as [Eb Ea].
  rewrite <- E in Eb, Ea. rewrite Eb, Ea.
  pose proof (isBlanks_spaces _ H1) as H1'.
  pose proof (isBlanks_spaces _ H2) as H2'.
  split; [|split].
  - rewrite (trim_blanks ws0 k0 ws1 H0 H1'). reflexivity.
  - rewrite <- (app_nil_r v0) at 2.
    rewrite (trim_blanks ws2 v0 [] H2' eq_refl). reflexivity.
  - unfold isKeyValueLine. rewrite Eb, Ea.
    repeat (apply andb_true_iff; split).
    + rewrite E. apply existsb_exists. exists ":"%char. split; [|reflexivity].
      repeat (apply in_or_app; right). left. reflexivity.
    + apply Nat.leb_le. rewrite !length_app.
      destruct k0; [congruence|]. destruct ws1; [discriminate|]. simpl. lia.
    + rewrite app_assoc, last_app_nonempty
        by (destruct ws1; [discriminate H1 | discriminate]).
      apply last_forallb; [destruct ws1; [discriminate H1|discriminate]|].
      exact H1'.
    + destruct ws2 as [|c ws2]; [discriminate|]. simpl in H2'.
      apply andb_true_iff in H2'. simpl. tauto.
    + rewrite (dropWhile_app_all isSpace ws2 v0 H2').
      apply forallb_dropWhile_suffix. exact Hv.
Qed.

Lemma existsb_colon_split line :
  existsb (isChar ":") line = true ->
  line = beforeColon line ++ ":"%char :: afterColon line.
Proof.
  unfold beforeColon, afterColon. intros H.
  rewrite <- (takeWhile_dropWhile (notChar ":") line) at 1. f_equal.
  destruct (dropWhile (notChar ":") line) as [|c r] eqn:E.
  - apply dropWhile_nil in E. apply existsb_exists in H.
    destruct H as (c & Hin & Hc). rewrite forallb_forall in E.
    apply E in Hin. unfold notChar, isChar in *. rewrite Hc in Hin.
    discriminate.
  - apply dropWhile_head in E. unfold notChar in E.
    apply negb_false_iff, Ascii.eqb_eq in E. subst c. reflexivity.
Qed.

Lemma keyValueLine_matches line :
  isKeyValueLine line = true -> exists kv, keyValueOf line = Some kv.
Proof.
  unfold isKeyValueLine. intros H.
  apply andb_true_iff in H. destruct H as [H Hv].
  apply andb_true_iff in H. destruct H as [H Ha].
  apply andb_true_iff in H. destruct H as [H Hl].
  apply andb_true_iff in H. destruct H as [Hc Hb].
  apply Nat.leb_le in Hb. pose proof (existsb_colon_split line Hc) as E.
  pose proof (forallb_takeWhile (notChar ":") line) as Hnc.
  fold (beforeColon line) in Hnc.
  destruct (exists_last (l := beforeColon line)) as (k & w & Eb).
  { intros E0. rewrite E0 in Hb. simpl in Hb. lia. }
  rewrite Eb in Hl, Hb, Hnc, E. rewrite last_last in Hl.
  rewrite length_app in Hb. simpl in Hb.
  rewrite forallb_app in Hnc. apply andb_true_iff in Hnc.
  destruct Hnc as [Hk _].
  set (ws2 := takeWhile isSpace (afterColon line)).
  set (v := dropWhile isSpace (afterColon line)).
  assert (Ea : afterColon line = ws2 ++ v)
    by (symmetry; apply takeWhile_dropWhile).
  assert (H2 : isBlanks ws2 = true).
  { unfold ws2. destruct (afterColon line) as [|c r]; [discriminate|].
    simpl. rewrite Ha. simpl. rewrite Ha.
    rewrite forallb_takeWhile. reflexivity. }
  assert (D : den keyValueRe (length (@nil ascii))
                (k ++ [w] ++ ":"%char :: ws2 ++ v ++ []) [] []
                [(2, v); (1, k)]).
  { unfold keyValueRe.
    den_intro (@nil ascii). { repeat split. }
    den_intro (@nil ascii). { apply den_star. auto. }
    den_intro k.
    { apply den_group. eexists. split; [|reflexivity].
      apply den_plus. repeat split; auto.
      intros ->. simpl in Hb. lia. }
    den_intro [w].
    { apply den_blanks. simpl. rewrite Hl. auto. }
    den_intro (lit ":"). { apply den_lit. auto. }
    den_intro ws2. { apply den_blanks. auto. }
    den_intro v.
    { apply den_group. eexists. split; [|reflexivity].
      apply den_star. auto. }
    den_intro (@nil ascii). { repeat split. }
    apply den_concat_nil. auto. }
  apply re_match_complete in D. destruct D as [caps D].
  revert D. rewrite !app_nil_r. cbn [app].
  replace (k ++ w :: ":"%char :: ws2 ++ v) with line
    by (rewrite E, Ea, <- app_assoc; reflexivity).
  intros D. unfold keyValueOf. rewrite D.
  apply keyValueRe_sound in D.
  destruct D as (? & ? & ? & ? & ? & _ & _ & _ & _ & _ & _ & _ & ->).
  cbn [group Nat.eqb]. eauto.
Qed.

(** Property X5. A key-value line is split at its first colon: the key is
    the text before it and the value the text after it, both trimmed, so
    that the value may hold further colons. The lines read as key-value
    lines are those with, around the first colon, white space on both
    sides, at least one more character before it, and no line terminator
    after the white space that follows it. *)
Theorem X5_key_value_line_is_split_at_first_colon (line : str) :
  keyValueOf line
  = if isKeyValueLine line
    then Some (trim (beforeColon line), trim (afterColon line))
    else None.
Proof.
  destruct (keyValueOf line) as [[k v]|] eqn:E.
  - apply keyValueOf_parts in E. destruct E as (-> & -> & ->). reflexivity.
  - destruct (isKeyValueLine line) eqn:H; [|reflexivity].
    apply keyValueLine_matches in H. destruct H as [kv H]. congruence.
Qed.


Lemma updateAt_twice {T} (f1 f2 : T -> T) l : forall i,
  (forall t, nth_error l i = Some t -> f2 (f1 t) = f2 t) ->
  updateAt i f2 (updateAt i f1 l) = updateAt i f2 l.
Proof.
  induction l as [|x l IH]; intros [|i] H; simpl; try reflexivity.
  - rewrite (H x eq_refl). reflexivity.
  - rewrite IH; [reflexivity|]. intros t Ht. apply H. exact Ht.
Qed.

Lemma switchTrack_twice {T} (c1 c2 : list (string * caseBody T)) key tracks
    index :
  overwrites c1 c2 key ->
  (tr <- switchTrack c1 key tracks index ;; switchTrack c2 key tr index)
  = switchTrack c2 key tracks index.
Proof.
  unfold switchTrack.
  intros [[-> ->] | (o1 & f2 & -> & -> & H)]; [reflexivity|].
  cbn [bind]. destruct o1 as [f1|]; [|reflexivity].
  destruct (nth_error tracks (Z.to_nat index)) as [t|] eqn:E; [|reflexivity].
  cbn [bind]. rewrite nth_error_updateAt_same, E. cbn [option_map].
  rewrite updateAt_twice; [reflexivity|]. intros t' _. apply H. reflexivity.
Qed.

(** Solves [overwrites] for two instances of one table of cases. *)
Ltac overwrites_table Hp :=
  unfold overwrites; rewrite ?streamSizeCase_spec; cbn [lookup];
  repeat match goal with
         | |- context [str_eqb ?k (lit ?l)] =>
             let E := fresh "E" in
             destruct (str_eqb k (lit l)) eqn:E;
             [ right;
               first
                 [ eexists _, _; split; [reflexivity|];
                   split; [reflexivity|];
                   intros f1 t Hf; injection Hf as <-;
                   destruct t; reflexivity
                 | apply str_eqb_eq in E; specialize (Hp E);
                   match goal with
                   | |- context [sizePart ?v2] =>
                       destruct (sizePart v2); [|congruence]
                   end;
                   eexists _, _; split; [reflexivity|];
                   split; [reflexivity|];
                   intros f1 t Hf;
                   match goal with
                   | H : option_map _ (sizePart ?v1) = Some _ |- _ =>
                       destruct (sizePart v1); [|discriminate]
                   end;
                   injection Hf as <-; destruct t; reflexivity ]
             | ]
         end;
  left; split; reflexivity.

Lemma videoCases_overwrites key v1 v2 :
  (key = lit "Stream size" -> sizePart v2 <> None) ->
  overwrites (videoCases v1) (videoCases v2) key.
Proof. intros Hp. unfold videoCases, assign. overwrites_table Hp. Qed.

Lemma audioCases_overwrites key v1 v2 :
  (key = lit "Stream size" -> sizePart v2 <> None) ->
  overwrites (audioCases v1) (audioCases v2) key.
Proof. intros Hp. unfold audioCases, assign. overwrites_table Hp. Qed.

Lemma textCases_overwrites key v1 v2 :
  (key = lit "Stream size" -> sizePart v2 <> None) ->
  overwrites (textCases v1) (textCases v2) key.
Proof. intros Hp. unfold textCases, assign. overwrites_table Hp. Qed.

Lemma generalCases_overwrites key v1 v2 t :
  match lookup key (generalCases v1), lookup key (generalCases v2) with
  | Some f1, Some f2 => f2 (f1 t) = f2 t
  | None, None => True
  | _, _ => False
  end.
Proof.
  unfold generalCases. cbn [lookup].
  repeat match goal with
         | |- context [str_eqb ?k (lit ?l)] =>
             destruct (str_eqb k (lit l)); [destruct t; reflexivity|]
         end.
  exact I.
Qed.

Lemma bind_assoc {A B C} (e : Exc A) (f : A -> Exc B) (g : B -> Exc C) :
  bind (bind e f) g = bind e (fun x => bind (f x) g).
Proof. destruct e; reflexivity. Qed.

(** Assigning a key twice in a row is assigning it the second time only. *)
Lemma assignKey_twice st key v1 v2 :
  (key = lit "Stream size" -> sizePart v2 <> None) ->
  (st1 <- assignKey st key v1 ;; assignKey st1 key v2)
  = assignKey st key v2.
Proof.
  intros Hp. unfold assignKey.
  destruct (str_eqb (currentSection st) (lit "general")) eqn:Eg.
  { pose proof (generalCases_overwrites key v1 v2 (general (result st))) as H.
    destruct (lookup key (generalCases v1)) as [f1|],
             (lookup key (generalCases v2)) as [f2|];
      try contradiction; cbn [bind withResult currentSection trackIndex result]; rewrite Eg; [|reflexivity].
    cbn [general set_general]. rewrite H. reflexivity. }
  destruct (str_eqb (currentSection st) (lit "video")
            && (0 <=? trackIndex st)%Z) eqn:Ev.
  { rewrite <- (switchTrack_twice (videoCases v1) (videoCases v2) key
                  (video (result st)) (trackIndex st)
                  (videoCases_overwrites key v1 v2 Hp)).
    destruct (switchTrack (videoCases v1) key (video (result st))
                (trackIndex st)) as [v|]; [|reflexivity].
    cbn [bind withResult currentSection trackIndex result]. rewrite Eg, Ev. reflexivity. }
  destruct (str_eqb (currentSection st) (lit "audio")
            && (0 <=? trackIndex st)%Z) eqn:Ea.
  { rewrite <- (switchTrack_twice (audioCases v1) (audioCases v2) key
                  (audio (result st)) (trackIndex st)
                  (audioCases_overwrites key v1 v2 Hp)).
    destruct (switchTrack (audioCases v1) key (audio (result st))
                (trackIndex st)) as [v|]; [|reflexivity].
    cbn [bind withResult currentSection trackIndex result]. rewrite Eg, Ev, Ea. reflexivity. }
  destruct (str_eqb (currentSection st) (lit "text")
            && (0 <=? trackIndex st)%Z) eqn:Et.
  { rewrite <- (switchTrack_twice (textCases v1) (textCases v2) key
                  (text (result st)) (trackIndex st)
                  (textCases_overwrites key v1 v2 Hp)).
    destruct (switchTrack (textCases v1) key (text (result st))
                (trackIndex st)) as [v|]; [|reflexivity].
    cbn [bind withResult currentSection trackIndex result]. rewrite Eg, Ev, Ea, Et. reflexivity. }
  cbn [bind withResult currentSection trackIndex result]. rewrite Eg, Ev, Ea, Et. reflexivity.
Qed.

(** Outside the Menu section a key-value line is an assignment. *)
Lemma processLine_keyValue st line key value :
  keyValueOf line = Some (key, value) ->
  currentSection st <> lit "menu" ->
  processLine st line = assignKey st key value.
Proof.
  intros Hkv Hm.
  rewrite (processLine_other st line (keyValue_not_blank _ _ Hkv)
             (keyValue_not_header _ _ Hkv)), Hkv.
  apply str_eqb_neq in Hm. rewrite Hm. reflexivity.
Qed.

(** An assignment changes the record only: the scan state stays. *)
Lemma assignKey_scan st key value st' :
  assignKey st key value = Ok st' ->
  currentSection st' = currentSection st /\ trackIndex st' = trackIndex st.
Proof.
  unfold assignKey.
  repeat match goal with
         | |- context [if ?b then _ else _] => destruct b
         | |- context [match lookup ?k ?c with _ => _ end] =>
             destruct (lookup k c)
         | |- context [bind ?e _] => destruct e; cbn [bind]
         end;
    intros E; try discriminate; injection E as <-; split; reflexivity.
Qed.

(** Property X6. A key given twice in a row keeps the last value: outside
    the Menu section, of two successive key-value lines with the same key
    the first one has no effect on the result. For the key Stream size the
    second value must hold a size, since a value without one assigns
    nothing. Here [input] has the lines [pre ++ l1 :: l2 :: post] and
    [input'] the same lines without [l1]. *)
Theorem X6_repeated_key_keeps_last_value
    (input input' : str) (pre post : list str) (l1 l2 key v1 v2 : str) :
  split chr_nl input = pre ++ l1 :: l2 :: post ->
  split chr_nl input' = pre ++ l2 :: post ->
  keyValueOf l1 = Some (key, v1) ->
  keyValueOf l2 = Some (key, v2) ->
  sectionAfter pre <> lit "menu" ->
  (key = lit "Stream size" -> sizePart v2 <> None) ->
  parseMediaInfo input = parseMediaInfo input'.
Proof.
  intros E E' H1 H2 Hm Hp. unfold parseMediaInfo.
  rewrite E, E', !forLines_app. unfold sectionAfter in Hm.
  destruct (forLines_ok pre initialState Inv_initialState) as (st & Ep & HI).
  rewrite Ep in *. cbn [bind forLines].
  rewrite (processLine_keyValue st l1 key v1 H1 Hm).
  rewrite (processLine_keyValue st l2 key v2 H2 Hm).
  rewrite <- (assignKey_twice st key v1 v2 Hp).
  destruct (assignKey st key v1) as [st1|] eqn:E1; [|reflexivity].
  cbn [bind]. apply assignKey_scan in E1. destruct E1 as [Es _].
  rewrite (processLine_keyValue st1 l2 key v2 H2); [reflexivity|].
  rewrite Es. exact Hm.
Qed.

(** The property X6 at work: two Width lines in a Video section. *)
Lemma X6_repeated_key_keeps_last_value_witness :
  parseMediaInfo
    (unlines ["Video"; "Width : 1 920 pixels"; "Width : 1 280 pixels";
              "Height : 720 pixels"]%string)
  = parseMediaInfo
      (unlines ["Video"; "Width : 1 280 pixels";
                "Height : 720 pixels"]%string).
Proof.
  apply (X6_repeated_key_keeps_last_value
           (unlines ["Video"; "Width : 1 920 pixels"; "Width : 1 280 pixels";
                     "Height : 720 pixels"]%string)
           (unlines ["Video"; "Width : 1 280 pixels";
                     "Height : 720 pixels"]%string)
           [lit "Video"] [lit "Height : 720 pixels"]
           (lit "Width : 1 920 pixels") (lit "Width : 1 280 pixels")
           (lit "Width") (lit "1 920 pixels") (lit "1 280 pixels")).
  - reflexivity.
  - reflexivity.
  - vm_compute. reflexivity.
  - vm_compute. reflexivity.
  - vm_compute. discriminate.
  - discriminate.
Defined.
(** A property of every character, by cases on its eight bits. *)
Ltac by_ascii c :=
  destruct c as [[|] [|] [|] [|] [|] [|] [|] [|]];
  vm_compute; intros; (reflexivity || discriminate || tauto).

Lemma lowerChar_space c : isSpace (lowerChar c) = isSpace c.
Proof. by_ascii c. Qed.

Lemma lowerChar_idem c : lowerChar (lowerChar c) = lowerChar c.
Proof. by_ascii c. Qed.

Lemma toLowerCase_idem s : toLowerCase (toLowerCase s) = toLowerCase s.
Proof.
  unfold toLowerCase. rewrite map_map. apply map_ext. apply lowerChar_idem.
Qed.

Lemma removeAll_toLowerCase s :
  removeAll isSpace (toLowerCase s) = toLowerCase (removeAll isSpace s).
Proof.
  induction s as [|c s IH]; simpl; [reflexivity|].
  rewrite lowerChar_space. destruct (isSpace c); simpl; rewrite IH; reflexivity.
Qed.

Lemma removeAll_idem p (s : str) : removeAll p (removeAll p s) = removeAll p s.
Proof.
  induction s as [|c s IH]; simpl; [reflexivity|].
  destruct (p c) eqn:E; simpl; [exact IH|]. rewrite E. simpl. rewrite IH.
  reflexivity.
Qed.

Lemma removeAll_app p (a b : str) :
  removeAll p (a ++ b) = removeAll p a ++ removeAll p b.
Proof. apply filter_app. Qed.

Lemma removeAll_all p (ws : str) : forallb p ws = true -> removeAll p ws = [].
Proof.
  induction ws as [|c ws IH]; simpl; [reflexivity|].
  intros H. apply andb_true_iff in H. destruct H as [-> H]. exact (IH H).
Qed.

Lemma removeAll_none p (s : str) :
  forallb (fun c => negb (p c)) s = true -> removeAll p s = s.
Proof.
  induction s as [|c s IH]; simpl; [reflexivity|].
  intros H. apply andb_true_iff in H. destruct H as [-> H].
  rewrite (IH H). reflexivity.
Qed.

(** Property X9. [parseBitRate] reads its argument without regard to the
    case of the letters and to white space: the lower-case string and the
    string without its white space give the same number, and so does the
    string with white space inserted at any place. *)
Theorem X9_parseBitRate_ignores_case_and_white_space (s a ws b : str) :
  parseBitRate (toLowerCase s) = parseBitRate s
  /\ parseBitRate (removeAll isSpace s) = parseBitRate s
  /\ (forallb isSpace ws = true ->
      parseBitRate (a ++ ws ++ b) = parseBitRate (a ++ b)).
Proof.
  unfold parseBitRate. split; [|split].
  - rewrite removeAll_toLowerCase, toLowerCase_idem. reflexivity.
  - rewrite removeAll_idem. reflexivity.
  - intros H. rewrite !removeAll_app, (removeAll_all _ _ H). reflexivity.
Qed.

(** The property X9 at work: white space inside the number. *)
Lemma X9_parseBitRate_ignores_case_and_white_space_witness :
  parseBitRate (lit "2 304 kb/s") = parseBitRate (lit "2304 kb/s").
Proof.
  exact (proj2 (proj2 (X9_parseBitRate_ignores_case_and_white_space
                         [] (lit "2") (lit " ") (lit "304 kb/s")))
           eq_refl).
Defined.
Lemma takeWhile_app_all p (a b : str) :
  forallb p a = true -> takeWhile p (a ++ b) = a ++ takeWhile p b.
Proof.
  induction a as [|x a IH]; simpl; intros Ha; [reflexivity|].
  apply andb_true_iff in Ha. destruct Ha as [-> Ha].
  rewrite (IH Ha). reflexivity.
Qed.

Lemma endsLiteral_parts rest :
  endsLiteral rest = true ->
  takeWhile isDigit rest = [] /\ dropWhile isDigit rest = rest
  /\ readExponent rest = 0%Z
  /\ match rest with
     | c :: _ => Ascii.eqb c "." = false
     | [] => True
     end.
Proof.
  destruct rest as [|c r]; simpl; [auto|].
  unfold isChar. intros H. apply negb_true_iff in H.
  apply orb_false_iff in H. destruct H as [H He2].
  apply orb_false_iff in H. destruct H as [H He1].
  apply orb_false_iff in H. destruct H as [Hd Hp].
  rewrite Hd, He1, He2, Hp. auto.
Qed.

Lemma isDigit_not_I c : isDigit c = true -> Ascii.eqb "I" c = false.
Proof. by_ascii c. Qed.

(** [parseFloat] reads a decimal literal up to its end. *)
Lemma parseFloat_literal ip fp rest :
  isNumeral ip = true -> forallb isDigit fp = true ->
  endsLiteral rest = true ->
  parseFloat (decimalLiteral ip fp ++ rest) = decimalNumber ip fp.
Proof.
  intros Hi Hf Hr. destruct ip as [|d ip]; [discriminate|].
  unfold isNumeral in Hi. pose proof Hi as Hi'.
  cbn [forallb] in Hi'. apply andb_true_iff in Hi'. destruct Hi' as [Hd _].
  destruct (endsLiteral_parts rest Hr) as (T & D & E & P).
  assert (Hhead : forall x,
             readSign (trimStart ((d :: ip) ++ x)) = (false, (d :: ip) ++ x)).
  { intros x. unfold trimStart. cbn [app dropWhile].
    rewrite (isDigit_not_space d Hd). unfold readSign.
    destruct (isDigit_not_sign d Hd) as [-> ->]. reflexivity. }
  assert (Hinf : forall x, startsWith (lit "Infinity") ((d :: ip) ++ x) = false).
  { intros x. change (lit "Infinity") with ("I"%char :: lit "nfinity").
    cbn [app startsWith]. rewrite (isDigit_not_I d Hd). reflexivity. }
  unfold parseFloat, decimalNumber, decimalLiteral.
  destruct fp as [|f fp].
  - rewrite Hhead, Hinf, (takeWhile_app_all _ _ _ Hi),
      (dropWhile_app_all _ _ _ Hi), T, D, app_nil_r.
    replace (match rest with
             | [] => ([], rest)
             | c :: r' =>
                 if Ascii.eqb c "."
                 then (takeWhile isDigit r', dropWhile isDigit r')
                 else ([], rest)
             end) with (@nil ascii, rest)
      by (destruct rest as [|c r]; [reflexivity | rewrite P; reflexivity]).
    rewrite app_nil_r, E. reflexivity.
  - rewrite <- app_assoc. rewrite Hhead, Hinf.
    rewrite (takeWhile_app_all _ _ _ Hi), (dropWhile_app_all _ _ _ Hi).
    cbn [app takeWhile dropWhile isDigit code]. 
    change (isDigit ".") with false. cbn iota.
    rewrite app_nil_r. change (Ascii.eqb "." ".") with true. cbn iota.
    change (f :: fp ++ rest) with ((f :: fp) ++ rest).
    rewrite (takeWhile_app_all _ _ _ Hf), (dropWhile_app_all _ _ _ Hf),
      T, D, app_nil_r, E.
    reflexivity.
Qed.

Lemma literal_chars ip fp :
  isNumeral ip = true -> forallb isDigit fp = true ->
  forallb (fun c => isDigit c || isChar "." c) (decimalLiteral ip fp) = true.
Proof.
  intros Hi Hf. assert (Hi' : forallb isDigit ip = true).
  { destruct ip; [discriminate | exact Hi]. }
  assert (H : forall x, forallb isDigit x = true ->
                        forallb (fun c => isDigit c || isChar "." c) x = true).
  { intros x. apply forallb_impl. intros c ->. reflexivity. }
  unfold decimalLiteral. destruct fp as [|f fp]; [exact (H _ Hi')|].
  rewrite forallb_app. rewrite (H _ Hi').
  change ("."%char :: f :: fp) with (["."%char] ++ f :: fp).
  rewrite forallb_app, (H _ Hf). reflexivity.
Qed.

Lemma literal_char_plain c :
  isDigit c || isChar "." c = true ->
  isSpace c = false /\ lowerChar c = c
  /\ notChar "m" c = true /\ notChar "k" c = true /\ notChar "b" c = true.
Proof. by_ascii c. Qed.

Lemma literal_no_space ip fp :
  isNumeral ip = true -> forallb isDigit fp = true ->
  removeAll isSpace (decimalLiteral ip fp) = decimalLiteral ip fp.
Proof.
  intros Hi Hf. apply removeAll_none.
  apply (forallb_impl _ _ _ (fun c H => proj2 (negb_true_iff _)
                                          (proj1 (literal_char_plain c H)))).
  exact (literal_chars ip fp Hi Hf).
Qed.

Lemma literal_lower ip fp :
  isNumeral ip = true -> forallb isDigit fp = true ->
  toLowerCase (decimalLiteral ip fp) = decimalLiteral ip fp.
Proof.
  intros Hi Hf. pose proof (literal_chars ip fp Hi Hf) as H.
  induction (decimalLiteral ip fp) as [|c x IH]; [reflexivity|].
  cbn [forallb] in H. apply andb_true_iff in H. destruct H as [Hc H].
  cbn [toLowerCase map].
  destruct (literal_char_plain c Hc) as (_ & -> & _).
  f_equal. exact (IH H).
Qed.

Lemma includes_app_skip c sub (a b : str) :
  forallb (notChar c) a = true ->
  includes (c :: sub) (a ++ b) = includes (c :: sub) b.
Proof.
  induction a as [|x a IH]; intros Ha; [reflexivity|].
  cbn [forallb] in Ha. apply andb_true_iff in Ha. destruct Ha as [Hx Ha].
  cbn [app includes startsWith]. unfold notChar in Hx.
  apply negb_true_iff in Hx. rewrite Ascii.eqb_sym, Hx. exact (IH Ha).
Qed.

(** The digits and the point of a decimal literal hold no unit. *)
Lemma includes_literal c sub ip fp rest :
  isNumeral ip = true -> forallb isDigit fp = true ->
  (forall x, isDigit x || isChar "." x = true -> notChar c x = true) ->
  includes (c :: sub) (decimalLiteral ip fp ++ rest) = includes (c :: sub) rest.
Proof.
  intros Hi Hf Hc. apply includes_app_skip.
  exact (forallb_impl _ _ _ Hc (literal_chars ip fp Hi Hf)).
Qed.

Lemma clean_literal ip fp rest :
  isNumeral ip = true -> forallb isDigit fp = true ->
  toLowerCase (removeAll isSpace (decimalLiteral ip fp ++ rest))
  = decimalLiteral ip fp ++ toLowerCase (removeAll isSpace rest).
Proof.
  intros Hi Hf. rewrite removeAll_app, (literal_no_space ip fp Hi Hf).
  unfold toLowerCase at 1. rewrite map_app.
  fold (toLowerCase (decimalLiteral ip fp)).
  rewrite (literal_lower ip fp Hi Hf). reflexivity.
Qed.

(** Property X10. [parseBitRate] on a decimal literal followed by any text
    that does not continue the literal: the result is the number of the
    literal, scaled by 1000 times 1000 when the text holds mb/s, by 1000
    when it holds kb/s and not at all otherwise, then rounded; case and
    white space in the text are ignored. *)
Theorem X10_parseBitRate_scales_by_unit (ip fp rest : str) :
  let unit := toLowerCase (removeAll isSpace rest) in
  let value := decimalNumber ip fp in
  isNumeral ip = true -> forallb isDigit fp = true ->
  endsLiteral unit = true ->
  parseBitRate (decimalLiteral ip fp ++ rest)
  = Num.round
      (if includes (lit "mb/s") unit
       then Num.mul (Num.mul value (Num.of_Z 1000)) (Num.of_Z 1000)
       else if includes (lit "kb/s") unit
       then Num.mul value (Num.of_Z 1000)
       else value).
Proof.
  intros unit value Hi Hf Hr. unfold parseBitRate. cbv zeta.
  rewrite !(clean_literal ip fp rest Hi Hf). fold unit.
  rewrite (parseFloat_literal ip fp unit Hi Hf Hr). fold value.
  change (lit "mb/s") with ("m"%char :: lit "b/s").
  change (lit "kb/s") with ("k"%char :: lit "b/s").
  rewrite !includes_literal; try assumption;
    try (intros x Hx; apply (literal_char_plain x Hx)).
  destruct (includes ("m"%char :: lit "b/s") unit); [reflexivity|].
  destruct (includes ("k"%char :: lit "b/s") unit); reflexivity.
Qed.

(** The property X10 at work: 2304 kb/s and 36.6 Mb/s. *)
Lemma X10_parseBitRate_scales_by_unit_witness :
  parseBitRate (lit "2304 kb/s") = Num.of_Z 2304000
  /\ parseBitRate (lit "36.6 Mb/s") = Num.of_Z 36600000.
Proof.
  split.
  - change (lit "2304 kb/s")
      with (decimalLiteral (lit "2304") [] ++ lit " kb/s").
    rewrite (X10_parseBitRate_scales_by_unit (lit "2304") [] (lit " kb/s")
               eq_refl eq_refl eq_refl).
    vm_compute. reflexivity.
  - change (lit "36.6 Mb/s")
      with (decimalLiteral (lit "36") (lit "6") ++ lit " Mb/s").
    rewrite (X10_parseBitRate_scales_by_unit (lit "36") (lit "6")
               (lit " Mb/s") eq_refl eq_refl eq_refl).
    vm_compute. reflexivity.
Defined.

(** Property X11. [parseFrequency] on a decimal literal followed by any
    text that does not continue the literal: the result is the number of
    the literal, scaled by 1000 when the text holds khz, by 1000 times 1000
    when it holds mhz and not khz, and not at all otherwise, then rounded.
    The case of the letters is ignored; white space is ignored before the
    text but not inside the unit. *)
Theorem X11_parseFrequency_scales_by_unit (ip fp rest : str) :
  let unit := toLowerCase rest in
  let value := decimalNumber ip fp in
  isNumeral ip = true -> forallb isDigit fp = true ->
  endsLiteral (removeAll isSpace rest) = true ->
  parseFrequency (decimalLiteral ip fp ++ rest)
  = Num.round
      (if includes (lit "khz") unit
       then Num.mul value (Num.of_Z 1000)
       else if includes (lit "mhz") unit
       then Num.mul (Num.mul value (Num.of_Z 1000)) (Num.of_Z 1000)
       else value).
Proof.
  intros unit value Hi Hf Hr. unfold parseFrequency. cbv zeta.
  rewrite removeAll_app, (literal_no_space ip fp Hi Hf).
  rewrite (parseFloat_literal ip fp _ Hi Hf Hr). fold value.
  unfold toLowerCase at 1 2. rewrite map_app.
  fold (toLowerCase (decimalLiteral ip fp)). fold (toLowerCase rest).
  rewrite (literal_lower ip fp Hi Hf). fold unit.
  change (lit "khz") with ("k"%char :: lit "hz").
  change (lit "mhz") with ("m"%char :: lit "hz").
  rewrite !includes_literal; try assumption;
    try (intros x Hx; apply (literal_char_plain x Hx)).
  destruct (includes ("k"%char :: lit "hz") unit); [reflexivity|].
  destruct (includes ("m"%char :: lit "hz") unit); reflexivity.
Qed.

(** The property X11 at work: 48.0 kHz, and a unit written with a space. *)
Lemma X11_parseFrequency_scales_by_unit_witness :
  parseFrequency (lit "48.0 kHz") = Num.of_Z 48000
  /\ parseFrequency (lit "48.0 k Hz") = Num.of_Z 48.
Proof.
  split.
  - change (lit "48.0 kHz")
      with (decimalLiteral (lit "48") (lit "0") ++ lit " kHz").
    rewrite (X11_parseFrequency_scales_by_unit (lit "48") (lit "0")
               (lit " kHz") eq_refl eq_refl eq_refl).
    vm_compute. reflexivity.
  - change (lit "48.0 k Hz")
      with (decimalLiteral (lit "48") (lit "0") ++ lit " k Hz").
    rewrite (X11_parseFrequency_scales_by_unit (lit "48") (lit "0")
               (lit " k Hz") eq_refl eq_refl eq_refl).
    vm_compute. reflexivity.
Defined.

(** A greedy quantifier takes the longest run when the rest of the pattern
    matches after it. *)
Lemma starGreedy_first p k x : forall pos caps m,
  k (Build_mstate (length (takeWhile p x) + pos) (dropWhile p x) caps)
  = Some m ->
  starGreedy p k pos x caps = Some m.
Proof.
  induction x as [|c x IH]; simpl; intros pos caps m H; [exact H|].
  destruct (p c); [|exact H].
  rewrite (IH (S pos) caps m); [reflexivity|].
  rewrite Nat.add_succ_r. exact H.
Qed.

(** [p+] on a run [w] of [p] that ends before [after]. *)
Lemma rmatch_plus_run p k w after pos caps m :
  w <> [] -> forallb p w = true ->
  match after with c :: _ => p c = false | [] => True end ->
  k (Build_mstate (length w + pos) after caps) = Some m ->
  rmatch (RPlus true p) k (Build_mstate pos (w ++ after) caps) = Some m.
Proof.
  intros Hw Hp Ha Hk. destruct w as [|c w]; [congruence|].
  cbn [forallb] in Hp. apply andb_true_iff in Hp. destruct Hp as [Hc Hp].
  cbn [RPlus rmatch app m_rest m_pos m_caps]. rewrite Hc.
  apply starGreedy_first.
  assert (T : takeWhile p (w ++ after) = w /\ dropWhile p (w ++ after) = after).
  { rewrite (takeWhile_app_all _ _ _ Hp), (dropWhile_app_all _ _ _ Hp).
    destruct after as [|a after]; simpl; [rewrite app_nil_r; auto|].
    rewrite Ha, app_nil_r. auto. }
  destruct T as [-> ->]. cbn [length] in Hk.
  rewrite Nat.add_succ_r. exact Hk.
Qed.

Lemma isSpace_plain c :
  isSpace c = true -> isDigit c = false /\ isChar "." c = false.
Proof. by_ascii c. Qed.

Lemma isAlpha_not_space c : isAlpha c = true -> isSpace c = false.
Proof. by_ascii c. Qed.

Lemma isDigit_not_point c : isDigit c = true -> isChar "." c = false.
Proof. by_ascii c. Qed.

(** The end of the size pattern, [\d*\s+[A-Za-z]+], on fraction digits,
    white space and letters. *)
Lemma size_tail_match k fp ws unit rest pos caps m :
  forallb isDigit fp = true ->
  ws <> [] -> forallb isSpace ws = true ->
  unit <> [] -> forallb isAlpha unit = true ->
  match rest with c :: _ => isAlpha c = false | [] => True end ->
  k (Build_mstate (length unit + (length ws + (length fp + pos))) rest caps)
  = Some m ->
  rmatch (RConcat [RStar true isDigit; RPlus true isSpace; RPlus true isAlpha])
    k (Build_mstate pos (fp ++ ws ++ unit ++ rest) caps)
  = Some m.
Proof.
  intros Hf Hw Hws Hu Hus Hr Hk.
  rewrite rmatch_concat_cons. cbn [rmatch m_pos m_rest m_caps].
  apply starGreedy_first.
  assert (T : takeWhile isDigit (fp ++ ws ++ unit ++ rest) = fp
              /\ dropWhile isDigit (fp ++ ws ++ unit ++ rest)
                 = ws ++ unit ++ rest).
  { rewrite (takeWhile_app_all _ _ _ Hf), (dropWhile_app_all _ _ _ Hf).
    destruct ws as [|c ws]; [congruence|].
    cbn [forallb] in Hws. apply andb_true_iff in Hws. destruct Hws as [Hc _].
    cbn [app takeWhile dropWhile].
    destruct (isSpace_plain c Hc) as [-> _]. rewrite app_nil_r. auto. }
  destruct T as [-> ->].
  rewrite rmatch_concat_cons.
  apply rmatch_plus_run; [exact Hw | exact Hws | |].
  { destruct unit as [|c unit]; [congruence|].
    cbn [forallb] in Hus. apply andb_true_iff in Hus.
    destruct Hus as [Hc _]. exact (isAlpha_not_space c Hc). }
  rewrite rmatch_concat_cons.
  apply rmatch_plus_run; [exact Hu | exact Hus | exact Hr |].
  exact Hk.
Qed.

Lemma rmatch_opt a k st :
  rmatch (ROpt a) k st = orElse (rmatch a k st) (k st).
Proof. reflexivity. Qed.

Lemma rmatch_point k x pos caps :
  rmatch (RLit ".") k (Build_mstate pos ("."%char :: x) caps)
  = k (Build_mstate (S pos) x caps).
Proof. reflexivity. Qed.

(** The size pattern on a decimal literal, white space and letters. *)
Lemma size_match_here k ip fp ws unit rest pos caps m :
  isNumeral ip = true -> forallb isDigit fp = true ->
  ws <> [] -> forallb isSpace ws = true ->
  unit <> [] -> forallb isAlpha unit = true ->
  match rest with c :: _ => isAlpha c = false | [] => True end ->
  k (Build_mstate
       (length (decimalLiteral ip fp ++ ws ++ unit) + pos) rest caps)
  = Some m ->
  rmatch (RConcat [ RPlus true isDigit; ROpt (RLit "."); RStar true isDigit;
                    RPlus true isSpace; RPlus true isAlpha ])
    k (Build_mstate pos (decimalLiteral ip fp ++ ws ++ unit ++ rest) caps)
  = Some m.
Proof.
  intros Hi Hf Hw Hws Hu Hus Hr Hk.
  assert (Hi' : ip <> [] /\ forallb isDigit ip = true).
  { destruct ip; [discriminate|]. split; [discriminate | exact Hi]. }
  destruct Hi' as [Hn Hd].
  rewrite rmatch_concat_cons. unfold decimalLiteral in *.
  destruct fp as [|f fp].
  - apply rmatch_plus_run; [exact Hn | exact Hd | |].
    { destruct ws as [|c ws]; [congruence|].
      cbn [forallb] in Hws. apply andb_true_iff in Hws.
      destruct Hws as [Hc _]. exact (proj1 (isSpace_plain c Hc)). }
    rewrite rmatch_concat_cons.
    assert (Hp : rmatch (RLit ".")
                   (rmatch (RConcat [RStar true isDigit; RPlus true isSpace;
                                     RPlus true isAlpha]) k)
                   (Build_mstate (length ip + pos) (ws ++ unit ++ rest) caps)
                 = None).
    { destruct ws as [|c ws]; [congruence|].
      cbn [forallb] in Hws. apply andb_true_iff in Hws.
      destruct Hws as [Hc _].
      cbn [RLit lit list_ascii_of_string map RConcat fold_right rmatch
           m_rest app].
      rewrite (proj2 (isSpace_plain c Hc)). reflexivity. }
    rewrite rmatch_opt, Hp. cbn [orElse].
    apply (size_tail_match k [] ws unit rest); try assumption; try reflexivity.
    rewrite !length_app in Hk. cbn [length]. rewrite <- Hk.
    do 2 f_equal. lia.
  - rewrite <- app_assoc. cbn [app].
    apply rmatch_plus_run; [exact Hn | exact Hd | reflexivity |].
    rewrite rmatch_concat_cons, rmatch_opt, rmatch_point.
    change (f :: fp ++ ws ++ unit ++ rest)
      with ((f :: fp) ++ ws ++ unit ++ rest).
    rewrite (size_tail_match k (f :: fp) ws unit rest _ caps m);
      try assumption; [reflexivity|].
    rewrite <- Hk. f_equal. f_equal.
    repeat (rewrite ?length_app; cbn [length]). lia.
Qed.

Lemma size_no_match_here c x pos :
  isDigit c = false ->
  rmatch sizeRe Some (Build_mstate pos (c :: x) []) = None.
Proof.
  intros H. unfold sizeRe.
  cbn [rmatch RConcat fold_right RPlus m_rest]. rewrite H. reflexivity.
Qed.

Lemma searchFrom_size_skip pre x : forall pos,
  forallb (fun c => negb (isDigit c)) pre = true ->
  searchFrom sizeRe pos (pre ++ x) = searchFrom sizeRe (length pre + pos) x.
Proof.
  induction pre as [|c pre IH]; intros pos H; [reflexivity|].
  cbn [forallb] in H. apply andb_true_iff in H. destruct H as [Hc H].
  apply negb_true_iff in Hc.
  cbn [app searchFrom]. rewrite (size_no_match_here c _ pos Hc).
  cbn [orElse length]. rewrite (IH (S pos) H). f_equal. lia.
Qed.

Lemma searchFrom_here r pos x m :
  rmatch r Some (Build_mstate pos x []) = Some m ->
  searchFrom r pos x = Some m.
Proof. intros H. destruct x; simpl; rewrite H; reflexivity. Qed.

(** Property X12. The part of a Stream size value that is read as a size:
    when the value has, after a text [pre] without digits, a decimal
    literal, white space and a unit made of letters, that part is the
    literal, the white space and the unit, and the text after the unit,
    such as a percentage in parentheses, is left out. *)
Theorem X12_stream_size_part (pre ip fp ws unit rest : str) :
  forallb (fun c => negb (isDigit c)) pre = true ->
  isNumeral ip = true -> forallb isDigit fp = true ->
  ws <> [] -> forallb isSpace ws = true ->
  unit <> [] -> forallb isAlpha unit = true ->
  match rest with c :: _ => isAlpha c = false | [] => True end ->
  sizePart (pre ++ decimalLiteral ip fp ++ ws ++ unit ++ rest)
  = Some (decimalLiteral ip fp ++ ws ++ unit).
Proof.
  intros Hpre Hi Hf Hw Hws Hu Hus Hr. unfold sizePart, re_match.
  rewrite (searchFrom_size_skip pre _ 0 Hpre), Nat.add_0_r.
  set (w := decimalLiteral ip fp ++ ws ++ unit).
  set (st0 := Build_mstate (length pre)
                (decimalLiteral ip fp ++ ws ++ unit ++ rest) []).
  rewrite (searchFrom_here sizeRe _ _
             (setCap 1 st0 (Build_mstate (length w + length pre) rest []))).
  - cbn [option_map m_caps setCap m_pos m_rest st0 group Nat.eqb].
    rewrite Nat.add_sub. f_equal.
    replace (decimalLiteral ip fp ++ ws ++ unit ++ rest) with (w ++ rest)
      by (unfold w; rewrite <- !app_assoc; reflexivity).
    rewrite firstn_app, Nat.sub_diag, firstn_all, firstn_0, app_nil_r.
    reflexivity.
  - unfold sizeRe. cbn [rmatch]. unfold st0.
    apply size_match_here; try assumption. reflexivity.
Qed.

(** The property X12 at work: a size followed by a percentage. *)
Lemma X12_stream_size_part_witness :
  sizePart (lit "5.67 GiB (93%)") = Some (lit "5.67 GiB").
Proof.
  apply (X12_stream_size_part [] (lit "5") (lit "67") (lit " ") (lit "GiB")
           (lit " (93%)")).
  - reflexivity.
  - reflexivity.
  - reflexivity.
  - discriminate.
  - reflexivity.
  - discriminate.
  - reflexivity.
  - reflexivity.
Defined.

Lemma mul_NaN y : Num.mul Num.NaN y = Num.NaN.
Proof. reflexivity. Qed.

Lemma add_NaN_l y : Num.add Num.NaN y = Num.NaN.
Proof. reflexivity. Qed.

Lemma add_NaN_r x : Num.add x Num.NaN = Num.NaN.
Proof. destruct x; reflexivity. Qed.

(** Property X13. [parseSize] reads the first two parts of its argument,
    as separated by single spaces, and nothing else: what follows a second
    space is ignored; two spaces after the number leave an empty unit, and
    the number is then taken as a number of bytes whatever follows; and a
    string that starts with a space has no number, which gives NaN. *)
Theorem X13_parseSize_reads_two_parts (n unit rest : str) :
  isToken n = true -> isToken unit = true ->
  parseSize (n ++ " "%char :: unit ++ " "%char :: rest)
  = parseSize (n ++ " "%char :: unit)
  /\ parseSize (n ++ " "%char :: " "%char :: rest) = sizeInBytes n []
  /\ parseSize (" "%char :: rest) = Num.NaN.
Proof.
  intros Hn Hu. unfold parseSize, split. split; [|split].
  - rewrite !(splitBy_app (isChar " ") n) by (exact Hn || reflexivity).
    rewrite (splitBy_app (isChar " ") unit) by (exact Hu || reflexivity).
    rewrite (splitBy_token (isChar " ") unit Hu). reflexivity.
  - rewrite (splitBy_app (isChar " ") n) by (exact Hn || reflexivity).
    cbn [splitBy isChar]. change (Ascii.eqb " " " ") with true. cbn iota.
    reflexivity.
  - cbn [splitBy isChar]. change (Ascii.eqb " " " ") with true. cbn iota.
    cbn [hd removeAll filter]. change (parseFloat []) with Num.NaN.
    rewrite mul_NaN. reflexivity.
Qed.

(** The property X13 at work: a size followed by a percentage, and a size
    with two spaces before the unit. *)
Lemma X13_parseSize_reads_two_parts_witness :
  parseSize (lit "5.67 GiB (93%)") = parseSize (lit "5.67 GiB")
  /\ parseSize (lit "5  GiB") = Num.of_Z 5.
Proof.
  split.
  - exact (proj1 (X13_parseSize_reads_two_parts
                    (lit "5.67") (lit "GiB") (lit "(93%)")
                    eq_refl eq_refl)).
  - change (lit "5  GiB")
      with (lit "5" ++ " "%char :: " "%char :: lit "GiB").
    rewrite (proj1 (proj2 (X13_parseSize_reads_two_parts
                             (lit "5") [] (lit "GiB") eq_refl eq_refl))).
    vm_compute. reflexivity.
Defined.

Lemma durationLoop_tokens pairs : forall total,
  durationLoop (flat_map (fun pair => [fst pair; snd pair]) pairs) total
  = fold_left
      (fun total pair => durationStep (fst pair) (Some (snd pair)) total)
      pairs total.
Proof.
  induction pairs as [|[v u] pairs IH]; intros total; [reflexivity|].
  cbn [flat_map app fst snd durationLoop fold_left]. apply IH.
Qed.

Lemma durationLoop_unpaired pairs tok : forall total,
  durationLoop (flat_map (fun pair => [fst pair; snd pair]) pairs ++ [tok])
    total
  = durationLoop (flat_map (fun pair => [fst pair; snd pair]) pairs) total.
Proof.
  induction pairs as [|[v u] pairs IH]; intros total; [reflexivity|].
  cbn [flat_map app fst snd durationLoop]. apply IH.
Qed.

Lemma tokenPairs_tokens pairs :
  forallb isTokenPair pairs = true ->
  Forall (fun x => forallb (notChar " ") x = true)
    (flat_map (fun pair => [fst pair; snd pair]) pairs).
Proof.
  induction pairs as [|[v u] pairs IH]; intros H; [constructor|].
  cbn [forallb] in H. apply andb_true_iff in H. destruct H as [Hp H].
  apply andb_true_iff in Hp. destruct Hp as [Hv Hu].
  cbn [flat_map app fst snd]. repeat constructor; auto.
Qed.

Lemma joinWith_snoc sep (l : list str) tok :
  l <> [] -> joinWith sep (l ++ [tok]) = joinWith sep l ++ sep :: tok.
Proof.
  induction l as [|x l IH]; [congruence|]. intros _.
  destruct l as [|y l]; [reflexivity|].
  change (joinWith sep ((x :: y :: l) ++ [tok]))
    with (x ++ sep :: joinWith sep ((y :: l) ++ [tok])).
  rewrite IH by discriminate.
  change (joinWith sep (x :: y :: l)) with (x ++ sep :: joinWith sep (y :: l)).
  rewrite <- app_assoc. reflexivity.
Qed.

(** Property X14. [parseDuration] reads its tokens in pairs: after pairs of
    tokens, a last token without a unit adds nothing to the duration. *)
Theorem X14_parseDuration_ignores_unpaired_token
    (pairs : list (str * str)) (tok : str) :
  pairs <> [] -> forallb isTokenPair pairs = true -> isToken tok = true ->
  parseDuration (durationString pairs ++ " "%char :: tok)
  = parseDuration (durationString pairs).
Proof.
  intros Hne Hp Ht. unfold parseDuration, durationString.
  assert (Hl : flat_map (fun pair => [fst pair; snd pair]) pairs <> []).
  { destruct pairs as [|[v u] pairs]; [congruence | discriminate]. }
  rewrite <- (joinWith_snoc " " _ tok Hl).
  rewrite !split_joinWith.
  - apply durationLoop_unpaired.
  - exact Hl.
  - apply tokenPairs_tokens. exact Hp.
  - intros E. apply app_eq_nil in E. destruct E as [_ E]. discriminate.
  - apply Forall_app. split; [apply tokenPairs_tokens; exact Hp|].
    constructor; [exact Ht | constructor].
Qed.

(** The property X14 at work: a number of seconds without its unit. *)
Lemma X14_parseDuration_ignores_unpaired_token_witness :
  parseDuration (lit "23 min 50") = parseDuration (lit "23 min").
Proof.
  apply (X14_parseDuration_ignores_unpaired_token
           [(lit "23", lit "min")] (lit "50")).
  - discriminate.
  - reflexivity.
  - reflexivity.
Defined.

Lemma durationStep_NaN part unit : durationStep part unit Num.NaN = Num.NaN.
Proof.
  unfold durationStep.
  repeat match goal with
         | |- context [if ?b then _ else _] => destruct b
         end; reflexivity.
Qed.

Lemma durationStep_no_number part unit total :
  parseInt (Some part) radix10 = Num.NaN -> isDurationUnit unit = true ->
  durationStep part (Some unit) total = Num.NaN.
Proof.
  unfold durationStep, isDurationUnit, radix10, optTest. intros -> H.
  rewrite !mul_NaN, !add_NaN_r.
  repeat match goal with
         | |- context [if ?b then _ else _] => destruct b
         end; try reflexivity.
  discriminate.
Qed.

(** Property X15. A pair whose first token is not a number, with a unit
    that is recognized, makes the whole duration NaN, whatever the other
    pairs are. *)
Theorem X15_parseDuration_not_a_number
    (before after : list (str * str)) (part unit : str) :
  forallb isTokenPair (before ++ (part, unit) :: after) = true ->
  parseInt (Some part) radix10 = Num.NaN ->
  isDurationUnit unit = true ->
  parseDuration (durationString (before ++ (part, unit) :: after)) = Num.NaN.
Proof.
  intros Hp Hv Hu. unfold parseDuration, durationString.
  rewrite split_joinWith.
  - rewrite durationLoop_tokens, fold_left_app. cbn [fold_left fst snd].
    rewrite (durationStep_no_number part unit _ Hv Hu).
    clear. induction after as [|[v u] after IH]; [reflexivity|].
    cbn [fold_left fst snd]. rewrite durationStep_NaN. exact IH.
  - destruct before as [|[v u] before]; discriminate.
  - apply tokenPairs_tokens. exact Hp.
Qed.

(** The property X15 at work: a duration whose minutes are not written as
    a number. *)
Lemma X15_parseDuration_not_a_number_witness :
  parseDuration (lit "1 h ?? min 30 s") = Num.NaN.
Proof.
  apply (X15_parseDuration_not_a_number
           [(lit "1", lit "h")] [(lit "30", lit "s")] (lit "??") (lit "min")).
  - reflexivity.
  - reflexivity.
  - reflexivity.
Defined.

Lemma not_digit_radix10 c : isDigit c = false -> isRadixDigit 10 c = false.
Proof. by_ascii c. Qed.

(** [parseInt] reads the decimal digits a string starts with. *)
Lemma parseInt_digits ip rest :
  isNumeral ip = true ->
  match rest with c :: _ => isDigit c = false | [] => True end ->
  parseInt (Some (ip ++ rest)) radix10 = Num.of_Z (decValue ip).
Proof.
  destruct ip as [|c x]; [discriminate|]. intros H Hr.
  change (isNumeral (c :: x)) with (forallb isDigit (c :: x)) in H.
  pose proof H as H'. simpl in H'. apply andb_true_iff in H'.
  destruct H' as [Hc _].
  unfold parseInt, toString, trimStart. cbn [app dropWhile].
  rewrite (isDigit_not_space _ Hc). unfold readSign.
  destruct (isDigit_not_sign _ Hc) as [-> ->].
  unfold radix10. cbn -[takeWhile radixValue skipn Z.ltb app].
  change (c :: x ++ rest) with ((c :: x) ++ rest).
  rewrite (takeWhile_app_all (isRadixDigit 10) (c :: x) rest)
    by (eapply forallb_impl; [apply isDigit_radix10 | exact H]).
  replace (takeWhile (isRadixDigit 10) rest) with (@nil ascii).
  - rewrite app_nil_r. reflexivity.
  - destruct rest as [|a rest]; [reflexivity|]. simpl.
    rewrite (not_digit_radix10 a Hr). reflexivity.
Qed.

(** Property X16. The Width and the Height of a video track are read from
    the value without its white space: the digits before the first other
    character are joined across white space into one integer, and the text
    after them, such as the unit, is not read. *)
Theorem X16_width_and_height_join_digits (value ip rest : str) :
  removeAll isSpace value = ip ++ rest ->
  isNumeral ip = true ->
  match rest with c :: _ => isDigit c = false | [] => True end ->
  lookup (lit "Width") (videoCases value)
  = Some (assign (VideoTrack.set_width (Num.of_Z (decValue ip))))
  /\ lookup (lit "Height") (videoCases value)
     = Some (assign (VideoTrack.set_height (Num.of_Z (decValue ip)))).
Proof.
  intros E Hi Hr. pose proof (parseInt_digits ip rest Hi Hr) as H.
  rewrite <- E in H. split.
  - exact (f_equal (fun n => Some (assign (VideoTrack.set_width n))) H).
  - exact (f_equal (fun n => Some (assign (VideoTrack.set_height n))) H).
Qed.

(** The property X16 at work: a width of 1 920 pixels. *)
Lemma X16_width_and_height_join_digits_witness :
  lookup (lit "Width") (videoCases (lit "1 920 pixels"))
  = Some (assign (VideoTrack.set_width (Num.of_Z 1920))).
Proof.
  exact (proj1 (X16_width_and_height_join_digits
                  (lit "1 920 pixels") (lit "1920") (lit "pixels")
                  eq_refl eq_refl eq_refl)).
Defined.

(** What a key-value pair leaves as it was: the parts of the record of the
    other sections. *)
Lemma keyEffect_others st key value r' :
  keyEffect st key value r' ->
  (currentSection st <> lit "general" -> general r' = general (result st))
  /\ (currentSection st <> lit "video" -> video r' = video (result st))
  /\ (currentSection st <> lit "audio" -> audio r' = audio (result st))
  /\ (currentSection st <> lit "text" -> text r' = text (result st))
  /\ menu r' = menu (result st).
Proof.
  unfold keyEffect.
  intros [->|[(f & E & _ & ->)|[(f & E & _ & ->)|[(f & E & _ & ->)
         |(f & E & _ & ->)]]]]; rewrite ?E;
    repeat split; intros; try reflexivity; congruence.
Qed.

(** Property X7. A line that is not a header line changes, at most, the
    part of the record of the section in effect: after any lines [pre],
    such a line leaves the track index, the general record outside the
    General section, the video, audio and text tracks outside their own
    sections, and the chapters outside the Menu section as they were. *)
Theorem X7_line_changes_current_section_only
    (pre : list str) (line : str) :
  headerName line = None ->
  exists st st',
    forLines pre initialState = Ok st
    /\ processLine st line = Ok st'
    /\ trackIndex st' = trackIndex st
    /\ (currentSection st <> lit "general" ->
        general (result st') = general (result st))
    /\ (currentSection st <> lit "video" ->
        video (result st') = video (result st))
    /\ (currentSection st <> lit "audio" ->
        audio (result st') = audio (result st))
    /\ (currentSection st <> lit "text" ->
        text (result st') = text (result st))
    /\ (currentSection st <> lit "menu" ->
        menu (result st') = menu (result st)).
Proof.
  intros Hh.
  destruct (forLines_ok pre initialState Inv_initialState) as (st & E & HI).
  destruct (processLine_ok st line HI) as (st' & E' & _).
  exists st, st'. split; [exact E|]. split; [exact E'|].
  destruct (processLine_cases st line st' HI E')
    as [(_ & _ & Hr & _ & Hi)
       |[(name & Hn & _)
        |(_ & _ & [(ch & Hm & _ & ->)|[->
           |(key & value & r' & _ & _ & He & ->)]])]].
  - rewrite Hr, Hi. repeat split; reflexivity.
  - congruence.
  - rewrite Hm. cbn.
    repeat split; intros; try reflexivity; congruence.
  - repeat split; reflexivity.
  - destruct (keyEffect_others st key value r' He) as (Hg & Hv & Ha & Ht & Hm).
    cbn [withResult result trackIndex]. auto 10.
Qed.

(** The property X7 at work: a Width line of a Video section leaves the
    general record as it was. *)
Lemma X7_line_changes_current_section_only_witness :
  exists st st',
    forLines [lit "General"; lit "Format : Matroska"; lit "Video"]
      initialState = Ok st
    /\ processLine st (lit "Width : 1 920 pixels") = Ok st'
    /\ general (result st') = general (result st).
Proof.
  destruct (X7_line_changes_current_section_only
              [lit "General"; lit "Format : Matroska"; lit "Video"]
              (lit "Width : 1 920 pixels") eq_refl)
    as (st & st' & E & E' & _ & Hg & _).
  exists st, st'. split; [exact E|]. split; [exact E'|].
  apply Hg. vm_compute in E. injection E as <-. discriminate.
Defined.

(** One line keeps the chapters read so far, and may add some. *)
Lemma processLine_chapters st line st' :
  Inv st -> processLine st line = Ok st' ->
  exists more, menu (result st') = menu (result st) ++ more.
Proof.
  intros HI E.
  destruct (processLine_cases st line st' HI E)
    as [(_ & _ & Hr & _ & _)
       |[(name & _ & ->)
        |(_ & _ & [(ch & _ & _ & ->)|[->
           |(key & value & r' & _ & _ & He & ->)]])]].
  - exists []. rewrite Hr, app_nil_r. reflexivity.
  - exists []. unfold enterSection. cbn [result].
    rewrite menu_pushTrack, app_nil_r. reflexivity.
  - exists [ch]. reflexivity.
  - exists []. rewrite app_nil_r. reflexivity.
  - exists []. cbn [withResult result].
    destruct (keyEffect_sameShape _ _ _ _ He) as (_ & _ & _ & ->).
    rewrite app_nil_r. reflexivity.
Qed.

Lemma forLines_chapters lines st st' :
  Inv st -> forLines lines st = Ok st' ->
  exists more, menu (result st') = menu (result st) ++ more.
Proof.
  intros HI.
  apply (forLines_invariant
           (fun s => exists more, menu (result s) = menu (result st) ++ more));
    [|exact HI|].
  - intros s line s' Hs [more Hm] E.
    destruct (processLine_chapters s line s' Hs E) as [more' ->].
    exists (more ++ more'). rewrite Hm, app_assoc. reflexivity.
  - exists []. rewrite app_nil_r. reflexivity.
Qed.

(** Property X8. The chapters are only ever appended: after any number
    [n] of lines, the chapters read so far are the first chapters of the
    final result, in the same order. *)
Theorem X8_chapters_are_only_appended (input : str) (n : nat) :
  let lines := split chr_nl input in
  exists st r more,
    forLines (firstn n lines) initialState = Ok st
    /\ parseMediaInfo input = Ok r
    /\ menu r = menu (result st) ++ more.
Proof.
  intros lines. destruct (parseMediaInfo_ok input) as (st' & E & _ & ->).
  fold lines in E. rewrite <- (firstn_skipn n lines), forLines_app in E.
  destruct (forLines_ok (firstn n lines) _ Inv_initialState)
    as (st & E1 & HI).
  rewrite E1 in E. cbn [bind] in E.
  destruct (forLines_chapters _ _ _ HI E) as [more Hm].
  exists st, (result st'), more. auto.
Qed.

Lemma generalVerbatim_assigned :
  Forall (fun entry : verbatim GeneralTrack.t =>
            let '(key, get) := entry in
            forall value, exists f,
              lookup (lit key) (generalCases value) = Some f
              /\ forall t, get (f t) = Some value)
         generalVerbatim.
Proof.
  unfold generalVerbatim.
  repeat (constructor; [intros value; eexists; split;
                        [reflexivity | intros t; reflexivity]|]).
  constructor.
Qed.

Ltac verbatim_table :=
  repeat (constructor; [intros value; eexists; split;
                        [reflexivity | intros t; reflexivity]|]);
  constructor.

Lemma videoVerbatim_assigned : assignsVerbatim videoCases videoVerbatim.
Proof. unfold assignsVerbatim, videoVerbatim. verbatim_table. Qed.

Lemma audioVerbatim_assigned : assignsVerbatim audioCases audioVerbatim.
Proof. unfold assignsVerbatim, audioVerbatim. verbatim_table. Qed.

Lemma textVerbatim_assigned : assignsVerbatim textCases textVerbatim.
Proof. unfold assignsVerbatim, textVerbatim. verbatim_table. Qed.

Lemma target_verbatim {T} (cases : str -> list (string * caseBody T))
    (table : list (verbatim T)) key value (t t' : T) :
  assignsVerbatim cases table ->
  match lookup key (cases value) with
  | Some (Ok (Some f)) => t' = f t
  | _ => t' = t
  end ->
  forall label get,
    In (label, get) table -> key = lit label -> get t' = Some value.
Proof.
  intros Htab Hm label get Hin ->.
  pose proof (proj1 (Forall_forall _ _) Htab _ Hin value) as (f & E & Hf).
  rewrite E in Hm. unfold assign in Hm. subst t'. apply Hf.
Qed.

(** Property X17. The keys without a normalizer store the value as it is
    read from the line: after any lines [pre], a key-value line with such a
    key sets the field of the target (the general record, or the track at
    the track index) to the value string itself. *)
Theorem X17_plain_value_is_stored_verbatim
    (pre : list str) (line key value : str) :
  keyValueOf line = Some (key, value) ->
  exists st st',
    forLines pre initialState = Ok st
    /\ processLine st line = Ok st'
    /\ (currentSection st = lit "general" ->
        forall label get,
          In (label, get) generalVerbatim -> key = lit label ->
          get (general (result st')) = Some value)
    /\ (currentSection st = lit "video" ->
        exists t',
          target (video (result st')) st = Some t'
          /\ forall label get,
               In (label, get) videoVerbatim -> key = lit label ->
               get t' = Some value)
    /\ (currentSection st = lit "audio" ->
        exists t',
          target (audio (result st')) st = Some t'
          /\ forall label get,
               In (label, get) audioVerbatim -> key = lit label ->
               get t' = Some value)
    /\ (currentSection st = lit "text" ->
        exists t',
          target (text (result st')) st = Some t'
          /\ forall label get,
               In (label, get) textVerbatim -> key = lit label ->
               get t' = Some value).
Proof.
  intros Hkv.
  destruct (forLines_ok pre initialState Inv_initialState) as (st & E & HI).
  destruct (processLine_ok st line HI) as (st' & E' & _).
  exists st, st'. split; [exact E|]. split; [exact E'|].
  split; [|split; [|split]]; intros Hs; unfold target.
  - intros label get Hin ->.
    rewrite (processLine_general st line _ value Hs Hkv) in E'.
    pose proof (proj1 (Forall_forall _ _) generalVerbatim_assigned _ Hin
                  value) as (f & Ef & Hf).
    rewrite Ef in E'. injection E' as <-. simpl. apply Hf.
  - pose proof (proj1 HI Hs) as HI0.
    destruct (lastIndex_target _ _ HI0) as [t Ht].
    destruct (switchTrack_target (videoCases value) key _ _ t
                (videoCases_ok value) Ht) as (v' & t' & Ev & Ht' & Hm).
    rewrite (processLine_video st line key value HI Hs Hkv), Ev in E'.
    injection E' as <-.
    cbn [result withResult video audio text set_video set_audio set_text].
    exists t'. split; [exact Ht'|].
    eapply target_verbatim; eauto using videoVerbatim_assigned.
  - pose proof (proj1 (proj2 HI) Hs) as HI0.
    destruct (lastIndex_target _ _ HI0) as [t Ht].
    destruct (switchTrack_target (audioCases value) key _ _ t
                (audioCases_ok value) Ht) as (v' & t' & Ev & Ht' & Hm).
    rewrite (processLine_audio st line key value HI Hs Hkv), Ev in E'.
    injection E' as <-.
    cbn [result withResult video audio text set_video set_audio set_text].
    exists t'. split; [exact Ht'|].
    eapply target_verbatim; eauto using audioVerbatim_assigned.
  - pose proof (proj2 (proj2 HI) Hs) as HI0.
    destruct (lastIndex_target _ _ HI0) as [t Ht].
    destruct (switchTrack_target (textCases value) key _ _ t
                (textCases_ok value) Ht) as (v' & t' & Ev & Ht' & Hm).
    rewrite (processLine_text st line key value HI Hs Hkv), Ev in E'.
    injection E' as <-.
    cbn [result withResult video audio text set_video set_audio set_text].
    exists t'. split; [exact Ht'|].
    eapply target_verbatim; eauto using textVerbatim_assigned.
Qed.

(** The property X17 at work: the language of an audio track. *)
Lemma X17_plain_value_is_stored_verbatim_witness :
  keyValueOf (lit "Language : English") = Some (lit "Language", lit "English")
  /\ exists st st' t',
       forLines [lit "Audio #2"] initialState = Ok st
       /\ processLine st (lit "Language : English") = Ok st'
       /\ target (audio (result st')) st = Some t'
       /\ AudioTrack.language t' = Some (lit "English").
Proof.
  assert (H : keyValueOf (lit "Language : English")
              = Some (lit "Language", lit "English"))
    by (vm_compute; reflexivity).
  split; [exact H|].
  destruct (X17_plain_value_is_stored_verbatim [lit "Audio #2"] _ _ _ H)
    as (st & st' & E & E' & _ & _ & Ha & _).
  assert (Hs : currentSection st = lit "audio").
  { vm_compute in E. injection E as <-. reflexivity. }
  destruct (Ha Hs) as (t' & Ht' & Hn).
  exists st, st', t'. repeat split; try assumption.
  apply (Hn "Language"%string AudioTrack.language).
  - simpl. auto 10.
  - reflexivity.
Defined.

Lemma lowerChar_yes c :
  (lowerChar c = "y"%char -> c = "y"%char \/ c = "Y"%char)
  /\ (lowerChar c = "e"%char -> c = "e"%char \/ c = "E"%char)
  /\ (lowerChar c = "s"%char -> c = "s"%char \/ c = "S"%char).
Proof.
  destruct c as [[|] [|] [|] [|] [|] [|] [|] [|]]; vm_compute;
    repeat split; intros H; try discriminate H; auto.
Qed.

(** Property X18. The fields Default and Forced are true for the word yes
    in any combination of upper and lower case, and for nothing else. *)
Theorem X18_yes_in_any_case (value : str) :
  isYes value = true
  <-> exists y e s,
        value = [y; e; s]
        /\ (y = "y"%char \/ y = "Y"%char)
        /\ (e = "e"%char \/ e = "E"%char)
        /\ (s = "s"%char \/ s = "S"%char).
Proof.
  unfold isYes. rewrite str_eqb_eq. split.
  - destruct value as [|y [|e [|s [|x value]]]]; try discriminate.
    cbn [toLowerCase map lit list_ascii_of_string]. intros [= Hy He Hs].
    exists y, e, s. split; [reflexivity|].
    split; [apply lowerChar_yes; exact Hy|].
    split; [apply lowerChar_yes; exact He | apply lowerChar_yes; exact Hs].
  - intros (y & e & s & -> & Hy & He & Hs).
    destruct Hy as [-> | ->], He as [-> | ->], Hs as [-> | ->]; reflexivity.
Qed.

(** The property X18 at work: Yes, as MediaInfo writes it. *)
Lemma X18_yes_in_any_case_witness : isYes (lit "Yes") = true.
Proof.
  apply (proj2 (X18_yes_in_any_case (lit "Yes"))).
  exists "Y"%char, "e"%char, "s"%char. auto 10.
Defined.

(** The names the variable [currentSection] can hold. *)
Lemma processLine_section st line st' :
  Inv st -> processLine st line = Ok st' ->
  In (currentSection st)
     [[]; lit "general"; lit "video"; lit "audio"; lit "text"; lit "menu"] ->
  In (currentSection st')
     [[]; lit "general"; lit "video"; lit "audio"; lit "text"; lit "menu"].
Proof.
  intros HI E Hs.
  destruct (processLine_cases st line st' HI E)
    as [(_ & _ & _ & -> & _)
       |[(name & Hn & ->)
        |(_ & _ & [(ch & _ & _ & ->)|[->
           |(key & value & r' & _ & _ & _ & ->)]])]];
    try exact Hs.
  - left. reflexivity.
  - apply headerName_Some in Hn. destruct Hn as [Hn _].
    unfold enterSection. cbn [currentSection].
    unfold sectionNames in Hn. cbn [In] in Hn.
    destruct Hn as [<-|[<-|[<-|[<-|[<-|[]]]]]]; cbn; auto 10.
Qed.

(** Property X19. The state of the loop after any lines: the current
    section is empty or one of the five section names in lower case, and in
    the Video, Audio and Text sections the track index is that of the last
    track of the section and is not negative, so that the guard on the
    track index never fails there and the target track exists. *)
Theorem X19_track_index_is_last_track (pre : list str) :
  exists st,
    forLines pre initialState = Ok st
    /\ In (currentSection st)
          [[]; lit "general"; lit "video"; lit "audio"; lit "text";
           lit "menu"]
    /\ (currentSection st = lit "video" ->
        lastIndex (video (result st)) (trackIndex st))
    /\ (currentSection st = lit "audio" ->
        lastIndex (audio (result st)) (trackIndex st))
    /\ (currentSection st = lit "text" ->
        lastIndex (text (result st)) (trackIndex st)).
Proof.
  destruct (forLines_ok pre initialState Inv_initialState) as (st & E & HI).
  exists st. split; [exact E|]. split; [|exact HI].
  apply (forLines_invariant
           (fun s => In (currentSection s)
                       [[]; lit "general"; lit "video"; lit "audio";
                        lit "text"; lit "menu"]))
    with (lines := pre) (st := initialState).
  - intros s line s' Hs HP Es. exact (processLine_section s line s' Hs Es HP).
  - exact Inv_initialState.
  - left. reflexivity.
  - exact E.
Qed.
